(** * Batch source-rewriting scripts of tenant-flow: a shallow embedding

    The development embeds four maintenance scripts:

    - [scripts/css-variable-migration.py]   (module [CssVariableMigration])
    - [apps/backend/fix_orphaned.py]        (module [FixOrphaned])
    - [apps/frontend/fix-all-duplicates.py] (module [FixAllDuplicates])
    - [apps/frontend/fix-duplicates.py]     (module [FixDuplicates])

    Conventions.

    - Python [str] values are sequences of code points, modelled as
      [list N]; a file holds the text that Python's text-mode I/O presents.
    - An exception is a value of [exn]; a call that can raise returns an
      [outcome].  [Unmodelled] marks a call outside the fragment of [re]
      that is covered (escaped literals, templates without backslash),
      which is the fragment the rule table of the script lies in.
    - A path is the list of its components and names one file: the store
      has no links, so two paths never share a file.  Names are compared
      as on POSIX, case-sensitively.
    - A directory tree is given by its listings, in the order the operating
      system yields the entries; the contents of files are in the store. *)

From Stdlib Require Import NArith Ascii Lia.
From stdpp Require Import base option list strings gmap sorting lexico.

Set Warnings "-register-all".

Set Default Proof Using "Type".

(** ** Python strings *)

Abbreviation str := (list N).

(** Source-code literals.  Every literal the scripts use is ASCII. *)
Fixpoint py (s : string) : str :=
  match s with
  | EmptyString => []
  | String a s' => N_of_ascii a :: py s'
  end.

Definition NL : N := 10%N.

Module Str.

(** [s.startswith(p)] *)
Fixpoint startswith (s p : str) : bool :=
  match p, s with
  | [], _ => true
  | _ :: _, [] => false
  | a :: p', c :: s' => if decide (a = c) then startswith s' p' else false
  end.

(** [s.endswith(p)] *)
Definition endswith (s p : str) : bool := startswith (reverse s) (reverse p).

(** [p in s] *)
Fixpoint contains (p s : str) : bool :=
  startswith s p ||
  match s with
  | [] => false
  | _ :: s' => contains p s'
  end.

(** [s.count('\n')] *)
Fixpoint count_nl (s : str) : nat :=
  match s with
  | [] => 0
  | c :: s' => (if decide (c = NL) then 1 else 0) + count_nl s'
  end.

(** [s.split('\n')]: never empty, the pieces hold no newline. *)
Fixpoint split_nl (s : str) : list str :=
  match s with
  | [] => [[]]
  | c :: s' =>
      if decide (c = NL) then [] :: split_nl s'
      else match split_nl s' with
           | l :: ls => (c :: l) :: ls
           | [] => [[c]]
           end
  end.

(** ['\n'.join(ls)] *)
Fixpoint join_nl (ls : list str) : str :=
  match ls with
  | [] => []
  | [l] => l
  | l :: ls' => l ++ NL :: join_nl ls'
  end.

(** [c.isspace()], the table of CPython's [_PyUnicode_IsWhitespace]. *)
Definition isspace (c : N) : bool :=
  ((9 <=? c) && (c <=? 13) || (28 <=? c) && (c <=? 32)
   || (c =? 133) || (c =? 160) || (c =? 5760)
   || (8192 <=? c) && (c <=? 8202)
   || (c =? 8232) || (c =? 8233) || (c =? 8239) || (c =? 8287)
   || (c =? 12288))%N.

Fixpoint lstrip (s : str) : str :=
  match s with
  | [] => []
  | c :: s' => if isspace c then lstrip s' else s
  end.

Definition rstrip (s : str) : str := reverse (lstrip (reverse s)).

(** [s.strip()] *)
Definition strip (s : str) : str := rstrip (lstrip s).

End Str.

(** ** Exceptions and outcomes *)

Inductive exn :=
| re_error (msg : string)
| FileNotFoundError
| IsADirectoryError
| PermissionError
| UnicodeDecodeError
| ValueError.

(** The result of a call: a value, a raised exception, or [Unmodelled] when
    the call leaves the fragment of Python the embedding covers (regular
    expressions with operators, replacement templates with escapes). *)
Inductive outcome (A : Type) :=
| Ok (a : A)
| Raise (e : exn)
| Unmodelled.
Arguments Ok {A} a.
Arguments Raise {A} e.
Arguments Unmodelled {A}.

Definition bind {A B} (m : outcome A) (k : A → outcome B) : outcome B :=
  match m with
  | Ok a => k a
  | Raise e => Raise e
  | Unmodelled => Unmodelled
  end.

(** ** The [re] module on escaped literals

    Every pattern of the rule table is a literal in which the parentheses
    are escaped.  [compile] covers that fragment of the pattern syntax:
    an ordinary character and a backslash followed by a character that is
    no ASCII letter or digit stand for themselves; a backslash that ends
    the pattern and a closing parenthesis without an opening one are
    rejected with [re.error]; any other operator is outside the fragment. *)
Module Re.

Inductive compiled :=
| Literal (lit : str)
| Malformed (msg : string)
| Operator.

Definition backslash : N := 92%N.

Definition is_ascii_alnum (c : N) : bool :=
  ((48 <=? c) && (c <=? 57) || (65 <=? c) && (c <=? 90)
   || (97 <=? c) && (c <=? 122))%N.

(** [. ^ $ * + ? { } [ ] | (] *)
Definition is_operator (c : N) : bool :=
  bool_decide (c ∈ py ".^$*+?{}[]|(").

Definition lit_cons (c : N) (r : compiled) : compiled :=
  match r with
  | Literal l => Literal (c :: l)
  | other => other
  end.

Fixpoint compile (pattern : str) : compiled :=
  match pattern with
  | [] => Literal []
  | c :: rest =>
      if decide (c = backslash) then
        match rest with
        | [] => Malformed "bad escape (end of pattern)"
        | e :: rest' =>
            if is_ascii_alnum e then Operator else lit_cons e (compile rest')
        end
      else if decide (c = 41%N) then Malformed "unbalanced parenthesis"
      else if is_operator c then Operator
      else lit_cons c (compile rest)
  end.

(** A match object: [m.start()] and [m.group()]. *)
Record Match := { start : nat; group : str }.

(** Leftmost, non-overlapping occurrences of a literal, scanning from
    offset [pos]; [skip] counts the characters of the last match that
    are still to be passed over. *)
Fixpoint scan (lit : str) (skip pos : nat) (s : str) : list Match :=
  match s with
  | [] => match lit with
          | [] => [ {| start := pos; group := [] |} ]
          | _ => []
          end
  | _ :: s' =>
      match skip with
      | S k => scan lit k (S pos) s'
      | O =>
          if Str.startswith s lit
          then {| start := pos; group := lit |}
                 :: scan lit (length lit - 1) (S pos) s'
          else scan lit 0 (S pos) s'
      end
  end.

(** The text with every such occurrence replaced by [repl]. *)
Fixpoint subst (lit repl : str) (skip : nat) (s : str) : str :=
  match s with
  | [] => match lit with
          | [] => repl
          | _ => []
          end
  | c :: s' =>
      match skip with
      | S k => subst lit repl k s'
      | O =>
          if Str.startswith s lit
          then repl ++ match lit with
                       | [] => c :: subst lit repl 0 s'
                       | _ => subst lit repl (length lit - 1) s'
                       end
          else c :: subst lit repl 0 s'
      end
  end.

Definition with_pattern {A} (pattern : str) (k : str → outcome A) : outcome A :=
  match compile pattern with
  | Literal lit => k lit
  | Malformed msg => Raise (re_error msg)
  | Operator => Unmodelled
  end.

(** [list(re.finditer(pattern, s))] *)
Definition finditer (pattern s : str) : outcome (list Match) :=
  with_pattern pattern (λ lit, Ok (scan lit 0 0 s)).

(** [re.sub(pattern, repl, s)]; a template without backslash is literal. *)
Definition sub (pattern repl s : str) : outcome str :=
  with_pattern pattern (λ lit,
    if bool_decide (backslash ∈ repl) then Unmodelled
    else Ok (subst lit repl 0 s)).

End Re.

(** ** Paths and the file store *)

Abbreviation Path := (list (list N)).

(** A regular file: its text ([None] when the bytes are no valid UTF-8) and
    whether the process may read and write it. *)
Record file := { data : option str; readable : bool; writable : bool }.

Inductive node :=
| Dir
| File (f : file).

(** The store maps a path to what is there; [written] logs every completed
    write, oldest first.  A path stands for the file it names: a tree in
    which a symbolic or a hard link gives one file two names is outside
    the model; a file that is reached twice is rendered by a path that
    is listed twice. *)
Record World := { store : gmap (list (list N)) node; written : list Path }.

(** A directory listing: names in the order the operating system yields
    them, sub-directories with their own listing. *)
Inductive dirent :=
| FileEnt (name : str)
| DirEnt (name : str) (entries : list dirent).

Module Fs.

Definition name_of (d : dirent) : str :=
  match d with
  | FileEnt n => n
  | DirEnt n _ => n
  end.

Definition is_dir (d : dirent) : bool :=
  match d with
  | FileEnt _ => false
  | DirEnt _ _ => true
  end.

(** [open(path).read()] and [Path.read_text(encoding="utf-8")] *)
Definition read_text (w : World) (path : Path) : outcome str :=
  match store w !! path with
  | None => Raise FileNotFoundError
  | Some Dir => Raise IsADirectoryError
  | Some (File f) =>
      if readable f then
        match data f with
        | Some s => Ok s
        | None => Raise UnicodeDecodeError
        end
      else Raise PermissionError
  end.

(** [open(path, 'w').write(s)] and [Path.write_text(s, encoding="utf-8")]:
    the file is replaced as a whole or the call raises.  The failures
    covered are those of opening the file, before anything is changed; a
    text that UTF-8 cannot encode and a failure of the device after the
    file has been opened, which leave the file cut, are outside the
    model. *)
Definition write_text (w : World) (path : Path) (s : str) : outcome World :=
  let put f := Ok {| store := <[path := File f]> (store w);
                     written := written w ++ [path] |} in
  match store w !! path with
  | None => put {| data := Some s; readable := true; writable := true |}
  | Some Dir => Raise IsADirectoryError
  | Some (File f) =>
      if writable f
      then put {| data := Some s; readable := readable f; writable := true |}
      else Raise PermissionError
  end.

(** [PurePath.parent] *)
Definition parent (p : Path) : Path :=
  match p with
  | [a] => if decide (a = py "/") then p else []
  | _ => removelast p
  end.

(** [p.is_absolute()]: an absolute path starts with the root. *)
Definition is_absolute (p : Path) : bool :=
  bool_decide (head p = Some (py "/")).

(** [p.relative_to(base)]: [base] has to lead to [p], and a relative
    base, the empty one included, leads to no absolute path. *)
Definition relative_to (p base : Path) : outcome Path :=
  if bool_decide (base `prefix_of` p)
     && bool_decide (is_absolute p = is_absolute base)
  then Ok (drop (length base) p)
  else Raise ValueError.

(** The order of [PurePath.__lt__]: component lists compared
    lexicographically, components by code point. *)
Definition path_lt (p q : Path) : Prop := lexico p q.
Definition path_le (p q : Path) : Prop := p = q ∨ path_lt p q.

Global Instance path_le_dec p q : Decision (path_le p q).
Proof.
  destruct (trichotomyT lexico p q) as [[Hlt|Heq]|Hgt].
  - left. by right.
  - left. by left.
  - right. intros [->|Hlt].
    + by apply (irreflexivity lexico q).
    + apply (irreflexivity lexico q). by etrans.
Defined.

(** [sorted(paths)]; the order is total, so the sorted list does not depend
    on the algorithm. *)
Definition sorted (paths : list Path) : list Path := merge_sort path_le paths.

End Fs.

(** ** scripts/css-variable-migration.py *)
Module CssVariableMigration.

(** File extensions to process (a Python set: its iteration order is not
    fixed, the list gives one). *)
Definition FILE_EXTENSIONS : list str := [py ".tsx"; py ".ts"; py ".css"].

(** Replacement patterns: (find, replace) *)
Definition REPLACEMENTS : list (str * str) := [
  (* Color variables (without --color- prefix) *)
  (py "var\(--border\)", py "var(--color-border)");
  (py "var\(--background\)", py "var(--color-background)");
  (py "var\(--foreground\)", py "var(--color-foreground)");
  (py "var\(--muted\)", py "var(--color-muted)");
  (py "var\(--muted-foreground\)", py "var(--color-muted-foreground)");
  (py "var\(--primary\)", py "var(--color-primary)");
  (py "var\(--primary-foreground\)", py "var(--color-primary-foreground)");
  (py "var\(--secondary\)", py "var(--color-secondary)");
  (py "var\(--secondary-foreground\)", py "var(--color-secondary-foreground)");
  (py "var\(--accent\)", py "var(--color-accent)");
  (py "var\(--accent-foreground\)", py "var(--color-accent-foreground)");
  (py "var\(--destructive\)", py "var(--color-destructive)");
  (py "var\(--destructive-foreground\)", py "var(--color-destructive-foreground)");
  (py "var\(--card\)", py "var(--color-card)");
  (py "var\(--card-foreground\)", py "var(--color-card-foreground)");
  (py "var\(--popover\)", py "var(--color-popover)");
  (py "var\(--popover-foreground\)", py "var(--color-popover-foreground)");
  (py "var\(--ring\)", py "var(--color-ring)");
  (py "var\(--input\)", py "var(--color-input)");
  (py "var\(--success\)", py "var(--color-success)");
  (py "var\(--success-foreground\)", py "var(--color-success-foreground)");
  (py "var\(--warning\)", py "var(--color-warning)");
  (py "var\(--warning-foreground\)", py "var(--color-warning-foreground)");
  (py "var\(--info\)", py "var(--color-info)");
  (py "var\(--info-foreground\)", py "var(--color-info-foreground)");
  (py "var\(--sidebar\)", py "var(--color-sidebar)");
  (py "var\(--sidebar-foreground\)", py "var(--color-sidebar-foreground)");

  (* Line height variables: --line-height-X to --leading-X *)
  (py "var\(--line-height-display-2xl\)", py "var(--leading-display-2xl)");
  (py "var\(--line-height-display-xl\)", py "var(--leading-display-xl)");
  (py "var\(--line-height-display-lg\)", py "var(--leading-display-lg)");
  (py "var\(--line-height-display-md\)", py "var(--leading-display-md)");
  (py "var\(--line-height-display-sm\)", py "var(--leading-display-sm)");
  (py "var\(--line-height-large-title\)", py "var(--leading-large-title)");
  (py "var\(--line-height-title-1\)", py "var(--leading-title-1)");
  (py "var\(--line-height-title-2\)", py "var(--leading-title-2)");
  (py "var\(--line-height-title-3\)", py "var(--leading-title-3)");
  (py "var\(--line-height-headline\)", py "var(--leading-headline)");
  (py "var\(--line-height-body\)", py "var(--leading-body)");
  (py "var\(--line-height-callout\)", py "var(--leading-callout)");
  (py "var\(--line-height-subheadline\)", py "var(--leading-subheadline)");
  (py "var\(--line-height-footnote\)", py "var(--leading-footnote)");
  (py "var\(--line-height-caption\)", py "var(--leading-caption)");
  (py "var\(--line-height-none\)", py "var(--leading-none)");
  (py "var\(--line-height-tight\)", py "var(--leading-tight)");
  (py "var\(--line-height-snug\)", py "var(--leading-snug)");
  (py "var\(--line-height-normal\)", py "var(--leading-normal)");
  (py "var\(--line-height-relaxed\)", py "var(--leading-relaxed)");
  (py "var\(--line-height-loose\)", py "var(--leading-loose)");

  (* Radius variables (old naming to standard) *)
  (py "var\(--radius-small\)", py "var(--radius-sm)");
  (py "var\(--radius-medium\)", py "var(--radius-md)");
  (py "var\(--radius-large\)", py "var(--radius-lg)");
  (py "var\(--radius-xlarge\)", py "var(--radius-xl)");
  (py "var\(--radius-xxlarge\)", py "var(--radius-2xl)");

  (* Shadow variables (old naming to standard) *)
  (py "var\(--shadow-small\)", py "var(--shadow-sm)");
  (py "var\(--shadow-medium\)", py "var(--shadow-md)");
  (py "var\(--shadow-large\)", py "var(--shadow-lg)");

  (* Typography variables: --font-X sizes to --text-X *)
  (py "var\(--font-display-2xl\)", py "var(--text-display-2xl)");
  (py "var\(--font-display-xl\)", py "var(--text-display-xl)");
  (py "var\(--font-display-lg\)", py "var(--text-display-lg)");
  (py "var\(--font-display-md\)", py "var(--text-display-md)");
  (py "var\(--font-display-sm\)", py "var(--text-display-sm)");
  (py "var\(--font-large-title\)", py "var(--text-large-title)");
  (py "var\(--font-title-1\)", py "var(--text-title-1)");
  (py "var\(--font-title-2\)", py "var(--text-title-2)");
  (py "var\(--font-title-3\)", py "var(--text-title-3)");
  (py "var\(--font-headline\)", py "var(--text-headline)");
  (py "var\(--font-body\)", py "var(--text-body)");
  (py "var\(--font-callout\)", py "var(--text-callout)");
  (py "var\(--font-subheadline\)", py "var(--text-subheadline)");
  (py "var\(--font-footnote\)", py "var(--text-footnote)");
  (py "var\(--font-caption-1\)", py "var(--text-caption-1)");
  (py "var\(--font-caption-2\)", py "var(--text-caption-2)")  ].

Record Change := { line : nat; old : str; new : str }.

Record Result := {
  file : Path;
  changes : list Change;
  modified : bool;
  error : option exn
}.

Record Summary := {
  files_scanned : nat;
  modified_files : nat;
  total_changes : nat
}.

(** The record appended for one match ([content[:m.start()]] is [take]). *)
Definition record (content replacement : str) (m : Re.Match) : Change :=
  {| line := Str.count_nl (take (Re.start m) content) + 1;
     old := Re.group m;
     new := replacement |}.

(** The loop over the rules in [process_file].  The records collected so
    far are kept when a call raises, as they were appended to the result
    before. *)
Fixpoint apply_rules (rules : list (str * str)) (content : str)
    (changes : list Change) : outcome str * list Change :=
  match rules with
  | [] => (Ok content, changes)
  | (pattern, replacement) :: rest =>
      match Re.finditer pattern content with
      | Ok [] => apply_rules rest content changes
      | Ok matches =>
          let changes := changes ++ map (record content replacement) matches in
          match Re.sub pattern replacement content with
          | Ok content => apply_rules rest content changes
          | Raise e => (Raise e, changes)
          | Unmodelled => (Unmodelled, changes)
          end
      | Raise e => (Raise e, changes)
      | Unmodelled => (Unmodelled, changes)
      end
  end.

(** [find_files]: [listing] is what lies under [directory];
    [directory.rglob("*" + ext)] yields the entries, files and
    directories alike, whose name ends with [ext]: those of the
    directory itself, then those of each sub-directory in turn.  The
    pattern is rendered for an extension that holds no character of the
    glob syntax, as those of [FILE_EXTENSIONS]. *)
Definition matching (directory : Path) (listing : list dirent) (ext : str)
    : list Path :=
  map (λ d, directory ++ [Fs.name_of d])
      (filter (λ d, Str.endswith (Fs.name_of d) ext = true) listing).

Fixpoint rglob_below (directory : Path) (ext : str) (d : dirent) : list Path :=
  match d with
  | FileEnt _ => []
  | DirEnt n sub =>
      matching (directory ++ [n]) sub ext
      ++ flat_map (rglob_below (directory ++ [n]) ext) sub
  end.

Definition rglob (directory : Path) (listing : list dirent) (ext : str)
    : list Path :=
  matching directory listing ext ++ flat_map (rglob_below directory ext) listing.

Definition find_files (directory : Path) (listing : list dirent)
    (extensions : list str) : list Path :=
  Fs.sorted (concat (map (rglob directory listing) extensions)).

Section Script.

(** [Path(__file__).parent.parent], the checkout the script lives in. *)
Variable project_root : Path.

Definition SEARCH_DIR : Path :=
  project_root ++ [py "apps"; py "frontend"; py "src"].

Definition process_file (rules : list (str * str)) (w : World)
    (file_path : Path) (dry_run : bool) : outcome (Result * World) :=
  bind (Fs.relative_to file_path (Fs.parent (Fs.parent (Fs.parent SEARCH_DIR))))
    (λ rel,
      let result chs m err :=
        {| file := rel; changes := chs; modified := m; error := err |} in
      match Fs.read_text w file_path with
      | Ok original_content =>
          match apply_rules rules original_content [] with
          | (Ok content, chs) =>
              if decide (content ≠ original_content) then
                if dry_run then Ok (result chs true None, w)
                else
                  match Fs.write_text w file_path content with
                  | Ok w' => Ok (result chs true None, w')
                  | Raise e => Ok (result chs true (Some e), w)
                  | Unmodelled => Unmodelled
                  end
              else Ok (result chs false None, w)
          | (Raise e, chs) => Ok (result chs false (Some e), w)
          | (Unmodelled, _) => Unmodelled
          end
      | Raise e => Ok (result [] false (Some e), w)
      | Unmodelled => Unmodelled
      end).

(** The loop of [main] over the files found: the world, the two
    counters and the results in processing order. *)
Fixpoint process_all (rules : list (str * str)) (dry_run : bool)
    (files : list Path) (w : World) (modified_files total_changes : nat)
    (results : list Result) : outcome (World * nat * nat * list Result) :=
  match files with
  | [] => Ok (w, modified_files, total_changes, results)
  | file_path :: files' =>
      bind (process_file rules w file_path dry_run)
        (λ '(result, w'),
          match changes result with
          | [] => process_all rules dry_run files' w'
                    modified_files total_changes (results ++ [result])
          | _ => process_all rules dry_run files' w'
                    (modified_files + 1)
                    (total_changes + length (changes result))
                    (results ++ [result])
          end)
  end.

(** [main]: the summary that is printed, the per-file results and the
    world that is left. *)
Definition main (rules : list (str * str)) (listing : list dirent)
    (w : World) (dry_run : bool) : outcome (Summary * list Result * World) :=
  let files := find_files SEARCH_DIR listing FILE_EXTENSIONS in
  bind (process_all rules dry_run files w 0 0 [])
    (λ '(w', modified_files, total_changes, results),
      Ok ({| files_scanned := length files;
             modified_files := modified_files;
             total_changes := total_changes |}, results, w')).

End Script.

End CssVariableMigration.

(** ** apps/backend/fix_orphaned.py *)
Module FixOrphaned.

(** ['handleErrorEnhanced(' in line and line.strip().endswith(')')] *)
Definition is_call (line : str) : bool :=
  Str.contains (py "handleErrorEnhanced(") line
  && Str.endswith (Str.strip line) (py ")").

(** The test on [next_line = lines[i].strip()] for an orphaned property. *)
Definition is_orphan (next_line : str) : bool :=
  negb (bool_decide (next_line = []))
  && Str.contains (py ":") next_line
  && (Str.endswith next_line (py ",") || Str.endswith next_line (py "}")
      || Str.endswith next_line (py "})"))
  && negb (Str.startswith next_line (py "//"))
  && negb (Str.startswith next_line (py "*")).

Definition keep (line : str) (r : list str * nat) : list str * nat :=
  (line :: r.1, r.2).

Definition skipped (r : list str * nat) : list str * nat := (r.1, S r.2).

(** The two nested [while] loops over [lines[i:]]: what is appended to
    [new_lines] and what is added to [changes] from index [i] on.
    [inner] is the loop after a call line.  Its [else] branch appends
    [lines[i]] and leaves the loop without advancing [i], so the outer
    loop resumes at the same line. *)
Fixpoint outer (lines : list str) : list str * nat :=
  match lines with
  | [] => ([], 0)
  | line :: rest =>
      if is_call line then
        keep line
          ((fix inner (from_i : list str) : list str * nat :=
              match from_i with
              | [] => ([], 0)
              | line_i :: after =>
                  let next_line := Str.strip line_i in
                  if is_orphan next_line then
                    skipped (if Str.endswith next_line (py "})")
                             then outer after
                             else inner after)
                  else keep line_i (outer from_i)
              end) rest)
      else keep line (outer rest)
  end.

(** [fix_orphaned_syntax]: the count returned and the world left. *)
Definition fix_orphaned_syntax (w : World) (file_path : Path) : nat * World :=
  match Fs.read_text w file_path with
  | Ok content =>
      let '(new_lines, changes) := outer (Str.split_nl content) in
      let new_content := Str.join_nl new_lines in
      if decide (new_content ≠ content) then
        match Fs.write_text w file_path new_content with
        | Ok w' => (changes, w')
        | _ => (0, w)
        end
      else (0, w)
  | _ => (0, w)
  end.

(** [os.walk(top)]: the triple of a directory, then those of its
    sub-directories in listing order. *)
Definition dirnames (listing : list dirent) : list str :=
  map Fs.name_of (filter (λ d, Fs.is_dir d = true) listing).
Definition filenames (listing : list dirent) : list str :=
  map Fs.name_of (filter (λ d, Fs.is_dir d = false) listing).

Fixpoint walk_below (root : Path) (d : dirent)
    : list (Path * list str * list str) :=
  match d with
  | FileEnt _ => []
  | DirEnt n sub =>
      (root ++ [n], dirnames sub, filenames sub)
      :: flat_map (walk_below (root ++ [n])) sub
  end.

Definition walk (top : Path) (listing : list dirent)
    : list (Path * list str * list str) :=
  (top, dirnames listing, filenames listing)
  :: flat_map (walk_below top) listing.

(** The values [file_path] takes in [main], in order. *)
Definition visited (top : Path) (listing : list dirent) : list Path :=
  flat_map (λ '(root, _, files),
              map (λ f, root ++ [f])
                  (filter (λ f, Str.endswith f (py ".ts") = true) files))
           (walk top listing).

Record Totals := { total_files : nat; files_changed : nat; total_changes : nat }.

Fixpoint process (files : list Path) (w : World) (t : Totals) : Totals * World :=
  match files with
  | [] => (t, w)
  | file_path :: files' =>
      let '(changes, w') := fix_orphaned_syntax w file_path in
      process files' w'
        {| total_files := total_files t + 1;
           files_changed := files_changed t + (if decide (0 < changes) then 1 else 0);
           total_changes := total_changes t + (if decide (0 < changes) then changes else 0) |}
  end.

(** [main]; [listing] is [None] when the directory [src] does not exist
    and the script exits with status 1.  [system] is what
    [os.system(command)] does to the world: the script calls it for the
    TypeScript check when a file has been counted as changed. *)
Definition main (system : str → World → World)
    (listing : option (list dirent)) (w : World) : option (Totals * World) :=
  match listing with
  | None => None
  | Some l =>
      let '(t, w') :=
        process (visited [py "src"] l) w
          {| total_files := 0; files_changed := 0; total_changes := 0 |} in
      Some (t, if decide (0 < files_changed t)
               then system (py "npx tsc --noEmit") w' else w')
  end.

End FixOrphaned.

(** ** apps/frontend/fix-all-duplicates.py and fix-duplicates.py *)

Definition LOGGER_IMPORT : str := py "import { logger } from '@/lib/logger'".

(** The loop both scripts run over [content.split('\n')]: the lines
    appended to [new_lines], given the flag [logger_import_seen]. *)
Fixpoint dedupe (lines : list str) (logger_import_seen : bool) : list str :=
  match lines with
  | [] => []
  | line :: rest =>
      if Str.contains LOGGER_IMPORT line && logger_import_seen then
        dedupe rest logger_import_seen
      else if Str.contains LOGGER_IMPORT line then
        line :: dedupe rest true
      else line :: dedupe rest logger_import_seen
  end.

Module FixAllDuplicates.

(** [fix_file]: [True] or [False], and the world left. *)
Definition fix_file (w : World) (filepath : Path) : bool * World :=
  match Fs.read_text w filepath with
  | Ok content =>
      let new_lines := dedupe (Str.split_nl content) false in
      match Fs.write_text w filepath (Str.join_nl new_lines) with
      | Ok w' => (true, w')
      | _ => (false, w)
      end
  | _ => (false, w)
  end.

End FixAllDuplicates.

Module FixDuplicates.

(** [fix_file] without the handler: an exception leaves the function. *)
Definition fix_file (w : World) (filepath : Path) : outcome World :=
  bind (Fs.read_text w filepath) (λ content,
    let new_lines := dedupe (Str.split_nl content) false in
    Fs.write_text w filepath (Str.join_nl new_lines)).

End FixDuplicates.

(** ** Auxiliary notions used in the statements *)

(** [s.count(p)] for a non-empty [p]: the non-overlapping occurrences. *)
Definition occurrences (p s : str) : nat := length (Re.scan p 0 0 s).

(** Two texts are comparable when one starts with the other. *)
Definition comparable (a b : str) : bool :=
  Str.startswith a b || Str.startswith b a.

(** No non-empty suffix of [p] is comparable with [r]. *)
Fixpoint tails_apart (p r : str) : bool :=
  match p with
  | [] => true
  | _ :: p' => negb (comparable p r) && tails_apart p' r
  end.

(** A pattern text [p] and a replacement text [r] cannot overlap inside a
    text: substituting [r] never completes an occurrence of [p]. *)
Definition independent (p r : str) : bool :=
  tails_apart p r && tails_apart r p.

(** The literal a rule stands for, when its pattern is a non-empty escaped
    literal and its replacement has no backslash. *)
Definition literal_rule (rule : str * str) : option (str * str) :=
  match Re.compile rule.1 with
  | Re.Literal (c :: lit) =>
      if bool_decide (Re.backslash ∈ rule.2) then None
      else Some (c :: lit, rule.2)
  | _ => None
  end.

Definition literals (rules : list (str * str)) : option (list (str * str)) :=
  mapM literal_rule rules.

(** Every pattern is independent of every replacement. *)
Definition separated (lits : list (str * str)) : bool :=
  forallb (λ p, forallb (λ r, independent p.1 r.2) lits) lits.

(** The text and the records a list of literal rules produces. *)
Fixpoint rewrite (lits : list (str * str)) (content : str) : str :=
  match lits with
  | [] => content
  | (q, r) :: rest => rewrite rest (Re.subst q r 0 content)
  end.

Fixpoint records (lits : list (str * str)) (content : str)
    : list CssVariableMigration.Change :=
  match lits with
  | [] => []
  | (q, r) :: rest =>
      map (CssVariableMigration.record content r) (Re.scan q 0 0 content)
      ++ records rest (Re.subst q r 0 content)
  end.

(** The literals the rule table of css-variable-migration stands for. *)
Definition REPLACEMENT_LITERALS : list (str * str) :=
  Eval vm_compute in default [] (literals CssVariableMigration.REPLACEMENTS).

(** A directory lists each name once, at every level of the tree. *)
Fixpoint names_distinct (d : dirent) : bool :=
  match d with
  | FileEnt _ => true
  | DirEnt _ sub =>
      bool_decide (NoDup (map Fs.name_of sub)) && forallb names_distinct sub
  end.

Definition listing_distinct (listing : list dirent) : bool :=
  bool_decide (NoDup (map Fs.name_of listing)) && forallb names_distinct listing.

(** The two counters of [main] as functions of the results. *)
Definition has_changes (r : CssVariableMigration.Result) : bool :=
  match CssVariableMigration.changes r with
  | [] => false
  | _ => true
  end.

Definition with_changes (results : list CssVariableMigration.Result) : nat :=
  length (filter (λ r, has_changes r = true) results).

Definition all_changes (results : list CssVariableMigration.Result) : nat :=
  sum_list (map (λ r, length (CssVariableMigration.changes r)) results).

(** A result after which the world is as before. *)
Definition leaves_world (dry_run : bool) (r : CssVariableMigration.Result)
    : Prop :=
  dry_run = true ∨ CssVariableMigration.modified r = false
  ∨ CssVariableMigration.error r ≠ None.

(** The change records as the specification words them: for every rule,
    in the order of the table, one record for each match of its pattern
    in the content as it was read from disk, with the line of the match
    counted in that content.  It is compared with the records that
    [apply_rules] appends. *)
Definition records_in_original (rules : list (str * str))
    (original_content : str) : list CssVariableMigration.Change :=
  flat_map (λ '(pattern, replacement),
              match Re.finditer pattern original_content with
              | Ok matches =>
                  map (CssVariableMigration.record original_content replacement)
                      matches
              | _ => []
              end) rules.

(** No occurrence of a pattern can overlap an occurrence of a pattern
    that comes later in the table. *)
Fixpoint apart (lits : list (str * str)) : bool :=
  match lits with
  | [] => true
  | (q, _) :: rest => forallb (λ l, independent q l.1) rest && apart rest
  end.

(** The loop of [main] over the files, file by file: each result is the
    one [process_file] returns in the world the files before it have
    left. *)
Inductive processed (project_root : Path) (rules : list (str * str))
    (dry_run : bool)
    : World → list Path → list CssVariableMigration.Result → World → Prop :=
| processed_nil w : processed project_root rules dry_run w [] [] w
| processed_cons w f r w1 files rs w' :
    CssVariableMigration.process_file project_root rules w f dry_run
    = Ok (r, w1) →
    processed project_root rules dry_run w1 files rs w' →
    processed project_root rules dry_run w (f :: files) (r :: rs) w'.

(** ** Concrete inputs *)
Module Examples.

Definition text_of (lines : list string) : str := Str.join_nl (map py lines).

Definition plain (s : str) : node :=
  File {| data := Some s; readable := true; writable := true |}.

Definition read_only (s : str) : node :=
  File {| data := Some s; readable := true; writable := false |}.

Definition world (files : list (Path * node)) : World :=
  {| store := list_to_map files; written := [] |}.

Definition repo : Path := [py "/"; py "repo"].

Definition src_file (name : string) : Path :=
  CssVariableMigration.SEARCH_DIR repo ++ [py name].

(** Two uses of [var(--border)], on lines 1 and 2. *)
Definition two_borders : str :=
  text_of ["a { border-color: var(--border); }";
           "a { border-color: var(--border); }"].

Definition two_borders_rewritten : str :=
  text_of ["a { border-color: var(--color-border); }";
           "a { border-color: var(--color-border); }"].

Definition border_record (n : nat) : CssVariableMigration.Change :=
  {| CssVariableMigration.line := n;
     CssVariableMigration.old := py "var(--border)";
     CssVariableMigration.new := py "var(--color-border)" |}.

Definition css_file : Path := src_file "x.css".

Definition css_world : World := world [(css_file, plain two_borders)].

Definition css_result : CssVariableMigration.Result :=
  {| CssVariableMigration.file :=
       [py "apps"; py "frontend"; py "src"; py "x.css"];
     CssVariableMigration.changes := [border_record 1; border_record 2];
     CssVariableMigration.modified := true;
     CssVariableMigration.error := None |}.

Definition css_world_rewritten : World :=
  {| store := list_to_map [(css_file, plain two_borders_rewritten)];
     written := [css_file] |}.

(** The same file, which the process may read but not write. *)
Definition css_world_read_only : World :=
  world [(css_file, read_only two_borders)].

Definition css_result_write_failed : CssVariableMigration.Result :=
  {| CssVariableMigration.file :=
       [py "apps"; py "frontend"; py "src"; py "x.css"];
     CssVariableMigration.changes := [border_record 1; border_record 2];
     CssVariableMigration.modified := true;
     CssVariableMigration.error := Some PermissionError |}.

Definition css_result_bad_pattern : CssVariableMigration.Result :=
  {| CssVariableMigration.file :=
       [py "apps"; py "frontend"; py "src"; py "x.css"];
     CssVariableMigration.changes := [];
     CssVariableMigration.modified := false;
     CssVariableMigration.error :=
       Some (re_error "unbalanced parenthesis") |}.

Definition css_listing : list dirent := [FileEnt (py "x.css")].

(** A name that is listed but that cannot be opened. *)
Definition missing_file : Path := src_file "gone.ts".

Definition missing_result : CssVariableMigration.Result :=
  {| CssVariableMigration.file :=
       [py "apps"; py "frontend"; py "src"; py "gone.ts"];
     CssVariableMigration.changes := [];
     CssVariableMigration.modified := false;
     CssVariableMigration.error := Some FileNotFoundError |}.

Definition two_files_listing : list dirent :=
  [FileEnt (py "x.css"); FileEnt (py "gone.ts")].

(** A rule table in which a closing parenthesis lacks its backslash. *)
Definition malformed_rules : list (str * str) :=
  [(py "var\(--muted\)", py "var(--color-muted)");
   (py "var\(--border)", py "var(--color-border)")].

(** A file without any logger import. *)
Definition frontend_file : Path := [py "src"; py "page.tsx"].

Definition frontend_world : World :=
  world [(frontend_file, plain (py "export const x = 1"))].

(** A directory that lists [b.ts] before [a.ts]. *)
Definition unsorted_listing : list dirent :=
  [FileEnt (py "b.ts"); FileEnt (py "a.ts")].

(** A call line, a property that closes the block, one more property. *)
Definition orphan_text : str :=
  text_of ["handleErrorEnhanced(e)"; "a: 1})"; "b: 2,"].

Definition backend_file : Path := [py "src"; py "a.ts"].

Definition orphan_world : World := world [(backend_file, plain orphan_text)].

(** A call line followed by a line that is kept. *)
Definition call_then_line : str := text_of ["handleErrorEnhanced(e)"; "foo"].

Definition call_world : World := world [(backend_file, plain call_then_line)].

End Examples.


(** ** The report printed by css-variable-migration's [main] *)
Module CssReport.
Import CssVariableMigration.

(** [f"{change['old']} -> {change['new']}"] *)
Definition change_key (c : Change) : str := old c ++ py " -> " ++ new c.

(** [d[key] = d.get(key, 0) + 1], the dict being kept in insertion
    order. *)
Fixpoint bump (key : str) (d : list (str * nat)) : list (str * nat) :=
  match d with
  | [] => [(key, 0 + 1)]
  | (k, n) :: d' =>
      if decide (k = key) then (k, n + 1) :: d' else (k, n) :: bump key d'
  end.

(** [d.get(key, 0)] *)
Fixpoint get (key : str) (d : list (str * nat)) : nat :=
  match d with
  | [] => 0
  | (k, n) :: d' => if decide (k = key) then n else get key d'
  end.

(** The dict [change_summary] of the grouped output, filled in the order
    of the changes. *)
Definition change_summary (changes : list Change) : list (str * nat) :=
  foldl (λ d c, bump (change_key c) d) [] changes.

(** The sentence that closes the report. *)
Inductive closing :=
| RunWithoutDryRun
| AllChangesApplied
| NoChangesNeeded.

Definition closing_message (dry_run : bool) (total_changes : nat) : closing :=
  if dry_run && bool_decide (0 < total_changes) then RunWithoutDryRun
  else if bool_decide (0 < total_changes) then AllChangesApplied
  else NoChangesNeeded.

End CssReport.

(** What is at a path has the same kind and the same permissions. *)
Definition same_kind (a b : option node) : Prop :=
  match a, b with
  | None, None => True
  | Some Dir, Some Dir => True
  | Some (File f), Some (File g) =>
      readable f = readable g ∧ writable f = writable g
  | _, _ => False
  end.

(** ** More concrete inputs *)
Module MoreExamples.

(** A style sheet that uses no variable. *)
Definition plain_css : str := py "a { color: red; }".

Definition plain_css_world : World :=
  Examples.world [(Examples.css_file, Examples.plain plain_css)].

Definition plain_css_result : CssVariableMigration.Result :=
  {| CssVariableMigration.file :=
       [py "apps"; py "frontend"; py "src"; py "x.css"];
     CssVariableMigration.changes := [];
     CssVariableMigration.modified := false;
     CssVariableMigration.error := None |}.

End MoreExamples.

(** ** The inner loop of fix_orphaned, by name *)

(** The loop that [FixOrphaned.outer] runs after a call line. *)
Definition inner_loop : list str → list str * nat :=
  fix inner (from_i : list str) : list str * nat :=
    match from_i with
    | [] => ([], 0)
    | line_i :: after =>
        let next_line := Str.strip line_i in
        if FixOrphaned.is_orphan next_line then
          FixOrphaned.skipped (if Str.endswith next_line (py "})")
                               then FixOrphaned.outer after
                               else inner after)
        else FixOrphaned.keep line_i (FixOrphaned.outer from_i)
    end.

(** What both loops keep of the lines they run over: nothing but lines
    of the input, all lines that are no orphaned property, and a count
    that covers the lines missing. *)
Definition keeps_lines (lines : list str) (res : list str * nat) : Prop :=
  (∀ l, l ∈ res.1 → l ∈ lines)
  ∧ filter (λ l, FixOrphaned.is_orphan (Str.strip l) = false) lines
    `sublist_of` res.1
  ∧ length lines ≤ length res.1 + res.2
  ∧ res.2 ≤ length lines.

(** ** Entries of a directory tree *)

(** [at_path listing rel d]: following the names [rel] from a directory
    with the given listing leads to the entry [d]. *)
Inductive at_path : list dirent → Path → dirent → Prop :=
| at_here listing d :
    d ∈ listing → at_path listing [Fs.name_of d] d
| at_below listing n sub rel d :
    DirEnt n sub ∈ listing → at_path sub rel d → at_path listing (n :: rel) d.

Module MoreExamples2.

(** The files [main] of fix_orphaned visits in a small tree. *)
Definition backend_listing : list dirent :=
  [FileEnt (py "a.ts"); DirEnt (py "x.ts") [FileEnt (py "b.ts")];
   FileEnt (py "c.tsx")].

Definition backend_totals : FixOrphaned.Totals :=
  {| FixOrphaned.total_files := 2;
     FixOrphaned.files_changed := 1;
     FixOrphaned.total_changes := 1 |}.

(** [Examples.orphan_world] after the run: the property that closed the
    block is gone. *)
Definition orphan_world_fixed : World :=
  {| store :=
       list_to_map
         [(Examples.backend_file,
           Examples.plain
             (Examples.text_of ["handleErrorEnhanced(e)"; "b: 2,"]))];
     written := [Examples.backend_file] |}.

End MoreExamples2.

(** ** The scripts around [fix_file] *)

(** [os.path.exists(path)] *)
Definition path_exists (w : World) (path : Path) : bool :=
  bool_decide (is_Some (store w !! path)).

(** The text [fix_file] writes for the text it read. *)
Definition deduped (content : str) : str :=
  Str.join_nl (dedupe (Str.split_nl content) false).

(** A path at which there is a file that [fix_file] can read and
    write. *)
Definition fixable (w : World) (path : Path) : bool :=
  match store w !! path with
  | Some (File f) => readable f && writable f && bool_decide (is_Some (data f))
  | _ => false
  end.

(** [glob.glob(dir + '/**/*' + ext, recursive=True)]: [**] stands for
    the directory itself and for the directories below it whose names,
    all the way down, do not start with a dot, a directory before the
    directories it holds; in each of them [*ext] matches the names,
    of files and directories alike, that end with [ext] and do not start
    with a dot. *)
Module Glob.

(** [_ishidden] *)
Definition ishidden (name : str) : bool := Str.startswith name (py ".").

(** [_glob1(dirname, '*' + ext)], joined to [dirname] *)
Definition glob1 (dirname : Path) (listing : list dirent) (ext : str)
    : list Path :=
  map (λ d, dirname ++ [Fs.name_of d])
      (filter (λ d, ishidden (Fs.name_of d) = false
                    ∧ Str.endswith (Fs.name_of d) ext = true) listing).

Fixpoint glob_below (dirname : Path) (ext : str) (d : dirent) : list Path :=
  match d with
  | FileEnt _ => []
  | DirEnt n sub =>
      if ishidden n then []
      else glob1 (dirname ++ [n]) sub ext
           ++ flat_map (glob_below (dirname ++ [n]) ext) sub
  end.

Definition glob (dirname : Path) (listing : list dirent) (ext : str)
    : list Path :=
  glob1 dirname listing ext ++ flat_map (glob_below dirname ext) listing.

End Glob.

(** The script of fix-all-duplicates.py, below the definition of
    [fix_file]. *)
Module FixAllDuplicatesScript.

Definition files_to_fix (listing : list dirent) : list Path :=
  flat_map (Glob.glob [py "src"] listing) [py ".ts"; py ".tsx"].

(** The loop over [files_to_fix]: [fixed_count] and the world left. *)
Fixpoint loop (files : list Path) (w : World) (fixed_count : nat)
    : nat * World :=
  match files with
  | [] => (fixed_count, w)
  | file :: rest =>
      if path_exists w file then
        let '(fixed, w') := FixAllDuplicates.fix_file w file in
        loop rest w' (if fixed then fixed_count + 1 else fixed_count)
      else loop rest w fixed_count
  end.

Definition script (listing : list dirent) (w : World) : nat * World :=
  loop (files_to_fix listing) w 0.

End FixAllDuplicatesScript.

(** The script of fix-duplicates.py, below the definition of
    [fix_file]. *)
Module FixDuplicatesScript.

Definition failing_files : list Path :=
  [ [py "src"; py "app"; py "contact"; py "page.tsx"];
    [py "src"; py "components"; py "auth"; py "client-auth-guard.tsx"];
    [py "src"; py "components"; py "auth"; py "supabase-auth-processor.tsx"];
    [py "src"; py "components"; py "landing"; py "footer-section.tsx"];
    [py "src"; py "hooks"; py "api"; py "use-dashboard.ts"] ].

(** The loop over the files: an exception that [fix_file] raises ends
    the script. *)
Fixpoint loop (files : list Path) (w : World) : outcome World :=
  match files with
  | [] => Ok w
  | file :: rest =>
      if path_exists w file then bind (FixDuplicates.fix_file w file) (loop rest)
      else loop rest w
  end.

Definition script (w : World) : outcome World := loop failing_files w.

End FixDuplicatesScript.

Module MoreExamples3.

(** A file with the logger import on its lines 1 and 3. *)
Definition twice : str :=
  Examples.text_of ["import { logger } from '@/lib/logger'";
                    "const a = 1";
                    "import { logger } from '@/lib/logger'"].

Definition once : str :=
  Examples.text_of ["import { logger } from '@/lib/logger'"; "const a = 1"].

Definition page : Path := [py "src"; py "app"; py "contact"; py "page.tsx"].

Definition twice_world : World := Examples.world [(page, Examples.plain twice)].

Definition once_world : World :=
  {| store := list_to_map [(page, Examples.plain once)]; written := [page] |}.

(** The directory [src/app] at [src/app/contact/page.tsx] instead of a
    file. *)
Definition dir_world : World := Examples.world [(page, Dir)].

(** A tree with a hidden directory and a hidden file. *)
Definition hidden_listing : list dirent :=
  [FileEnt (py "a.ts"); FileEnt (py ".b.ts");
   DirEnt (py ".next") [FileEnt (py "c.ts")];
   DirEnt (py "app") [FileEnt (py "page.tsx")]].

(** The tree in which [page] is found. *)
Definition page_listing : list dirent :=
  [DirEnt (py "app") [DirEnt (py "contact") [FileEnt (py "page.tsx")]]].

End MoreExamples3.

(** ** scripts/cleanup-api-contracts.py *)
Module CleanupApiContracts.

(** Type mappings: old_type -> (new_type, new_import_source), in the
    order of the dict. *)
Definition TYPE_MAPPINGS : list (str * (str * str)) := [
  (* Lease types *)
  (py "CreateLeaseInput", (py "LeaseCreate", py "@repo/shared/validation/leases"));
  (py "UpdateLeaseInput", (py "LeaseUpdate", py "@repo/shared/validation/leases"));

  (* Property types *)
  (py "CreatePropertyInput", (py "PropertyCreate", py "@repo/shared/validation/properties"));
  (py "UpdatePropertyInput", (py "PropertyUpdate", py "@repo/shared/validation/properties"));
  (py "CreatePropertyRequest", (py "PropertyCreate", py "@repo/shared/validation/properties"));
  (py "UpdatePropertyRequest", (py "PropertyUpdate", py "@repo/shared/validation/properties"));

  (* Unit types *)
  (py "CreateUnitInput", (py "UnitInput", py "@repo/shared/validation/units"));
  (py "UpdateUnitInput", (py "UnitUpdate", py "@repo/shared/validation/units"));
  (py "CreateUnitRequest", (py "UnitInput", py "@repo/shared/validation/units"));
  (py "UpdateUnitRequest", (py "UnitUpdate", py "@repo/shared/validation/units"));

  (* Maintenance types *)
  (py "CreateMaintenanceRequestInput", (py "MaintenanceRequestCreate", py "@repo/shared/validation/maintenance"));
  (py "UpdateMaintenanceRequestInput", (py "MaintenanceRequestUpdate", py "@repo/shared/validation/maintenance"));
  (py "CreateMaintenanceRequest", (py "MaintenanceRequestCreate", py "@repo/shared/validation/maintenance"));
  (py "UpdateMaintenanceRequest", (py "MaintenanceRequestUpdate", py "@repo/shared/validation/maintenance"))
].

(** The dict [source_to_types], in insertion order:
    [if source not in d: d[source] = []] and
    [if new_type not in d[source]: d[source].append(new_type)]. *)
Fixpoint add_type (source new_type : str) (d : list (str * list str))
    : list (str * list str) :=
  match d with
  | [] => [(source, [new_type])]
  | (k, types) :: d' =>
      if decide (k = source)
      then (k, if decide (new_type ∈ types) then types
               else types ++ [new_type]) :: d'
      else (k, types) :: add_type source new_type d'
  end.

Definition source_to_types (mappings : list (str * (str * str)))
    : list (str * list str) :=
  foldl (λ d '(_, (new_type, source)), add_type source new_type d) [] mappings.

(** The two command lines the script builds. *)
Definition rg_command (type_name : str) : str :=
  py "rg -l '" ++ type_name ++ py "' apps/ packages/ --type ts 2>/dev/null || true".

Definition sd_command (old new file_path : str) : str :=
  py "sd '" ++ old ++ py "' '" ++ new ++ py "' '" ++ file_path ++ py "'".

(** [files_to_update[f].add(source)], after
    [if f not in files_to_update: files_to_update[f] = set()]. *)
Definition note (f source : str) (files_to_update : gmap str (gset str))
    : gmap str (gset str) :=
  <[f := default ∅ (files_to_update !! f) ∪ {[source]}]> files_to_update.

Section Shell.

(** The machine the script runs on: what
    [subprocess.run(cmd, shell=True, capture_output=True, text=True)]
    does to it and returns, as return code, stdout and stderr. *)
Variable Machine : Type.
Variable subprocess_run : Machine → str → outcome (Machine * (Z * str * str)).

(** The machine and the command lines run so far. *)
Record State := { machine : Machine; commands : list str }.

Definition run (s : State) (cmd : str) : outcome (State * (Z * str * str)) :=
  bind (subprocess_run (machine s) cmd)
    (λ '(m, result),
      Ok ({| machine := m; commands := commands s ++ [cmd] |}, result)).

Definition find_files_with_type (s : State) (type_name : str)
    : outcome (State * list str) :=
  bind (run s (rg_command type_name))
    (λ '(s', (code, stdout, _)),
      Ok (s', filter (λ f, f ≠ []
                           ∧ Str.endswith f (py "api-contracts.ts") = false)
                (Str.split_nl (Str.strip stdout)))).

Definition replace_in_file (s : State) (file_path old new : str)
    : outcome State :=
  bind (run s (sd_command old new file_path)) (λ '(s', _), Ok s').

(** The loop [for f in files] of [main]. *)
Fixpoint replace_all (files : list str) (old_type new_type source : str)
    (s : State) (files_to_update : gmap str (gset str))
    : outcome (State * gmap str (gset str)) :=
  match files with
  | [] => Ok (s, files_to_update)
  | f :: rest =>
      if Str.contains (py "api-contracts.ts") f then
        replace_all rest old_type new_type source s files_to_update
      else
        bind (replace_in_file s f old_type new_type)
          (λ s', replace_all rest old_type new_type source s'
                   (note f source files_to_update))
  end.

(** Step 1 of [main]: the loop over [TYPE_MAPPINGS.items()]. *)
Fixpoint replace_types (mappings : list (str * (str * str))) (s : State)
    (files_to_update : gmap str (gset str))
    : outcome (State * gmap str (gset str)) :=
  match mappings with
  | [] => Ok (s, files_to_update)
  | (old_type, (new_type, source)) :: rest =>
      bind (find_files_with_type s old_type)
        (λ '(s', files),
          bind (replace_all files old_type new_type source s' files_to_update)
            (λ '(s'', files_to_update'),
              replace_types rest s'' files_to_update'))
  end.

(** [main]: the machine and the commands run, [files_to_update] and
    [source_to_types]. *)
Definition main (s : State)
    : outcome (State * gmap str (gset str) * list (str * list str)) :=
  bind (replace_types TYPE_MAPPINGS s ∅)
    (λ '(s', files_to_update),
      Ok (s', files_to_update, source_to_types TYPE_MAPPINGS)).

End Shell.

Arguments machine {Machine} s.
Arguments commands {Machine} s.
Arguments run {Machine} subprocess_run s cmd.
Arguments find_files_with_type {Machine} subprocess_run s type_name.
Arguments replace_in_file {Machine} subprocess_run s file_path old new.
Arguments replace_all {Machine} subprocess_run files old_type new_type source
  s files_to_update.
Arguments replace_types {Machine} subprocess_run mappings s files_to_update.
Arguments main {Machine} subprocess_run s.

(** The commands of one pass of step 1: the search for the old type,
    then one replacement for each file that is not skipped. *)
Definition pass_commands (m : str * (str * str)) (files : list str)
    : list str :=
  rg_command m.1 :: map (sd_command m.1 m.2.1) files.

(** [source in files_to_update[f]], for a file that is a key. *)
Definition noted_source (files_to_update : gmap str (gset str))
    (f source : str) : Prop :=
  ∃ sources, files_to_update !! f = Some sources ∧ source ∈ sources.

End CleanupApiContracts.

Module MoreExamples4.
Import CleanupApiContracts.

(** A machine on which [rg] finds the first old type in two files, one
    of them api-contracts.ts, and nothing else. *)
Definition found : str :=
  py "apps/a.ts" ++ [NL] ++ py "packages/shared/src/api-contracts.ts" ++ [NL].

Definition quiet (m : unit) (cmd : str) : outcome (unit * (Z * str * str)) :=
  Ok (tt, (0%Z,
           if Str.startswith cmd (py "rg -l 'CreateLeaseInput'") then found
           else [],
           [])).

Definition start : State unit := {| machine := tt; commands := [] |}.

Definition finish : State unit :=
  {| machine := tt;
     commands :=
       rg_command (py "CreateLeaseInput")
       :: sd_command (py "CreateLeaseInput") (py "LeaseCreate") (py "apps/a.ts")
       :: map rg_command (tail (map fst TYPE_MAPPINGS)) |}.

Definition noted : gmap str (gset str) :=
  {[ py "apps/a.ts" := {[ py "@repo/shared/validation/leases" ]} ]}.

End MoreExamples4.
(** * Properties *)

(** ** Texts *)
Section TextLemmas.
Implicit Types s p q r t : str.

Lemma startswith_nil s : Str.startswith s [] = true.
Proof. by destruct s. Qed.

Lemma startswith_cons c s a p :
  Str.startswith (c :: s) (a :: p) = true ↔ a = c ∧ Str.startswith s p = true.
Proof.
  simpl. destruct (decide (a = c)) as [->|Hne].
  - split; [done|by intros [_ H]].
  - split; [done|by intros [H _]].
Qed.

Lemma startswith_prefix s p : Str.startswith s p = true ↔ p `prefix_of` s.
Proof.
  revert s. induction p as [|a p IH]; intros s.
  - rewrite startswith_nil. split; [intros _; apply prefix_nil|done].
  - destruct s as [|c s].
    + split; [done|]. intros H. by apply prefix_nil_not in H.
    + rewrite startswith_cons, IH. split.
      * intros [-> H]. by apply prefix_cons.
      * intros H. split; [by apply prefix_cons_inv_1 in H|by apply prefix_cons_inv_2 in H].
Qed.

Lemma startswith_app s t : Str.startswith (s ++ t) s = true.
Proof. apply startswith_prefix. by apply prefix_app_r. Qed.

Lemma startswith_drop s p :
  Str.startswith s p = true → s = p ++ drop (length p) s.
Proof.
  intros [t ->]%startswith_prefix. by rewrite drop_app_length.
Qed.

(** A text that starts [r ++ x] and also starts with [p]: [p] and [r] are
    comparable. *)
Lemma startswith_app_comparable r x p :
  Str.startswith (r ++ x) p = true → comparable p r = true.
Proof.
  revert p. induction r as [|c r IH]; intros p H.
  - unfold comparable. by rewrite startswith_nil.
  - destruct p as [|a p]; [done|].
    apply startswith_cons in H as [-> H]. apply IH in H.
    unfold comparable in *. simpl. by rewrite !decide_True.
Qed.

Lemma comparable_sym a b : comparable a b = comparable b a.
Proof. unfold comparable. apply orb_comm. Qed.

Lemma contains_nil_l s : Str.contains [] s = true.
Proof. destruct s; simpl; by rewrite ?startswith_nil. Qed.

Lemma contains_cons p c s :
  Str.contains p (c :: s) = Str.startswith (c :: s) p || Str.contains p s.
Proof. done. Qed.

Lemma contains_nil_r p : Str.contains p [] = Str.startswith [] p.
Proof. unfold Str.contains. apply orb_false_r. Qed.

Lemma contains_drop p k s :
  Str.contains p (drop k s) = true → Str.contains p s = true.
Proof.
  revert k. induction s as [|c s IH]; intros k H.
  - by rewrite drop_nil in H.
  - destruct k as [|k]; [done|].
    rewrite contains_cons. apply orb_true_iff. right. by apply (IH k).
Qed.

Lemma contains_occurrence p s :
  Str.contains p s = true ↔ ∃ a b, s = a ++ p ++ b.
Proof.
  split.
  - induction s as [|c s IH].
    + rewrite contains_nil_r. intros [t Ht]%startswith_prefix.
      exists [], t. done.
    + rewrite contains_cons. intros [H|H]%orb_true_iff.
      * apply startswith_prefix in H as [t Ht]. exists [], t. done.
      * destruct (IH H) as (a & b & ->). by exists (c :: a), b.
  - intros (a & b & ->). induction a as [|c a IH].
    + simpl app. destruct (p ++ b) as [|c t] eqn:E.
      * rewrite contains_nil_r. by apply app_eq_nil in E as [-> _].
      * rewrite contains_cons, <- E, startswith_app. done.
    + simpl app. rewrite contains_cons, IH. apply orb_true_r.
Qed.

(** When no non-empty suffix of [a] is comparable with [p], an
    occurrence of [p] in [a ++ b] lies in [b]. *)
Lemma contains_app_apart p a b :
  tails_apart a p = true →
  Str.contains p (a ++ b) = true → Str.contains p b = true.
Proof.
  induction a as [|c a IH]; [done|].
  simpl tails_apart. intros [Hc Ha]%andb_true_iff.
  simpl app. rewrite contains_cons. intros [H|H]%orb_true_iff.
  - change (c :: a ++ b) with ((c :: a) ++ b) in H.
    apply startswith_app_comparable in H.
    rewrite comparable_sym in H. by rewrite H in Hc.
  - by apply IH.
Qed.

Lemma count_nl_app s t : Str.count_nl (s ++ t) = Str.count_nl s + Str.count_nl t.
Proof. induction s as [|c s IH]; simpl; [done|]. rewrite IH. lia. Qed.

End TextLemmas.

(** ** Literal search and substitution *)
Section LiteralLemmas.
Implicit Types s p q r : str.

Lemma subst_nil q r k : q ≠ [] → Re.subst q r k [] = [].
Proof. by destruct q. Qed.

Lemma subst_skip q r k c s :
  Re.subst q r (S k) (c :: s) = Re.subst q r k s.
Proof. done. Qed.

Lemma subst_match q r c s :
  q ≠ [] → Str.startswith (c :: s) q = true →
  Re.subst q r 0 (c :: s) = r ++ Re.subst q r (length q - 1) s.
Proof. intros Hq H. cbn [Re.subst]. rewrite H. by destruct q. Qed.

Lemma subst_nomatch q r c s :
  Str.startswith (c :: s) q = false →
  Re.subst q r 0 (c :: s) = c :: Re.subst q r 0 s.
Proof. intros H. cbn [Re.subst]. by rewrite H. Qed.

Lemma scan_nil q k pos : q ≠ [] → Re.scan q k pos [] = [].
Proof. by destruct q. Qed.

Lemma scan_nomatch q pos c s :
  Str.startswith (c :: s) q = false →
  Re.scan q 0 pos (c :: s) = Re.scan q 0 (S pos) s.
Proof. intros H. cbn [Re.scan]. by rewrite H. Qed.

(** Without an occurrence there is no match and nothing is replaced. *)
Lemma scan_absent q pos s :
  q ≠ [] → Str.contains q s = false → Re.scan q 0 pos s = [].
Proof.
  intros Hq. revert pos. induction s as [|c s IH]; intros pos H.
  - by apply scan_nil.
  - rewrite contains_cons in H. apply orb_false_iff in H as [H1 H2].
    rewrite scan_nomatch by done. by apply IH.
Qed.

Lemma subst_absent q r s :
  q ≠ [] → Str.contains q s = false → Re.subst q r 0 s = s.
Proof.
  intros Hq. induction s as [|c s IH]; intros H.
  - by apply subst_nil.
  - rewrite contains_cons in H. apply orb_false_iff in H as [H1 H2].
    rewrite subst_nomatch by done. by rewrite IH.
Qed.

(** When the search finds nothing, the substitution changes nothing. *)
Lemma scan_empty_subst q r pos s :
  q ≠ [] → Re.scan q 0 pos s = [] → Re.subst q r 0 s = s.
Proof.
  intros Hq. revert pos. induction s as [|c s IH]; intros pos H.
  - by apply subst_nil.
  - cbn [Re.scan] in H. destruct (Str.startswith (c :: s) q) eqn:E; [done|].
    rewrite subst_nomatch by done. f_equal. by apply (IH (S pos)).
Qed.

(** A prefix of the substituted text that shares nothing with the
    replacement was a prefix before. *)
Lemma startswith_subst p q r s :
  q ≠ [] → tails_apart p r = true →
  Str.startswith (Re.subst q r 0 s) p = true → Str.startswith s p = true.
Proof.
  intros Hq. revert p. induction s as [|c s IH]; intros p Hp H.
  - by rewrite subst_nil in H.
  - destruct p as [|a p]; [done|].
    simpl in Hp. apply andb_true_iff in Hp as [Hc Hp].
    destruct (Str.startswith (c :: s) q) eqn:E.
    + rewrite subst_match in H by done.
      apply startswith_app_comparable in H. by rewrite H in Hc.
    + rewrite subst_nomatch in H by done.
      apply startswith_cons in H as [-> H].
      apply startswith_cons. split; [done|]. by apply IH.
Qed.

(** Substituting [r] for [q] creates no occurrence of a pattern [p]
    independent of [r], and leaves no occurrence of [q] itself. *)
Lemma contains_subst p q r k s :
  q ≠ [] → p ≠ [] → independent p r = true →
  Str.contains p (Re.subst q r k s) = true →
  Str.contains p (drop k s) = true ∧ p ≠ q.
Proof.
  intros Hq Hp [Hpr Hrp]%andb_true_iff.
  revert k. induction s as [|c s IH]; intros k H.
  - rewrite subst_nil in H by done. rewrite contains_nil_r in H.
    by destruct p.
  - destruct k as [|k]; [|by apply IH].
    destruct (Str.startswith (c :: s) q) eqn:E.
    + rewrite subst_match in H by done.
      apply contains_app_apart in H; [|done].
      apply IH in H as [H Hne]. split; [|done].
      rewrite drop_0, contains_cons. apply orb_true_iff. right.
      by apply (contains_drop _ (length q - 1)).
    + rewrite subst_nomatch in H by done.
      rewrite contains_cons in H. apply orb_true_iff in H as [H|H].
      * rewrite <- (subst_nomatch q r) in H by done.
        apply startswith_subst in H; [|done..].
        split; [|by intros ->; rewrite H in E].
        rewrite drop_0, contains_cons, H. done.
      * apply IH in H as [H Hne]. rewrite drop_0 in H. split; [|done].
        rewrite drop_0, contains_cons, H. apply orb_true_r.
Qed.

Corollary subst_removes q r s :
  q ≠ [] → independent q r = true →
  Str.contains q (Re.subst q r 0 s) = false.
Proof.
  intros Hq Hi. destruct (Str.contains q (Re.subst q r 0 s)) eqn:E; [|done].
  by apply contains_subst in E as [_ E].
Qed.

Corollary subst_preserves_absent p q r s :
  q ≠ [] → p ≠ [] → independent p r = true →
  Str.contains p s = false → Str.contains p (Re.subst q r 0 s) = false.
Proof.
  intros Hq Hp Hi Hs.
  destruct (Str.contains p (Re.subst q r 0 s)) eqn:E; [|done].
  apply contains_subst in E as [E _]; [|done..].
  rewrite drop_0 in E. congruence.
Qed.

(** Substituting texts without line break keeps the line breaks. *)
Lemma count_nl_none s : NL ∉ s → Str.count_nl s = 0.
Proof.
  induction s as [|c s IH]; [done|]. intros [Hc Hs]%not_elem_of_cons.
  simpl. rewrite decide_False by done. by apply IH.
Qed.

Lemma subst_count_nl q r k s :
  q ≠ [] → NL ∉ q → NL ∉ r →
  Str.count_nl (Re.subst q r k s) = Str.count_nl (drop k s).
Proof.
  intros Hq Hnq Hnr. revert k. induction s as [|c s IH]; intros k.
  - rewrite subst_nil by done. by rewrite drop_nil.
  - destruct k as [|k]; [|apply IH].
    destruct (Str.startswith (c :: s) q) eqn:E.
    + rewrite subst_match by done.
      rewrite count_nl_app, (count_nl_none r Hnr), IH, drop_0.
      apply startswith_drop in E.
      assert (drop (length q) (c :: s) = drop (length q - 1) s) as Hd.
      { destruct q as [|a q]; [done|]. simpl. by rewrite Nat.sub_0_r. }
      rewrite Hd in E. by rewrite E, count_nl_app, (count_nl_none q Hnq).
    + rewrite subst_nomatch by done. simpl. by rewrite IH.
Qed.

(** Every match of a literal is the literal. *)
Lemma scan_group q k pos s :
  q ≠ [] → Forall (λ m, Re.group m = q) (Re.scan q k pos s).
Proof.
  intros Hq. revert k pos. induction s as [|c s IH]; intros k pos.
  - rewrite scan_nil by done. constructor.
  - cbn [Re.scan]. destruct k as [|k]; [|apply IH].
    destruct (Str.startswith (c :: s) q); [|apply IH].
    constructor; [done|apply IH].
Qed.

End LiteralLemmas.

(** ** The rule loop on literal rules *)
Section RuleLemmas.
Import CssVariableMigration.
Implicit Types (rules lits : list (str * str)) (content : str).

Lemma literal_rule_Some rule q r :
  literal_rule rule = Some (q, r) →
  Re.compile rule.1 = Re.Literal q ∧ q ≠ [] ∧ r = rule.2 ∧ Re.backslash ∉ r.
Proof.
  unfold literal_rule. destruct (Re.compile rule.1) as [[|c lit]| |]; try done.
  case_bool_decide; [done|]. intros [= <- <-]. done.
Qed.

Lemma literals_nonempty rules lits :
  literals rules = Some lits → Forall (λ l, l.1 ≠ []) lits.
Proof.
  intros H%mapM_Some. induction H as [|rule [q r] ?? H _ IH]; constructor; [|done].
  by apply literal_rule_Some in H as (_ & ? & _).
Qed.

(** On literal rules the loop runs to its end: it returns [rewrite] and
    appends [records]. *)
Lemma apply_rules_literals rules lits content chs :
  literals rules = Some lits →
  apply_rules rules content chs
  = (Ok (rewrite lits content), chs ++ records lits content).
Proof.
  intros H%mapM_Some. revert content chs.
  induction H as [|[pattern replacement] [q r] rules lits H _ IH];
    intros content chs.
  - simpl. by rewrite app_nil_r.
  - apply literal_rule_Some in H as (Hc & Hq & Hr & Hb).
    simpl in Hc, Hr. subst r.
    cbn [apply_rules rewrite records].
    unfold Re.finditer, Re.sub, Re.with_pattern. rewrite Hc.
    rewrite bool_decide_eq_false_2 by done.
    destruct (Re.scan q 0 0 content) as [|m ms] eqn:E.
    + rewrite (scan_empty_subst q replacement 0 content Hq E). apply IH.
    + rewrite IH. by rewrite (assoc_L (++)).
Qed.

Lemma rewrite_preserves_absent p lits content :
  p ≠ [] →
  Forall (λ l, l.1 ≠ [] ∧ independent p l.2 = true) lits →
  Str.contains p content = false →
  Str.contains p (rewrite lits content) = false.
Proof.
  intros Hp H. revert content.
  induction H as [|[q r] lits [Hq Hi] _ IH]; intros content Hc; [done|].
  simpl. apply IH. by apply subst_preserves_absent.
Qed.

(** After one pass over separated rules no pattern occurs any more. *)
Lemma rewrite_removes lits content :
  Forall (λ l, l.1 ≠ []) lits →
  (∀ l l', l ∈ lits → l' ∈ lits → independent l.1 l'.2 = true) →
  Forall (λ l, Str.contains l.1 (rewrite lits content) = false) lits.
Proof.
  revert content. induction lits as [|[q r] lits IH]; intros content Hne Hsep;
    [constructor|].
  apply Forall_cons in Hne as [Hq Hne]. simpl in Hq.
  constructor.
  - simpl. apply rewrite_preserves_absent; [done| |].
    + apply Forall_forall. intros l Hl. split.
      * by apply (proj1 (Forall_forall _ _) Hne).
      * apply (Hsep (q, r) l); [left|by right].
    + apply subst_removes; [done|]. apply (Hsep (q, r) (q, r)); left.
  - simpl. apply IH; [done|]. intros l l' Hl Hl'. apply Hsep; by right.
Qed.

(** A text without any occurrence is left as it is, with no record. *)
Lemma rewrite_fixed lits content :
  Forall (λ l, l.1 ≠ []) lits →
  Forall (λ l, Str.contains l.1 content = false) lits →
  rewrite lits content = content ∧ records lits content = [].
Proof.
  induction lits as [|[q r] lits IH]; [done|].
  intros [Hq Hne]%Forall_cons [Hc Habs]%Forall_cons. simpl in *.
  rewrite subst_absent, scan_absent by done. simpl. by apply IH.
Qed.

Lemma separated_spec lits :
  separated lits = true →
  ∀ l l', l ∈ lits → l' ∈ lits → independent l.1 l'.2 = true.
Proof.
  unfold separated. intros H l l' Hl Hl'.
  rewrite forallb_forall in H. apply list_elem_of_In in Hl, Hl'.
  specialize (H l Hl). rewrite forallb_forall in H. by apply H.
Qed.

(** The output of a pass over separated rules is left as it is by the
    next pass. *)
Lemma rewrite_twice rules lits content :
  literals rules = Some lits → separated lits = true →
  rewrite lits (rewrite lits content) = rewrite lits content
  ∧ records lits (rewrite lits content) = [].
Proof.
  intros Hl Hs. pose proof (literals_nonempty _ _ Hl) as Hne.
  apply rewrite_fixed; [done|].
  apply rewrite_removes; [done|]. by apply separated_spec.
Qed.

(** One pass over separated literal rules reaches a fixed point. *)
Lemma apply_rules_fixed_point rules lits content :
  literals rules = Some lits → separated lits = true →
  apply_rules rules content []
  = (Ok (rewrite lits content), records lits content)
  ∧ apply_rules rules (rewrite lits content) []
    = (Ok (rewrite lits content), []).
Proof.
  intros Hl Hs. split; [by rewrite (apply_rules_literals _ lits)|].
  rewrite (apply_rules_literals _ lits) by done.
  pose proof (literals_nonempty _ _ Hl) as Hne.
  destruct (rewrite_fixed lits (rewrite lits content) Hne) as [-> ->]; [|done].
  apply rewrite_removes; [done|]. by apply separated_spec.
Qed.

Lemma rewrite_count_nl lits content :
  Forall (λ l, l.1 ≠ [] ∧ (NL ∉ l.1) ∧ (NL ∉ l.2)) lits →
  Str.count_nl (rewrite lits content) = Str.count_nl content.
Proof.
  intros H. revert content.
  induction H as [|[q r] lits (Hq & Hnq & Hnr) _ IH]; intros content; [done|].
  simpl. rewrite IH. by rewrite subst_count_nl.
Qed.

(** The first rule works on the original content: one record per match,
    and no occurrence of its pattern is left at the end. *)
Lemma first_rule_records rules q r lits content :
  literals rules = Some ((q, r) :: lits) →
  separated ((q, r) :: lits) = true →
  ∃ final later,
    apply_rules rules content []
    = (Ok final, map (record content r) (Re.scan q 0 0 content) ++ later)
    ∧ Str.contains q final = false
    ∧ Forall (λ c, old c = q ∧ new c = r)
             (map (record content r) (Re.scan q 0 0 content)).
Proof.
  intros Hl Hs. rewrite (apply_rules_literals _ _ _ _ Hl).
  pose proof (literals_nonempty _ _ Hl) as Hne.
  eexists _, _. split; [reflexivity|]. split.
  - pose proof (rewrite_removes _ content Hne (separated_spec _ Hs)) as H.
    by apply Forall_cons in H as [H _].
  - apply Forall_cons in Hne as [Hq _]. simpl in Hq.
    apply Forall_forall. intros c Hc.
    apply list_elem_of_In, in_map_iff in Hc as (m & <- & Hm).
    split; [|done]. simpl.
    apply (proj1 (Forall_forall _ _) (scan_group q 0 0 content Hq)).
    by apply list_elem_of_In.
Qed.

(** No pattern and no replacement of the table holds a line break. *)
Lemma records_nil_rewrite lits content :
  Forall (λ l, l.1 ≠ []) lits →
  records lits content = [] → rewrite lits content = content.
Proof.
  intros Hne. revert content.
  induction Hne as [|[q r] lits Hq _ IH]; intros content H; [done|].
  simpl in *. apply app_eq_nil in H as [Hm Hr].
  apply map_eq_nil in Hm.
  rewrite (scan_empty_subst q r 0 content Hq Hm) in Hr |- *. by apply IH.
Qed.

(** With separated rules, there is a record exactly when the text
    changes. *)
Lemma records_nil_iff rules lits content :
  literals rules = Some lits → separated lits = true →
  records lits content = [] ↔ rewrite lits content = content.
Proof.
  intros Hl Hs. pose proof (literals_nonempty _ _ Hl) as Hne. split.
  - by apply records_nil_rewrite.
  - intros H. apply rewrite_fixed; [done|]. rewrite <- H.
    apply rewrite_removes; [done|]. by apply separated_spec.
Qed.
Lemma REPLACEMENTS_one_line :
  Forall (λ l : str * str, l.1 ≠ [] ∧ (NL ∉ l.1) ∧ (NL ∉ l.2)) REPLACEMENT_LITERALS.
Proof.
  apply Forall_forall. intros l Hl.
  assert (forallb (λ l : str * str,
                     bool_decide (l.1 ≠ []) && bool_decide (NL ∉ l.1)
                     && bool_decide (NL ∉ l.2)) REPLACEMENT_LITERALS = true)
    as H by (vm_compute; reflexivity).
  rewrite forallb_forall in H. apply list_elem_of_In in Hl.
  apply H in Hl. apply andb_true_iff in Hl as [[H1 H2]%andb_true_iff H3].
  by apply bool_decide_eq_true in H1, H2, H3.
Qed.

(** The rule table of the script lies within the fragment. *)
Lemma literals_REPLACEMENTS : literals REPLACEMENTS = Some REPLACEMENT_LITERALS.
Proof. vm_compute. reflexivity. Qed.

Lemma separated_REPLACEMENTS : separated REPLACEMENT_LITERALS = true.
Proof. vm_compute. reflexivity. Qed.

End RuleLemmas.

(** ** The file store *)
Section StoreLemmas.
Implicit Types (w : World) (path : Path) (s : str).

Lemma read_after_write w w' path s s0 :
  Fs.read_text w path = Ok s0 →
  Fs.write_text w path s = Ok w' →
  Fs.read_text w' path = Ok s.
Proof.
  unfold Fs.read_text, Fs.write_text.
  destruct (store w !! path) as [[|f]|] eqn:E; try done.
  destruct (readable f) eqn:Hr; [|done]. intros _.
  destruct (writable f); [|done]. intros [= <-]. simpl.
  by rewrite lookup_insert_eq.
Qed.

Lemma write_text_store w w' path s :
  Fs.write_text w path s = Ok w' →
  written w' = written w ++ [path]
  ∧ ∀ other, other ≠ path → store w' !! other = store w !! other.
Proof.
  unfold Fs.write_text.
  destruct (store w !! path) as [[|f]|]; try done.
  - destruct (writable f); [|done]. intros [= <-]. split; [done|].
    intros other Hne. simpl. by rewrite lookup_insert_ne.
  - intros [= <-]. split; [done|].
    intros other Hne. simpl. by rewrite lookup_insert_ne.
Qed.

Lemma write_text_modelled w path s : Fs.write_text w path s ≠ Unmodelled.
Proof.
  unfold Fs.write_text.
  destruct (store w !! path) as [[|f]|]; try done. by destruct (writable f).
Qed.

Lemma read_text_modelled w path : Fs.read_text w path ≠ Unmodelled.
Proof.
  unfold Fs.read_text.
  destruct (store w !! path) as [[|f]|]; try done.
  destruct (readable f); [|done]. by destruct (data f).
Qed.

(** Reading looks at the entry of the path only. *)
Lemma read_text_local w1 w2 path :
  store w1 !! path = store w2 !! path →
  Fs.read_text w1 path = Fs.read_text w2 path.
Proof. unfold Fs.read_text. by intros ->. Qed.

Lemma write_text_written w w' path s :
  Fs.write_text w path s = Ok w' → w' ≠ w.
Proof.
  intros [H _]%write_text_store ->.
  apply (f_equal length) in H. rewrite length_app in H. simpl in H. lia.
Qed.

End StoreLemmas.

(** ** [process_file] *)
Section ProcessFileLemmas.
Import CssVariableMigration.
Variable project_root : Path.
Implicit Types (w : World) (rel : Path) (rules lits : list (str * str)).

Lemma parent_snoc (l : Path) (x : list N) :
  l ≠ [] → Fs.parent (l ++ [x]) = l.
Proof.
  intros Hl. unfold Fs.parent.
  destruct (l ++ [x]) as [|y [|z t]] eqn:E.
  - by destruct l.
  - by destruct l as [|? [|]].
  - rewrite <- E. apply removelast_last.
Qed.

Lemma parent_SEARCH_DIR :
  Fs.parent (Fs.parent (Fs.parent (SEARCH_DIR project_root))) = project_root.
Proof.
  unfold SEARCH_DIR. destruct (decide (project_root = [])) as [->|Hne].
  - vm_compute. reflexivity.
  - replace (project_root ++ [py "apps"; py "frontend"; py "src"])
      with (((project_root ++ [py "apps"]) ++ [py "frontend"]) ++ [py "src"])
      by by rewrite <- !(assoc_L (++)).
    rewrite !parent_snoc; try done.
    + intros [? _]%app_eq_nil. done.
    + intros [[? _]%app_eq_nil _]%app_eq_nil. done.
Qed.

(** The name recorded for a file below the search directory. *)
Lemma relative_to_root rel :
  Fs.relative_to (SEARCH_DIR project_root ++ rel)
    (Fs.parent (Fs.parent (Fs.parent (SEARCH_DIR project_root))))
  = Ok ([py "apps"; py "frontend"; py "src"] ++ rel).
Proof.
  rewrite parent_SEARCH_DIR. unfold Fs.relative_to, SEARCH_DIR.
  rewrite <- (assoc_L (++)).
  rewrite bool_decide_eq_true_2 by apply prefix_app_r, reflexivity.
  rewrite bool_decide_eq_true_2; [by rewrite drop_app_length|].
  unfold Fs.is_absolute. destruct (decide (project_root = [])) as [->|Hne].
  - by vm_compute.
  - by destruct project_root.
Qed.

(** What [process_file] does once the file has been read, for rules
    within the literal fragment. *)
Lemma process_file_read rules lits w file_path name content dry_run :
  literals rules = Some lits →
  Fs.relative_to file_path
    (Fs.parent (Fs.parent (Fs.parent (SEARCH_DIR project_root)))) = Ok name →
  Fs.read_text w file_path = Ok content →
  process_file project_root rules w file_path dry_run
  = let result m err w' :=
      Ok ({| file := name; changes := records lits content;
             modified := m; error := err |}, w') in
    if decide (rewrite lits content ≠ content) then
      if dry_run then result true None w
      else match Fs.write_text w file_path (rewrite lits content) with
           | Ok w' => result true None w'
           | Raise e => result true (Some e) w
           | Unmodelled => Unmodelled
           end
    else result false None w.
Proof.
  intros Hl Hrel Hread. unfold process_file. rewrite Hrel. simpl.
  rewrite Hread, (apply_rules_literals _ lits) by done. done.
Qed.

(** A file that cannot be read yields a result with the exception and
    nothing else; the world is left as it was. *)
Lemma process_file_unreadable rules w file_path name e dry_run :
  Fs.relative_to file_path
    (Fs.parent (Fs.parent (Fs.parent (SEARCH_DIR project_root)))) = Ok name →
  Fs.read_text w file_path = Raise e →
  process_file project_root rules w file_path dry_run
  = Ok ({| file := name; changes := []; modified := false; error := Some e |}, w).
Proof. intros Hrel Hread. unfold process_file. by rewrite Hrel; simpl; rewrite Hread. Qed.

End ProcessFileLemmas.

(** ** Idempotency *)
Section Idempotency.
Import CssVariableMigration.

(** The rule loop of css-variable-migration over its own table reaches a
    fixed point in one pass, for every text. *)
Lemma apply_rules_idempotent content :
  apply_rules REPLACEMENTS content []
  = (Ok (rewrite REPLACEMENT_LITERALS content),
     records REPLACEMENT_LITERALS content)
  ∧ apply_rules REPLACEMENTS (rewrite REPLACEMENT_LITERALS content) []
    = (Ok (rewrite REPLACEMENT_LITERALS content), []).
Proof.
  apply apply_rules_fixed_point;
    [apply literals_REPLACEMENTS|apply separated_REPLACEMENTS].
Qed.

Lemma relative_to_Ok file_path base (o : outcome (Result * World)) k :
  bind (Fs.relative_to file_path base) k = o → o ≠ Raise ValueError →
  ∃ name, Fs.relative_to file_path base = Ok name.
Proof.
  unfold Fs.relative_to. destruct (_ && _); [eauto|]. simpl. by intros <-.
Qed.

(** After [process_file] has run in apply mode without error over
    separated literal rules, a further run changes nothing. *)
Lemma process_file_settled project_root rules lits :
  literals rules = Some lits → separated lits = true →
  ∀ w file_path r1 w1,
    process_file project_root rules w file_path false = Ok (r1, w1) →
    error r1 = None →
    ∀ dry_run, ∃ r2,
      process_file project_root rules w1 file_path dry_run = Ok (r2, w1)
      ∧ changes r2 = [] ∧ modified r2 = false ∧ error r2 = None.
Proof.
  intros Hl Hs w file_path r1 w1 H1 Herr dry_run.
  destruct (relative_to_Ok _ _ _ _ H1) as [name Hrel]; [done|].
  destruct (Fs.read_text w file_path) as [content|e|] eqn:Hread.
  - destruct (rewrite_twice rules lits content Hl Hs) as [Hc Hr].
    rewrite (process_file_read _ _ _ _ _ _ _ _ Hl Hrel Hread) in H1.
    cbv zeta in H1.
    assert (Fs.read_text w1 file_path = Ok (rewrite lits content)) as Hread1.
    { destruct (decide (rewrite lits content ≠ content)) as [Hne|Heq].
      - destruct (Fs.write_text w file_path (rewrite lits content))
          as [w'|e|] eqn:Hw; [| |done].
        + injection H1 as <- <-. by eapply read_after_write.
        + injection H1 as <- <-. done.
      - injection H1 as <- <-. apply dec_stable in Heq. by rewrite Heq. }
    rewrite (process_file_read _ _ _ _ _ _ _ _ Hl Hrel Hread1).
    cbv zeta. rewrite Hc, Hr. rewrite decide_False by (intros ?; done).
    eexists. split; [done|]. done.
  - rewrite (process_file_unreadable _ _ _ _ _ _ _ Hrel Hread) in H1.
    injection H1 as <- <-. done.
  - by destruct (read_text_modelled w file_path).
Qed.

(** C1 (amended).  Idempotency of css-variable-migration: for every
    text the rule loop over REPLACEMENTS, run again on its own output,
    returns that output and no change record; and after [process_file]
    has rewritten a file without error, a further [process_file] on it,
    in either mode, reports no change, [modified = False], and leaves
    the world as it is. *)
Theorem css_rewrite_idempotent :
  (∀ content, ∃ content' chs,
      apply_rules REPLACEMENTS content [] = (Ok content', chs)
      ∧ apply_rules REPLACEMENTS content' [] = (Ok content', []))
  ∧ (∀ project_root w file_path r1 w1,
      process_file project_root REPLACEMENTS w file_path false = Ok (r1, w1) →
      error r1 = None →
      ∀ dry_run, ∃ r2,
        process_file project_root REPLACEMENTS w1 file_path dry_run = Ok (r2, w1)
        ∧ changes r2 = [] ∧ modified r2 = false ∧ error r2 = None).
Proof.
  split.
  { intros content. destruct (apply_rules_idempotent content) as [H1 H2]. eauto. }
  intros project_root w file_path r1 w1 H1 Herr dry_run.
  by apply (process_file_settled project_root REPLACEMENTS REPLACEMENT_LITERALS
              literals_REPLACEMENTS separated_REPLACEMENTS w file_path r1 w1).
Qed.

Lemma css_rewrite_idempotent_witness :
  process_file Examples.repo REPLACEMENTS Examples.css_world
    Examples.css_file false
  = Ok (Examples.css_result, Examples.css_world_rewritten)
  ∧ error Examples.css_result = None
  ∧ ∃ r2, process_file Examples.repo REPLACEMENTS Examples.css_world_rewritten
            Examples.css_file true = Ok (r2, Examples.css_world_rewritten)
          ∧ changes r2 = [] ∧ modified r2 = false ∧ error r2 = None.
Proof.
  assert (process_file Examples.repo REPLACEMENTS Examples.css_world
            Examples.css_file false
          = Ok (Examples.css_result, Examples.css_world_rewritten)) as H1
    by (vm_compute; reflexivity).
  split; [exact H1|]. split; [reflexivity|].
  exact (proj2 css_rewrite_idempotent Examples.repo Examples.css_world
           Examples.css_file Examples.css_result Examples.css_world_rewritten
           H1 eq_refl true).
Defined.

(** C1, as stated, fails for fix_orphaned: the line after a closing
    [})] survives the first pass and is removed by the second. *)
Lemma fix_orphaned_second_pass_changes :
  ¬ (∀ (w : World) (path : Path),
       (FixOrphaned.fix_orphaned_syntax
          (FixOrphaned.fix_orphaned_syntax w path).2 path).1 = 0).
Proof.
  intros H.
  specialize (H Examples.orphan_world Examples.backend_file).
  vm_compute in H. discriminate.
Qed.

End Idempotency.

(** ** The lines of the change records *)
Section OriginalLines.
Import CssVariableMigration.
Implicit Types (s t u a p q r pre : str) (lits : list (str * str)).

Lemma scan_skip q a pos t :
  Re.scan q (length a) pos (a ++ t) = Re.scan q 0 (pos + length a) t.
Proof.
  revert pos. induction a as [|c a IH]; intros pos.
  - simpl. by rewrite Nat.add_0_r.
  - simpl. rewrite IH. f_equal. lia.
Qed.

Lemma subst_skip_all q r a t :
  Re.subst q r (length a) (a ++ t) = Re.subst q r 0 t.
Proof. induction a as [|c a IH]; [done|]. simpl. apply IH. Qed.

(** Scanning passes over a text none of whose suffixes is comparable with
    the literal. *)
Lemma scan_through q a pos t :
  q ≠ [] → tails_apart a q = true →
  Re.scan q 0 pos (a ++ t) = Re.scan q 0 (pos + length a) t.
Proof.
  intros Hq. revert pos. induction a as [|c a IH]; intros pos Ha.
  - simpl. by rewrite Nat.add_0_r.
  - simpl in Ha. apply andb_true_iff in Ha as [Hc Ha].
    change ((c :: a) ++ t) with (c :: (a ++ t)).
    rewrite scan_nomatch.
    + rewrite IH by done. f_equal. simpl. lia.
    + destruct (Str.startswith (c :: a ++ t) q) eqn:E; [|done].
      change (c :: a ++ t) with ((c :: a) ++ t) in E.
      apply startswith_app_comparable in E.
      rewrite comparable_sym in E. by rewrite E in Hc.
Qed.

Lemma scan_block q pos u :
  q ≠ [] →
  Re.scan q 0 pos (q ++ u)
  = {| Re.start := pos; Re.group := q |} :: Re.scan q 0 (pos + length q) u.
Proof.
  intros Hq. destruct q as [|c q]; [done|].
  change ((c :: q) ++ u) with (c :: (q ++ u)). cbn [Re.scan].
  change (c :: q ++ u) with ((c :: q) ++ u). rewrite startswith_app.
  f_equal. replace (length (c :: q) - 1) with (length q) by (simpl; lia).
  rewrite scan_skip. f_equal. simpl. lia.
Qed.

Lemma subst_through p r a t :
  p ≠ [] → tails_apart a p = true →
  Re.subst p r 0 (a ++ t) = a ++ Re.subst p r 0 t.
Proof.
  intros Hp. induction a as [|c a IH]; intros Ha; [done|].
  simpl in Ha. apply andb_true_iff in Ha as [Hc Ha].
  change ((c :: a) ++ t) with (c :: (a ++ t)).
  rewrite subst_nomatch.
  - by rewrite IH.
  - destruct (Str.startswith (c :: a ++ t) p) eqn:E; [|done].
    change (c :: a ++ t) with ((c :: a) ++ t) in E.
    apply startswith_app_comparable in E.
    rewrite comparable_sym in E. by rewrite E in Hc.
Qed.

Lemma subst_block p r t :
  p ≠ [] → Re.subst p r 0 (p ++ t) = r ++ Re.subst p r 0 t.
Proof.
  intros Hp. destruct p as [|c p]; [done|].
  change ((c :: p) ++ t) with (c :: (p ++ t)).
  rewrite subst_match; [|done|].
  - replace (length (c :: p) - 1) with (length p) by (simpl; lia).
    by rewrite subst_skip_all.
  - change (c :: p ++ t) with ((c :: p) ++ t). apply startswith_app.
Qed.

(** The records of a literal [q] are the same, lines included, before
    and after the substitution of [r] for a pattern [p], when no
    occurrence of [q] can overlap one of [p] or of [r] and neither [p]
    nor [r] holds a line break. *)
Lemma records_after_subst p r q x :
  p ≠ [] → q ≠ [] → NL ∉ p → NL ∉ r →
  independent p q = true → independent q r = true →
  ∀ n s pre pre',
    length s ≤ n →
    Str.count_nl pre = Str.count_nl pre' →
    map (record (pre' ++ Re.subst p r 0 s) x)
        (Re.scan q 0 (length pre') (Re.subst p r 0 s))
    = map (record (pre ++ s) x) (Re.scan q 0 (length pre) s).
Proof.
  intros Hp Hq Hnp Hnr [Hpq Hqp]%andb_true_iff [Hqr Hrq]%andb_true_iff.
  induction n as [|n IH]; intros s pre pre' Hn Hpre.
  { destruct s; [|simpl in Hn; lia].
    by rewrite subst_nil, !scan_nil by done. }
  destruct s as [|c s]; [by rewrite subst_nil, !scan_nil by done|].
  destruct (Str.startswith (c :: s) p) eqn:Ep.
  - apply startswith_drop in Ep. set (t := drop (length p) (c :: s)) in *.
    assert (length t ≤ n) as Ht.
    { apply (f_equal length) in Ep. rewrite length_app in Ep. simpl in Ep, Hn.
      destruct p; [done|]. simpl in Ep. lia. }
    rewrite Ep, subst_block by done.
    rewrite !scan_through by done.
    rewrite !(assoc_L (++)), <- !length_app.
    apply IH; [done|].
    by rewrite !count_nl_app, (count_nl_none p), (count_nl_none r), Hpre.
  - destruct (Str.startswith (c :: s) q) eqn:Eq.
    + apply startswith_drop in Eq. set (u := drop (length q) (c :: s)) in *.
      assert (length u ≤ n) as Hu.
      { apply (f_equal length) in Eq. rewrite length_app in Eq.
        simpl in Eq, Hn. destruct q; [done|]. simpl in Eq. lia. }
      rewrite Eq, subst_through by done.
      rewrite !scan_block by done. cbn [map]. f_equal.
      * unfold record. cbn [Re.start Re.group].
        by rewrite !take_app_length, Hpre.
      * rewrite !(assoc_L (++)), <- !length_app.
        apply IH; [done|]. by rewrite !count_nl_app, Hpre.
    + rewrite subst_nomatch by done.
      assert (Str.startswith (c :: Re.subst p r 0 s) q = false) as Eq'.
      { destruct (Str.startswith (c :: Re.subst p r 0 s) q) eqn:E; [|done].
        rewrite <- (subst_nomatch p r) in E by done.
        apply startswith_subst in E; [congruence|done..]. }
      rewrite !scan_nomatch by done.
      replace (pre' ++ c :: Re.subst p r 0 s)
        with ((pre' ++ [c]) ++ Re.subst p r 0 s)
        by by rewrite <- (assoc_L (++)).
      replace (pre ++ c :: s) with ((pre ++ [c]) ++ s)
        by by rewrite <- (assoc_L (++)).
      replace (S (length pre')) with (length (pre' ++ [c]))
        by (rewrite length_app; simpl; lia).
      replace (S (length pre)) with (length (pre ++ [c]))
        by (rewrite length_app; simpl; lia).
      apply IH; [simpl in Hn; lia|]. by rewrite !count_nl_app, Hpre.
Qed.

Lemma flat_map_same {A B} (f g : A → list B) (l : list A) :
  Forall (λ x, f x = g x) l → flat_map f l = flat_map g l.
Proof. induction 1 as [|x l Hx _ IH]; [done|]. simpl. by rewrite Hx, IH. Qed.

Lemma apart_cons q r lits :
  apart ((q, r) :: lits) = true →
  Forall (λ l, independent q l.1 = true) lits ∧ apart lits = true.
Proof.
  simpl. intros [H1 H2]%andb_true_iff. split; [|done].
  rewrite forallb_forall in H1. apply Forall_forall. intros l Hl.
  by apply H1, list_elem_of_In.
Qed.

(** The records of the rule loop are those of the matches in the
    content the loop started from. *)
Lemma records_original lits :
  Forall (λ l, l.1 ≠ [] ∧ (NL ∉ l.1) ∧ (NL ∉ l.2)) lits →
  (∀ l l', l ∈ lits → l' ∈ lits → independent l.1 l'.2 = true) →
  apart lits = true →
  ∀ content,
    records lits content
    = flat_map (λ l, map (record content l.2) (Re.scan l.1 0 0 content)) lits.
Proof.
  induction lits as [|[q r] lits IH]; intros Hone Hsep Hap content; [done|].
  apply Forall_cons in Hone as [(Hq & Hnq & Hnr) Hone].
  apply apart_cons in Hap as [Hhead Hap]. simpl in Hq, Hnq, Hnr.
  cbn [records flat_map fst snd]. f_equal.
  rewrite IH; [|done|intros l l' Hl Hl'; apply Hsep; by right|done].
  apply flat_map_same, Forall_forall. intros l Hl.
  assert (l.1 ≠ []) as Hl1.
  { by apply (proj1 (Forall_forall _ _) Hone l Hl). }
  pose proof (proj1 (Forall_forall _ _) Hhead l Hl) as Hql. simpl in Hql.
  assert (independent l.1 r = true) as Hlr.
  { apply (Hsep l (q, r)); [by right|left]. }
  exact (records_after_subst q r l.1 l.2 Hq Hl1 Hnq Hnr Hql Hlr
           (length content) content [] [] (le_n _) eq_refl).
Qed.

Lemma records_in_original_literals rules lits content :
  literals rules = Some lits →
  records_in_original rules content
  = flat_map (λ l, map (record content l.2) (Re.scan l.1 0 0 content)) lits.
Proof.
  intros H%mapM_Some. unfold records_in_original.
  induction H as [|[pattern replacement] [q r] rules lits H _ IH]; [done|].
  apply literal_rule_Some in H as (Hc & Hq & Hr & Hb). simpl in Hc, Hr.
  subst r. cbn [flat_map fst snd]. rewrite IH.
  unfold Re.finditer, Re.with_pattern. by rewrite Hc.
Qed.

Lemma apart_REPLACEMENTS : apart REPLACEMENT_LITERALS = true.
Proof. vm_compute. reflexivity. Qed.

(** C2.  For every content, the change records of the rule loop over
    REPLACEMENTS are the records of the matches of each pattern in the
    content as it was read from disk, rule by rule in the order of the
    table, each with the 1-indexed line of its match in that content.
    The loop counts the line in the content as it stands after the
    substitutions of the earlier rules; this gives the line in the
    original content because no pattern and no replacement of the table
    holds a line break and no occurrence of a pattern can overlap an
    occurrence of another pattern or of a replacement. *)
Theorem line_is_line_in_original_content content :
  (apply_rules REPLACEMENTS content []).2
  = records_in_original REPLACEMENTS content.
Proof.
  rewrite (apply_rules_literals _ _ _ _ literals_REPLACEMENTS).
  rewrite (records_in_original_literals _ _ _ literals_REPLACEMENTS).
  cbn [snd app]. apply records_original.
  - apply REPLACEMENTS_one_line.
  - apply separated_spec, separated_REPLACEMENTS.
  - apply apart_REPLACEMENTS.
Qed.

End OriginalLines.

(** ** Sequential application of the rules *)
Section Sequential.
Import CssVariableMigration.

(** The loop over [rules1 ++ rules2] is the loop over [rules2] started
    from what the loop over [rules1] leaves. *)
Lemma apply_rules_app rules1 rules2 content chs :
  apply_rules (rules1 ++ rules2) content chs
  = match apply_rules rules1 content chs with
    | (Ok content', chs') => apply_rules rules2 content' chs'
    | stopped => stopped
    end.
Proof.
  revert content chs.
  induction rules1 as [|[pattern replacement] rules1 IH]; intros content chs;
    [done|].
  cbn [app apply_rules].
  destruct (Re.finditer pattern content) as [[|m ms]|e|]; [apply IH| |done..].
  destruct (Re.sub pattern replacement content) as [content'|e|]; [apply IH|done..].
Qed.

Lemma literals_app_inv rules1 rule rules2 lits :
  literals (rules1 ++ rule :: rules2) = Some lits →
  ∃ lits1 lit lits2,
    literals rules1 = Some lits1 ∧ literal_rule rule = Some lit
    ∧ literals rules2 = Some lits2 ∧ lits = lits1 ++ lit :: lits2.
Proof.
  intros H%mapM_Some.
  apply Forall2_app_inv_l in H as (lits1 & rest & H1 & H2 & ->).
  apply Forall2_cons_inv_l in H2 as (lit & lits2 & Hr & H2 & ->).
  exists lits1, lit, lits2. by rewrite <- !mapM_Some in *.
Qed.

(** For every rule of REPLACEMENTS and every content, the records of
    that rule's matches carry the 1-indexed line of the match's
    start offset in the content as it stood before this rule's
    substitution pass, that is, after the substitutions of all earlier
    rules; these substitutions keep the number of line breaks. *)
Lemma line_counted_in_current_content
    before pattern replacement after content :
  REPLACEMENTS = before ++ (pattern, replacement) :: after →
  ∃ current earlier lit final later,
    apply_rules before content [] = (Ok current, earlier)
    ∧ Re.compile pattern = Re.Literal lit
    ∧ apply_rules REPLACEMENTS content []
      = (Ok final,
         earlier ++ map (record current replacement) (Re.scan lit 0 0 current)
                 ++ later)
    ∧ (∀ m, line (record current replacement m)
            = Str.count_nl (take (Re.start m) current) + 1)
    ∧ Str.count_nl current = Str.count_nl content.
Proof.
  intros Hsplit. pose proof literals_REPLACEMENTS as Hl.
  pose proof REPLACEMENTS_one_line as Hone_line.
  rewrite Hsplit in Hl |- *.
  apply literals_app_inv in Hl as (lits1 & [q r] & lits2 & H1 & Hr & H2 & Heq).
  rewrite Heq in Hone_line. apply Forall_app in Hone_line as [Hone_line _].
  apply literal_rule_Some in Hr as (Hc & Hq & Hrr & Hb). simpl in Hc, Hrr, Hb.
  subst r.
  exists (rewrite lits1 content), (records lits1 content), q.
  exists (rewrite lits2 (Re.subst q replacement 0 (rewrite lits1 content))).
  exists (records lits2 (Re.subst q replacement 0 (rewrite lits1 content))).
  assert (literals [(pattern, replacement)] = Some [(q, replacement)]) as Hone.
  { unfold literals. simpl. unfold literal_rule. simpl. rewrite Hc.
    destruct q; [done|]. by rewrite bool_decide_eq_false_2. }
  split; [by rewrite (apply_rules_literals _ _ _ _ H1)|].
  split; [done|]. split; [|split; [done|by apply rewrite_count_nl]].
  rewrite apply_rules_app, (apply_rules_literals _ _ _ _ H1).
  change ((pattern, replacement) :: after)
    with ([(pattern, replacement)] ++ after).
  rewrite apply_rules_app, (apply_rules_literals _ _ _ _ Hone).
  rewrite (apply_rules_literals _ _ _ _ H2). simpl.
  by rewrite app_nil_r, <- !(assoc_L (++)).
Qed.

(** C3.  The rules are applied one after the other, each on the output
    of the rules before it, and the order matters: with A rewriting [a]
    to [b] and B rewriting [b] to [c], the text [a] becomes [c] under
    A, B and [b] under B, A. *)
Theorem rules_applied_sequentially :
  (∀ rules1 rules2 content chs,
      apply_rules (rules1 ++ rules2) content chs
      = match apply_rules rules1 content chs with
        | (Ok content', chs') => apply_rules rules2 content' chs'
        | stopped => stopped
        end)
  ∧ (let A := (py "a", py "b") in
     let B := (py "b", py "c") in
     (apply_rules [A; B] (py "a") []).1 = Ok (py "c")
     ∧ (apply_rules [B; A] (py "a") []).1 = Ok (py "b"))
  ∧ (∃ A B content,
        (apply_rules [A; B] content []).1 ≠ (apply_rules [B; A] content []).1).
Proof.
  split; [apply apply_rules_app|]. split; [by vm_compute|].
  exists (py "a", py "b"), (py "b", py "c"), (py "a"). by vm_compute.
Qed.

End Sequential.

(** ** The scenario of two [var(--border)] *)
Section Scenario.
Import CssVariableMigration.

Lemma two_borders_rewrite :
  rewrite REPLACEMENT_LITERALS Examples.two_borders
  = Examples.two_borders_rewritten.
Proof. vm_compute. reflexivity. Qed.

Lemma two_borders_records :
  records REPLACEMENT_LITERALS Examples.two_borders
  = [Examples.border_record 1; Examples.border_record 2].
Proof. vm_compute. reflexivity. Qed.

Lemma two_borders_differ :
  Examples.two_borders_rewritten ≠ Examples.two_borders.
Proof. intros H. vm_compute in H. discriminate. Qed.

Lemma write_text_writable w path f s :
  store w !! path = Some (File f) → writable f = true →
  Fs.write_text w path s
  = Ok {| store := <[path := File {| data := Some s; readable := readable f;
                                     writable := true |}]> (store w);
          written := written w ++ [path] |}.
Proof. intros Hf Hw. unfold Fs.write_text. by rewrite Hf, Hw. Qed.

Lemma read_text_readable w path f s :
  store w !! path = Some (File f) → readable f = true → data f = Some s →
  Fs.read_text w path = Ok s.
Proof. intros Hf Hr Hd. unfold Fs.read_text. by rewrite Hf, Hr, Hd. Qed.

Lemma border_rule_first :
  literals REPLACEMENTS
  = Some ((py "var(--border)", py "var(--color-border)")
          :: tail REPLACEMENT_LITERALS)
  ∧ separated ((py "var(--border)", py "var(--color-border)")
               :: tail REPLACEMENT_LITERALS) = true.
Proof. split; vm_compute; reflexivity. Qed.

(** C4.  A file below the search directory whose text holds
    [var(--border)] exactly twice, on lines 1 and 2: [process_file] returns
    [modified = True] and exactly two records, at lines 1 and 2, each from
    [var(--border)] to [var(--color-border)]; in apply mode the file then
    holds the rewritten text, in which [var(--color-border)] occurs twice
    and [var(--border)] does not occur.  For every content there is one
    record per match of [var(--border)], each from [var(--border)] to
    [var(--color-border)], and no [var(--border)] is left. *)
Theorem two_borders_scenario project_root rel w f dry_run :
  let file_path := SEARCH_DIR project_root ++ rel in
  store w !! file_path = Some (File f) →
  readable f = true → writable f = true →
  data f = Some Examples.two_borders →
  occurrences (py "var(--border)") Examples.two_borders = 2
  ∧ ∃ r w',
      process_file project_root REPLACEMENTS w file_path dry_run = Ok (r, w')
      ∧ modified r = true
      ∧ changes r = [Examples.border_record 1; Examples.border_record 2]
      ∧ error r = None
      ∧ (if dry_run then w' = w
         else Fs.read_text w' file_path = Ok Examples.two_borders_rewritten
              ∧ written w' = written w ++ [file_path])
      ∧ occurrences (py "var(--color-border)") Examples.two_borders_rewritten = 2
      ∧ Str.contains (py "var(--border)") Examples.two_borders_rewritten = false
      ∧ ∀ content, ∃ final later,
          apply_rules REPLACEMENTS content []
          = (Ok final,
             map (record content (py "var(--color-border)"))
                 (Re.scan (py "var(--border)") 0 0 content) ++ later)
          ∧ Str.contains (py "var(--border)") final = false
          ∧ Forall (λ c, old c = py "var(--border)"
                         ∧ new c = py "var(--color-border)")
              (map (record content (py "var(--color-border)"))
                   (Re.scan (py "var(--border)") 0 0 content)).
Proof.
  intros file_path Hf Hr Hw Hd. split; [by vm_compute|].
  assert (∀ content, ∃ final later,
            apply_rules REPLACEMENTS content []
            = (Ok final,
               map (record content (py "var(--color-border)"))
                   (Re.scan (py "var(--border)") 0 0 content) ++ later)
            ∧ Str.contains (py "var(--border)") final = false
            ∧ Forall (λ c, old c = py "var(--border)"
                           ∧ new c = py "var(--color-border)")
                (map (record content (py "var(--color-border)"))
                     (Re.scan (py "var(--border)") 0 0 content))) as Hall.
  { intros content. destruct border_rule_first as [Hl Hs].
    exact (first_rule_records _ _ _ _ content Hl Hs). }
  pose proof (read_text_readable _ _ _ _ Hf Hr Hd) as Hread.
  pose proof (process_file_read project_root _ _ w file_path _ _ dry_run
                literals_REPLACEMENTS (relative_to_root project_root rel) Hread)
    as Hp.
  cbv zeta in Hp.
  rewrite two_borders_rewrite, two_borders_records in Hp.
  rewrite decide_True in Hp by apply two_borders_differ.
  destruct dry_run.
  - eexists _, _. split; [exact Hp|].
    split; [done|]. split; [done|]. split; [done|]. split; [done|].
    split; [by vm_compute|]. split; [by vm_compute|]. exact Hall.
  - rewrite (write_text_writable _ _ _ _ Hf Hw) in Hp.
    eexists _, _. split; [exact Hp|].
    split; [done|]. split; [done|]. split; [done|]. split.
    + split; [|done]. unfold Fs.read_text. simpl.
      by rewrite lookup_insert_eq, Hr.
    + split; [by vm_compute|]. split; [by vm_compute|]. exact Hall.
Qed.

Lemma two_borders_scenario_witness :
  occurrences (py "var(--border)") Examples.two_borders = 2
  ∧ ∃ r w',
      process_file Examples.repo REPLACEMENTS Examples.css_world
        Examples.css_file false = Ok (r, w')
      ∧ modified r = true
      ∧ changes r = [Examples.border_record 1; Examples.border_record 2]
      ∧ error r = None
      ∧ (Fs.read_text w' Examples.css_file = Ok Examples.two_borders_rewritten
         ∧ written w' = written Examples.css_world ++ [Examples.css_file])
      ∧ occurrences (py "var(--color-border)") Examples.two_borders_rewritten = 2
      ∧ Str.contains (py "var(--border)") Examples.two_borders_rewritten = false
      ∧ ∀ content, ∃ final later,
          apply_rules REPLACEMENTS content []
          = (Ok final,
             map (record content (py "var(--color-border)"))
                 (Re.scan (py "var(--border)") 0 0 content) ++ later)
          ∧ Str.contains (py "var(--border)") final = false
          ∧ Forall (λ c, old c = py "var(--border)"
                         ∧ new c = py "var(--color-border)")
              (map (record content (py "var(--color-border)"))
                   (Re.scan (py "var(--border)") 0 0 content)).
Proof.
  refine (two_borders_scenario Examples.repo [py "x.css"] Examples.css_world
            {| data := Some Examples.two_borders; readable := true;
               writable := true |} false _ eq_refl eq_refl eq_refl).
  vm_compute. reflexivity.
Defined.

End Scenario.

(** ** What [process_file] leaves behind *)
Section ProcessFileEffects.
Import CssVariableMigration.
Implicit Types (w : World) (rules : list (str * str)) (r : Result).

(** Either the world is left as it was, or the one write of the function
    has been completed; the latter only in apply mode, for a modified file,
    and then no error is recorded. *)
Lemma process_file_cases project_root rules w file_path dry_run r w' :
  process_file project_root rules w file_path dry_run = Ok (r, w') →
  (w' = w ∧ (dry_run = true ∨ modified r = false ∨ error r ≠ None))
  ∨ (∃ content, Fs.write_text w file_path content = Ok w'
                ∧ dry_run = false ∧ modified r = true ∧ error r = None).
Proof.
  unfold process_file.
  destruct (Fs.relative_to _ _) as [name|e|]; simpl; [|done..].
  destruct (Fs.read_text w file_path) as [original|e|]; [| |done].
  - destruct (apply_rules rules original []) as [[content|e|] chs]; [| |done].
    + destruct (decide (content ≠ original)).
      * destruct dry_run.
        -- intros [= <- <-]. left. auto.
        -- destruct (Fs.write_text w file_path content) as [w1|e|] eqn:Hw;
             [| |done].
           ++ intros [= <- <-]. right. by exists content.
           ++ intros [= <- <-]. left. split; [done|]. right. by right.
      * intros [= <- <-]. left. auto.
    + intros [= <- <-]. left. split; [done|]. right. by right.
  - intros [= <- <-]. left. auto.
Qed.

(** Other files are not touched. *)
Lemma process_file_frame project_root rules w file_path dry_run r w' :
  process_file project_root rules w file_path dry_run = Ok (r, w') →
  ∀ other, other ≠ file_path → store w' !! other = store w !! other.
Proof.
  intros [[-> _]|(content & Hw & _)]%process_file_cases other Hne; [done|].
  apply write_text_store in Hw as [_ Hw]. by apply Hw.
Qed.

Lemma process_file_dry project_root rules w file_path r w' :
  process_file project_root rules w file_path true = Ok (r, w') → w' = w.
Proof.
  intros [[-> _]|(content & _ & ? & _)]%process_file_cases; done.
Qed.

Lemma write_text_local w1 w2 path s :
  store w1 !! path = store w2 !! path →
  match Fs.write_text w1 path s with
  | Ok w1' => ∃ w2', Fs.write_text w2 path s = Ok w2'
                     ∧ store w2' !! path = store w1' !! path
  | Raise e => Fs.write_text w2 path s = Raise e
  | Unmodelled => True
  end.
Proof.
  unfold Fs.write_text. intros <-.
  destruct (store w1 !! path) as [[|f]|]; [done| |].
  - destruct (writable f); [|done].
    eexists. split; [done|]. simpl. by rewrite !lookup_insert_eq.
  - eexists. split; [done|]. simpl. by rewrite !lookup_insert_eq.
Qed.

(** The result, and what is left at the path, depend on the entry of the
    file only. *)
Lemma process_file_local project_root rules w1 w2 file_path dry_run :
  store w1 !! file_path = store w2 !! file_path →
  match process_file project_root rules w1 file_path dry_run with
  | Ok (r, w1') =>
      ∃ w2', process_file project_root rules w2 file_path dry_run = Ok (r, w2')
             ∧ store w2' !! file_path = store w1' !! file_path
  | Raise e => process_file project_root rules w2 file_path dry_run = Raise e
  | Unmodelled =>
      process_file project_root rules w2 file_path dry_run = Unmodelled
  end.
Proof.
  intros Hst. unfold process_file.
  destruct (Fs.relative_to _ _) as [name|e|]; simpl; [|done..].
  rewrite <- (read_text_local w1 w2 file_path Hst).
  destruct (Fs.read_text w1 file_path) as [original|e|]; [|by eexists|done].
  destruct (apply_rules rules original []) as [[content|e|] chs];
    [|by eexists|done].
  destruct (decide (content ≠ original)); [|by eexists].
  destruct dry_run; [by eexists|].
  pose proof (write_text_local w1 w2 file_path content Hst) as Hw.
  destruct (Fs.write_text w1 file_path content) as [w1'|e|] eqn:E.
  - destruct Hw as (w2' & -> & Hw). by eexists.
  - rewrite Hw. by eexists.
  - by destruct (write_text_modelled _ _ _ E).
Qed.

(** Both modes compute the same name, records and flag. *)
Lemma process_file_modes project_root rules w file_path :
  match process_file project_root rules w file_path true with
  | Ok (r1, _) =>
      ∃ r2 w2, process_file project_root rules w file_path false = Ok (r2, w2)
               ∧ file r1 = file r2 ∧ changes r1 = changes r2
               ∧ modified r1 = modified r2
  | Raise e => process_file project_root rules w file_path false = Raise e
  | Unmodelled => process_file project_root rules w file_path false = Unmodelled
  end.
Proof.
  unfold process_file.
  destruct (Fs.relative_to _ _) as [name|e|]; simpl; [|done..].
  destruct (Fs.read_text w file_path) as [original|e|]; [|by eexists _, _|done].
  destruct (apply_rules rules original []) as [[content|e|] chs];
    [|by eexists _, _|done].
  destruct (decide (content ≠ original)); [|by eexists _, _].
  destruct (Fs.write_text w file_path content) as [w'|e|] eqn:Hw.
  - by eexists _, _.
  - by eexists _, _.
  - by destruct (write_text_modelled _ _ _ Hw).
Qed.

(** Rules on which the loop stays within the fragment covered. *)
Lemma literals_modelled rules lits content :
  literals rules = Some lits → (apply_rules rules content []).1 ≠ Unmodelled.
Proof. intros Hl. by rewrite (apply_rules_literals _ _ _ _ Hl). Qed.

(** With such rules a file below the search directory always yields a
    result: every exception of reading, matching and writing is caught. *)
Lemma process_file_total project_root rules w rel dry_run :
  (∀ content, (apply_rules rules content []).1 ≠ Unmodelled) →
  ∃ r w', process_file project_root rules w
            (SEARCH_DIR project_root ++ rel) dry_run = Ok (r, w').
Proof.
  intros Hm. unfold process_file. rewrite relative_to_root. simpl.
  destruct (Fs.read_text w _) as [original|e|] eqn:Hr.
  - specialize (Hm original).
    destruct (apply_rules rules original []) as [[content|e|] chs];
      [|by eexists _, _|done].
    destruct (decide _); [|by eexists _, _].
    destruct dry_run; [by eexists _, _|].
    destruct (Fs.write_text w _ _) as [w'|e|] eqn:Hw; [by eexists _, _..|].
    by destruct (write_text_modelled _ _ _ Hw).
  - by eexists _, _.
  - by destruct (read_text_modelled _ _ Hr).
Qed.

End ProcessFileEffects.

(** ** Enumeration below a directory *)
Section Enumeration.
Import CssVariableMigration.

Lemma dirent_induction (P : dirent → Prop) :
  (∀ n, P (FileEnt n)) →
  (∀ n sub, Forall P sub → P (DirEnt n sub)) →
  ∀ d, P d.
Proof.
  intros Hf Hd. fix IH 1. intros [n|n sub]; [apply Hf|].
  apply Hd. induction sub as [|d sub IHsub]; constructor; [apply IH|apply IHsub].
Qed.

Lemma matching_under directory listing ext p :
  p ∈ matching directory listing ext → ∃ rel, p = directory ++ rel.
Proof.
  unfold matching. intros (d & -> & _)%list_elem_of_fmap. eauto.
Qed.

Lemma rglob_below_under d :
  ∀ directory ext p,
    p ∈ rglob_below directory ext d → ∃ rel, p = directory ++ rel.
Proof.
  induction d as [n|n sub IH] using dirent_induction; intros directory ext p.
  - simpl. by intros ?%elem_of_nil.
  - simpl. intros [H|H]%elem_of_app.
    + apply matching_under in H as [rel ->].
      exists ([n] ++ rel). by rewrite (assoc_L (++)).
    + apply list_elem_of_In, in_flat_map in H as (d & Hd & H).
      apply list_elem_of_In in Hd, H.
      rewrite Forall_forall in IH.
      destruct (IH d Hd _ _ _ H) as [rel ->].
      exists ([n] ++ rel). by rewrite (assoc_L (++)).
Qed.

Lemma rglob_under directory listing ext p :
  p ∈ rglob directory listing ext → ∃ rel, p = directory ++ rel.
Proof.
  unfold rglob. intros [H|H]%elem_of_app; [by eapply matching_under|].
  apply list_elem_of_In, in_flat_map in H as (d & _ & H).
  apply list_elem_of_In in H. by eapply rglob_below_under.
Qed.

Lemma sorted_Permutation paths : Fs.sorted paths ≡ₚ paths.
Proof. apply merge_sort_Permutation. Qed.

(** Every file found lies below the directory searched. *)
Lemma find_files_under directory listing extensions p :
  p ∈ find_files directory listing extensions → ∃ rel, p = directory ++ rel.
Proof.
  unfold find_files. rewrite sorted_Permutation.
  intros H%list_elem_of_In. apply in_concat in H as (l & Hl & H).
  apply in_map_iff in Hl as (ext & <- & _).
  apply list_elem_of_In in H. by eapply rglob_under.
Qed.

(** *** No path is found twice *)

Lemma matching_elem directory listing ext p :
  p ∈ matching directory listing ext
  ↔ ∃ d, d ∈ listing ∧ Str.endswith (Fs.name_of d) ext = true
         ∧ p = directory ++ [Fs.name_of d].
Proof.
  unfold matching. rewrite list_elem_of_In, in_map_iff. split.
  - intros (d & <- & Hd). apply list_elem_of_In, list_elem_of_filter in Hd.
    destruct Hd as [He Hd]. by exists d.
  - intros (d & Hd & He & ->). exists d. split; [done|].
    apply list_elem_of_In, list_elem_of_filter. done.
Qed.

Lemma matching_NoDup directory listing ext :
  NoDup (map Fs.name_of listing) → NoDup (matching directory listing ext).
Proof.
  induction listing as [|d listing IH]; [constructor|].
  simpl map. intros [Hd Hnd]%NoDup_cons.
  unfold matching. rewrite filter_cons.
  destruct (decide (Str.endswith (Fs.name_of d) ext = true)); [|by apply IH].
  simpl. apply NoDup_cons. split; [|by apply IH].
  intros (d' & Hd' & _ & Heq)%matching_elem.
  apply app_inv_head in Heq. injection Heq as Heq.
  apply Hd. rewrite Heq. apply list_elem_of_In, in_map.
  by apply list_elem_of_In.
Qed.

Lemma in_flat_map_elem {A B} (f : A → list B) l y :
  y ∈ flat_map f l ↔ ∃ x, x ∈ l ∧ y ∈ f x.
Proof.
  rewrite list_elem_of_In, in_flat_map.
  split; intros (x & H1 & H2); exists x; split; by apply list_elem_of_In.
Qed.

(** A path found below an entry goes through the name of the entry and
    ends with a name that has the extension. *)
Lemma rglob_below_shape d :
  ∀ directory ext p,
    p ∈ rglob_below directory ext d →
    (∃ rel, p = directory ++ Fs.name_of d :: rel ∧ rel ≠ [])
    ∧ (∃ init name, p = init ++ [name] ∧ Str.endswith name ext = true).
Proof.
  induction d as [n|n sub IH] using dirent_induction; intros directory ext p.
  - simpl. by intros ?%elem_of_nil.
  - simpl. rewrite Forall_forall in IH. intros [H|H]%elem_of_app.
    + apply matching_elem in H as (d & Hd & He & ->). split.
      * exists [Fs.name_of d]. by rewrite <- (assoc_L (++)).
      * eauto.
    + apply in_flat_map_elem in H as (d & Hd & H).
      destruct (IH d Hd _ _ _ H) as [(rel & -> & Hrel) Hname]. split; [|done].
      exists (Fs.name_of d :: rel). by rewrite <- (assoc_L (++)).
Qed.

Lemma listing_NoDup directory ext listing :
  NoDup (map Fs.name_of listing) →
  Forall (λ d, NoDup (rglob_below directory ext d)) listing →
  NoDup (matching directory listing ext
         ++ flat_map (rglob_below directory ext) listing).
Proof.
  intros Hnames Hsub. apply NoDup_app. split; [by apply matching_NoDup|]. split.
  - intros p (d & _ & _ & ->)%matching_elem (d' & _ & H)%in_flat_map_elem.
    apply rglob_below_shape in H as [(rel & Heq & Hrel) _].
    apply app_inv_head in Heq. injection Heq as _ <-. done.
  - clear -Hnames Hsub.
    induction listing as [|d listing IH]; [constructor|].
    simpl in *. apply NoDup_cons in Hnames as [Hd Hnames].
    apply Forall_cons in Hsub as [Hsub1 Hsub].
    apply NoDup_app. split; [done|]. split; [|by apply IH].
    intros p H (d' & Hd' & H')%in_flat_map_elem.
    apply rglob_below_shape in H as [(rel & -> & _) _].
    apply rglob_below_shape in H' as [(rel' & Heq & _) _].
    apply app_inv_head in Heq. injection Heq as Heq _.
    apply Hd. rewrite Heq. apply list_elem_of_In, in_map.
    by apply list_elem_of_In.
Qed.

Lemma rglob_below_NoDup d :
  names_distinct d = true → ∀ directory ext, NoDup (rglob_below directory ext d).
Proof.
  induction d as [n|n sub IH] using dirent_induction; intros Hd directory ext.
  - constructor.
  - simpl in Hd. apply andb_true_iff in Hd as [Hn Hsub].
    apply bool_decide_eq_true in Hn. rewrite forallb_forall in Hsub.
    simpl. apply listing_NoDup; [done|].
    rewrite Forall_forall in IH |- *. intros d Hd. apply IH; [done|].
    apply Hsub. by apply list_elem_of_In.
Qed.

Lemma rglob_NoDup directory listing ext :
  listing_distinct listing = true → NoDup (rglob directory listing ext).
Proof.
  intros [Hn Hsub]%andb_true_iff. apply bool_decide_eq_true in Hn.
  rewrite forallb_forall in Hsub. apply listing_NoDup; [done|].
  apply Forall_forall. intros d Hd. apply rglob_below_NoDup.
  apply Hsub. by apply list_elem_of_In.
Qed.

Lemma rglob_name directory listing ext p :
  p ∈ rglob directory listing ext →
  ∃ init name, p = init ++ [name] ∧ Str.endswith name ext = true.
Proof.
  unfold rglob. intros [H|H]%elem_of_app.
  - apply matching_elem in H as (d & _ & He & ->). eauto.
  - apply in_flat_map_elem in H as (d & _ & H).
    by apply rglob_below_shape in H as [_ H].
Qed.

(** No name has two of the extensions. *)
Lemma extensions_exclusive name :
  (Str.endswith name (py ".tsx") = true → Str.endswith name (py ".ts") = false)
  ∧ (Str.endswith name (py ".tsx") = true → Str.endswith name (py ".css") = false)
  ∧ (Str.endswith name (py ".ts") = true → Str.endswith name (py ".css") = false).
Proof.
  unfold Str.endswith.
  change (reverse (py ".tsx")) with (py "xst.").
  change (reverse (py ".ts")) with (py "st.").
  change (reverse (py ".css")) with (py "ssc.").
  destruct (reverse name) as [|a [|b r]]; [done| |].
  - simpl. repeat case_decide; subst; done.
  - simpl. repeat case_decide; subst; done.
Qed.

Lemma rglob_disjoint directory listing ext1 ext2 p :
  (∀ name, Str.endswith name ext1 = true → Str.endswith name ext2 = false) →
  p ∈ rglob directory listing ext1 → p ∉ rglob directory listing ext2.
Proof.
  intros Hex (init & name & -> & H1)%rglob_name
    (init' & name' & Heq & H2)%rglob_name.
  apply app_inj_tail in Heq as [_ ->]. apply Hex in H1. congruence.
Qed.

(** In a tree that lists each name once, [find_files] finds no path
    twice. *)
Lemma find_files_NoDup directory listing :
  listing_distinct listing = true →
  NoDup (find_files directory listing FILE_EXTENSIONS).
Proof.
  intros Hl. unfold find_files, FILE_EXTENSIONS. rewrite sorted_Permutation.
  cbn [concat map]. rewrite app_nil_r.
  apply NoDup_app. split; [by apply rglob_NoDup|]. split.
  - intros p Hp [H|H]%elem_of_app; revert H.
    + eapply rglob_disjoint; [|exact Hp].
      intros n. apply (proj1 (extensions_exclusive n)).
    + eapply rglob_disjoint; [|exact Hp].
      intros n. apply (proj1 (proj2 (extensions_exclusive n))).
  - apply NoDup_app. split; [by apply rglob_NoDup|].
    split; [|by apply rglob_NoDup].
    intros p Hp. eapply rglob_disjoint; [|exact Hp].
    intros n. apply (proj2 (proj2 (extensions_exclusive n))).
Qed.

End Enumeration.

(** ** The loop of [main] *)
Section MainLemmas.
Import CssVariableMigration.
Implicit Types (w : World) (rules : list (str * str)) (files : list Path).

Lemma with_changes_cons r rs :
  with_changes (r :: rs) = (if has_changes r then 1 else 0) + with_changes rs.
Proof.
  unfold with_changes. rewrite filter_cons.
  destruct (has_changes r); by rewrite ?decide_True, ?decide_False by done.
Qed.

Lemma all_changes_cons r rs :
  all_changes (r :: rs) = length (changes r) + all_changes rs.
Proof. done. Qed.

Lemma process_all_step project_root rules dry_run f files w m t rs r w1 :
  process_file project_root rules w f dry_run = Ok (r, w1) →
  process_all project_root rules dry_run (f :: files) w m t rs
  = process_all project_root rules dry_run files w1
      (m + if has_changes r then 1 else 0) (t + length (changes r)) (rs ++ [r]).
Proof.
  intros H. cbn [process_all]. rewrite H. simpl. unfold has_changes.
  destruct (changes r); [|done]. simpl. by rewrite !Nat.add_0_r.
Qed.

(** When no path is listed twice, every file is processed as it would be
    in the world the loop started from, whatever happened to the files
    before it, and is left as that call leaves it; the counters are those
    of the results. *)
Lemma process_all_spec project_root rules dry_run files :
  ∀ w0 w m t rs,
    NoDup files →
    (∀ f, f ∈ files → store w !! f = store w0 !! f) →
    (∀ f, f ∈ files →
       ∃ r wf, process_file project_root rules w0 f dry_run = Ok (r, wf)) →
    ∃ w' rs',
      process_all project_root rules dry_run files w m t rs
      = Ok (w', m + with_changes rs', t + all_changes rs', rs ++ rs')
      ∧ Forall2 (λ f r, ∃ wf, process_file project_root rules w0 f dry_run
                              = Ok (r, wf)
                              ∧ store w' !! f = store wf !! f) files rs'
      ∧ (∀ p, p ∉ files → store w' !! p = store w !! p)
      ∧ (Forall (leaves_world dry_run) rs' → w' = w).
Proof.
  induction files as [|f files IH]; intros w0 w m t rs Hnd Hst Hok.
  - exists w, []. simpl. rewrite app_nil_r.
    unfold with_changes, all_changes. simpl. rewrite !Nat.add_0_r.
    split; [done|]. split; [constructor|]. done.
  - apply NoDup_cons in Hnd as [Hf Hnd].
    destruct (Hok f) as (r & wf & Hr); [left|].
    pose proof (process_file_local project_root rules w0 w f dry_run) as Hl.
    rewrite Hr in Hl. destruct Hl as (w1 & H1 & Hsame); [symmetry; apply Hst; left|].
    pose proof (process_file_frame _ _ _ _ _ _ _ H1) as Hframe.
    destruct (IH w0 w1 (m + if has_changes r then 1 else 0)
                (t + length (changes r)) (rs ++ [r]))
      as (w' & rs' & Hall & Hres & Hother & Hleft).
    + done.
    + intros f' Hf'. rewrite Hframe by (intros ->; done).
      apply Hst. by right.
    + intros f' Hf'. apply Hok. by right.
    + exists w', (r :: rs').
      rewrite (process_all_step _ _ _ _ _ _ _ _ _ _ _ H1), Hall.
      rewrite with_changes_cons, all_changes_cons.
      rewrite <- !(assoc_L (++)), !Nat.add_assoc. simpl.
      split; [done|]. split; [|split].
      * constructor; [|done]. exists wf. split; [done|].
        by rewrite Hother, Hsame.
      * intros p Hp. rewrite Hother by (intros ?; apply Hp; by right).
        apply Hframe. intros ->. apply Hp. left.
      * intros [Hr1 Hrs]%Forall_cons. rewrite Hleft by done.
        apply process_file_cases in H1
          as [[-> _]|(content & _ & -> & Hm & He)]; [done|].
        destruct Hr1 as [?|[?|?]]; congruence.
Qed.

(** [main] over rules within the fragment, no path being found twice: it
    ends normally with one result per file found. *)
Lemma main_spec project_root rules listing w dry_run :
  (∀ content, (apply_rules rules content []).1 ≠ Unmodelled) →
  let files := find_files (SEARCH_DIR project_root) listing FILE_EXTENSIONS in
  NoDup files →
  ∃ results w',
    main project_root rules listing w dry_run
    = Ok ({| files_scanned := length files;
             modified_files := with_changes results;
             total_changes := all_changes results |}, results, w')
    ∧ Forall2 (λ f r, ∃ wf, process_file project_root rules w f dry_run
                            = Ok (r, wf)
                            ∧ store w' !! f = store wf !! f) files results
    ∧ (∀ p, p ∉ files → store w' !! p = store w !! p)
    ∧ (Forall (leaves_world dry_run) results → w' = w).
Proof.
  intros Hm files Hnd.
  destruct (process_all_spec project_root rules dry_run files w w 0 0 [])
    as (w' & rs' & Hall & Hres & Hother & Hleft); [done|done| |].
  - intros f [rel ->]%find_files_under. by eapply process_file_total.
  - exists rs', w'. unfold main. fold files. rewrite Hall. simpl.
    split; [done|]. done.
Qed.

End MainLemmas.

(** ** Dry run and apply mode *)
Section Modes.
Import CssVariableMigration.

Lemma REPLACEMENTS_modelled content :
  (apply_rules REPLACEMENTS content []).1 ≠ Unmodelled.
Proof. apply (literals_modelled _ _ _ literals_REPLACEMENTS). Qed.

(** One file in the two modes: the name, the records and the flag are the
    same; the error differs only when the write of apply mode fails; a
    file that is not modified is left alone. *)
Lemma process_file_both_modes project_root rules w f r1 w1 r2 w2 :
  process_file project_root rules w f true = Ok (r1, w1) →
  process_file project_root rules w f false = Ok (r2, w2) →
  file r1 = file r2 ∧ changes r1 = changes r2 ∧ modified r1 = modified r2
  ∧ (error r1 = error r2
     ∨ (error r1 = None ∧ modified r2 = true
        ∧ ∃ content e, Fs.write_text w f content = Raise e
                       ∧ error r2 = Some e))
  ∧ (modified r2 = false → w2 = w).
Proof.
  unfold process_file.
  destruct (Fs.relative_to _ _) as [name|e|]; simpl; [|done..].
  destruct (Fs.read_text w f) as [original|e|];
    [|by intros [= <- <-] [= <- <-]; auto 10|done].
  destruct (apply_rules rules original []) as [[content|e|] chs];
    [|by intros [= <- <-] [= <- <-]; auto 10|done].
  destruct (decide (content ≠ original));
    [|by intros [= <- <-] [= <- <-]; auto 10].
  destruct (Fs.write_text w f content) as [w'|e|] eqn:Hw; [| |done].
  - intros [= <- <-] [= <- <-]. simpl.
    split; [done|]. split; [done|]. split; [done|]. split; [by left|done].
  - intros [= <- <-] [= <- <-]. simpl.
    split; [done|]. split; [done|]. split; [done|]. split; [|done].
    right. split; [done|]. split; [done|]. by exists content, e.
Qed.

Lemma results_in_both_modes project_root rules w files rs1 :
  ∀ (w1 : World),
  Forall2 (λ f r, ∃ wf, process_file project_root rules w f true = Ok (r, wf)
                        ∧ store w1 !! f = store wf !! f) files rs1 →
  ∀ (w2 : World) rs2,
  Forall2 (λ f r, ∃ wf, process_file project_root rules w f false = Ok (r, wf)
                        ∧ store w2 !! f = store wf !! f) files rs2 →
  Forall3 (λ f r1 r2,
             file r1 = file r2 ∧ changes r1 = changes r2
             ∧ modified r1 = modified r2
             ∧ (error r1 = error r2
                ∨ (error r1 = None ∧ modified r2 = true
                   ∧ ∃ content e, Fs.write_text w f content = Raise e
                                  ∧ error r2 = Some e))
             ∧ (modified r2 = false → store w2 !! f = store w !! f))
          files rs1 rs2
  ∧ with_changes rs1 = with_changes rs2 ∧ all_changes rs1 = all_changes rs2.
Proof.
  intros w1 H1 w2.
  induction H1 as [|f r1 files rs1 (wf1 & Hr1 & _) _ IH]; intros rs2 H2.
  - apply Forall2_nil_inv_l in H2 as ->. split; [constructor|done].
  - apply Forall2_cons_inv_l in H2 as (r2 & rs2' & (wf2 & Hr2 & Hst) & H2 & ->).
    destruct (IH _ H2) as (Hall & Hw & Ha).
    destruct (process_file_both_modes _ _ _ _ _ _ _ _ Hr1 Hr2)
      as (Ef & Ec & Em & Ee & Eu).
    split.
    + constructor; [|done]. split; [done|]. split; [done|]. split; [done|].
      split; [done|]. intros Hm. by rewrite Hst, (Eu Hm).
    + rewrite !with_changes_cons, !all_changes_cons. unfold has_changes.
      by rewrite Ec, Hw, Ha.
Qed.

(** C5 (amended).  Dry run and apply mode over the same tree, in which
    no file is found twice (each directory lists a name once, and a path
    names one file): [main] ends in both modes with the same summary
    (files scanned, files modified, total changes) and with results that
    agree, file by file, on the name, the change records and the modified
    flag.  The modes differ in the files and in the error entry: the dry
    run leaves the world as it is and records no failure of a write;
    apply mode records the exception of a write that fails, leaves alone
    every path that is not a file found and every file found whose
    result is not modified. *)
Theorem dry_run_agreement project_root listing w :
  let files := find_files (SEARCH_DIR project_root) listing FILE_EXTENSIONS in
  listing_distinct listing = true →
  ∃ summary results_dry results_apply w_apply,
    main project_root REPLACEMENTS listing w true
    = Ok (summary, results_dry, w)
    ∧ main project_root REPLACEMENTS listing w false
      = Ok (summary, results_apply, w_apply)
    ∧ Forall3 (λ f r1 r2,
                 file r1 = file r2 ∧ changes r1 = changes r2
                 ∧ modified r1 = modified r2
                 ∧ (error r1 = error r2
                    ∨ (error r1 = None ∧ modified r2 = true
                       ∧ ∃ content e, Fs.write_text w f content = Raise e
                                      ∧ error r2 = Some e))
                 ∧ (modified r2 = false
                    → store w_apply !! f = store w !! f))
              files results_dry results_apply
    ∧ (∀ p, p ∉ files → store w_apply !! p = store w !! p).
Proof.
  intros files Hnd%(find_files_NoDup (SEARCH_DIR project_root)).
  destruct (main_spec project_root REPLACEMENTS listing w true
              REPLACEMENTS_modelled Hnd) as (rs1 & w1 & Hm1 & Hr1 & _ & Hw1).
  destruct (main_spec project_root REPLACEMENTS listing w false
              REPLACEMENTS_modelled Hnd) as (rs2 & w2 & Hm2 & Hr2 & Ho2 & _).
  assert (w1 = w) as ->.
  { apply Hw1. apply Forall_forall. intros r _. by left. }
  destruct (results_in_both_modes _ _ _ _ _ _ Hr1 _ _ Hr2) as (Hall & Hw & Ha).
  eexists _, rs1, rs2, w2. split; [exact Hm1|].
  split; [by rewrite Hm2, Hw, Ha|]. done.
Qed.

Lemma dry_run_agreement_witness :
  ∃ summary results_dry results_apply w_apply,
    main Examples.repo REPLACEMENTS Examples.css_listing
      Examples.css_world_read_only true
    = Ok (summary, results_dry, Examples.css_world_read_only)
    ∧ main Examples.repo REPLACEMENTS Examples.css_listing
        Examples.css_world_read_only false
      = Ok (summary, results_apply, w_apply)
    ∧ Forall3 (λ f r1 r2,
                 file r1 = file r2 ∧ changes r1 = changes r2
                 ∧ modified r1 = modified r2
                 ∧ (error r1 = error r2
                    ∨ (error r1 = None ∧ modified r2 = true
                       ∧ ∃ content e,
                           Fs.write_text Examples.css_world_read_only f content
                           = Raise e
                           ∧ error r2 = Some e))
                 ∧ (modified r2 = false
                    → store w_apply !! f
                      = store Examples.css_world_read_only !! f))
              (find_files (SEARCH_DIR Examples.repo) Examples.css_listing
                 FILE_EXTENSIONS)
              results_dry results_apply
    ∧ (∀ p, p ∉ find_files (SEARCH_DIR Examples.repo) Examples.css_listing
                  FILE_EXTENSIONS
            → store w_apply !! p = store Examples.css_world_read_only !! p).
Proof.
  apply (dry_run_agreement Examples.repo Examples.css_listing
           Examples.css_world_read_only).
  vm_compute. reflexivity.
Defined.

(** C5, as stated, fails: for a file that may be read but not written,
    neither mode changes the file system, and yet the results differ:
    apply mode records the [PermissionError] of the write, which the dry
    run does not attempt. *)
Lemma dry_run_misses_write_error :
  ¬ (∀ project_root listing w summary1 results_dry w1
       summary2 results_apply w2,
       main project_root REPLACEMENTS listing w true
       = Ok (summary1, results_dry, w1) →
       main project_root REPLACEMENTS listing w false
       = Ok (summary2, results_apply, w2) →
       results_dry = results_apply).
Proof.
  intros H.
  assert (main Examples.repo REPLACEMENTS Examples.css_listing
            Examples.css_world_read_only true
          = Ok ({| files_scanned := 1; modified_files := 1; total_changes := 2 |},
                [Examples.css_result],
                Examples.css_world_read_only)) as Hdry
    by (vm_compute; reflexivity).
  assert (main Examples.repo REPLACEMENTS Examples.css_listing
            Examples.css_world_read_only false
          = Ok ({| files_scanned := 1; modified_files := 1; total_changes := 2 |},
                [Examples.css_result_write_failed],
                Examples.css_world_read_only)) as Happly
    by (vm_compute; reflexivity).
  pose proof (H Examples.repo Examples.css_listing
                Examples.css_world_read_only _ _ _ _ _ _ Hdry Happly) as Heq.
  apply (f_equal (map error)) in Heq. discriminate Heq.
Qed.

(** A file that is found twice (here a path that is listed twice) is
    counted twice by the dry run and once by apply mode, which finds it
    rewritten the second time: the proviso of C5 is needed. *)
Lemma file_found_twice_counts_differ :
  main Examples.repo REPLACEMENTS
    [FileEnt (py "x.css"); FileEnt (py "x.css")] Examples.css_world true
  = Ok ({| files_scanned := 2; modified_files := 2; total_changes := 4 |},
        [Examples.css_result; Examples.css_result], Examples.css_world)
  ∧ main Examples.repo REPLACEMENTS
      [FileEnt (py "x.css"); FileEnt (py "x.css")] Examples.css_world false
    = Ok ({| files_scanned := 2; modified_files := 1; total_changes := 2 |},
          [Examples.css_result;
           {| file := [py "apps"; py "frontend"; py "src"; py "x.css"];
              changes := []; modified := false; error := None |}],
          Examples.css_world_rewritten).
Proof. split; vm_compute; reflexivity. Qed.

End Modes.

(** ** When a file is written *)
Section WriteBack.
Import CssVariableMigration.

Lemma written_grows (w w' : World) path :
  written w' = written w ++ [path] → w' ≠ w.
Proof.
  intros H ->. apply (f_equal length) in H.
  rewrite length_app in H. simpl in H. lia.
Qed.

Lemma process_file_modified project_root rules w file_path dry_run r w' content :
  process_file project_root rules w file_path dry_run = Ok (r, w') →
  Fs.read_text w file_path = Ok content →
  modified r = true
  ↔ ∃ content', (apply_rules rules content []).1 = Ok content'
                ∧ content' ≠ content.
Proof.
  unfold process_file.
  destruct (Fs.relative_to _ _) as [name|e|]; simpl; [|done..].
  intros H Hread. rewrite Hread in H.
  destruct (apply_rules rules content []) as [[content'|e|] chs]; simpl;
    [| |done].
  - destruct (decide (content' ≠ content)) as [Hne|Heq].
    + assert (modified r = true) as ->.
      { destruct dry_run; [by injection H as <- <-|].
        destruct (Fs.write_text w file_path content'); [| |done];
          by injection H as <- <-. }
      split; [eauto|done].
    + injection H as <- <-. simpl. split; [done|].
      intros (c & [= <-] & Hc). done.
  - injection H as <- <-. simpl. split; [done|]. by intros (c & ? & _).
Qed.

Lemma fix_file_writes w filepath f content :
  store w !! filepath = Some (File f) →
  readable f = true → writable f = true → data f = Some content →
  FixAllDuplicates.fix_file w filepath
  = (true,
     {| store :=
          <[filepath := File {| data := Some (Str.join_nl
                                               (dedupe (Str.split_nl content) false));
                                readable := true; writable := true |}]> (store w);
        written := written w ++ [filepath] |}).
Proof.
  intros Hf Hr Hw Hd. unfold FixAllDuplicates.fix_file.
  rewrite (read_text_readable _ _ _ _ Hf Hr Hd).
  rewrite (write_text_writable _ _ _ _ Hf Hw). by rewrite Hr.
Qed.

(** C6 (amended).  In css-variable-migration a file is written back if and
    only if its rewritten content differs from the original ([modified]),
    dry-run is off and the write succeeds: in dry-run mode nothing is
    ever written and an unchanged file is never written.  The [fix_file]
    of the dedup script has no dry-run mode and makes no comparison: it
    writes back every file it could read, whatever the loop removed. *)
Theorem write_back_condition :
  (∀ project_root rules w file_path dry_run r w',
      process_file project_root rules w file_path dry_run = Ok (r, w') →
      (written w' = written w ++ [file_path]
       ↔ modified r = true ∧ dry_run = false ∧ error r = None)
      ∧ (w' = w ∨ written w' = written w ++ [file_path])
      ∧ (dry_run = true → w' = w)
      ∧ (modified r = false → w' = w)
      ∧ (∀ content, Fs.read_text w file_path = Ok content →
           modified r = true
           ↔ ∃ content', (apply_rules rules content []).1 = Ok content'
                         ∧ content' ≠ content))
  ∧ (∀ w filepath f content,
      store w !! filepath = Some (File f) →
      readable f = true → writable f = true → data f = Some content →
      written (FixAllDuplicates.fix_file w filepath).2
      = written w ++ [filepath]).
Proof.
  split.
  - intros project_root rules w file_path dry_run r w' H.
    pose proof (process_file_cases _ _ _ _ _ _ _ H) as Hc.
    split; [|split; [|split; [|split]]].
    + split.
      * intros Hw.
        destruct Hc as [[-> _]|(content & _ & ? & ? & ?)]; [|done].
        by destruct (written_grows _ _ _ Hw).
      * intros (Hm & Hd & He).
        destruct Hc as [[_ [?|[?|?]]]|(content & Hw & _)]; [congruence..|].
        by apply write_text_store in Hw as [Hw _].
    + destruct Hc as [[-> _]|(content & Hw & _)]; [by left|right].
      by apply write_text_store in Hw as [Hw _].
    + intros ->. destruct Hc as [[-> _]|(content & _ & ? & _)]; done.
    + intros Hm. destruct Hc as [[-> _]|(content & _ & _ & ? & _)];
        [done|congruence].
    + intros content Hread. by eapply process_file_modified.
  - intros w filepath f content Hf Hr Hw Hd.
    by rewrite (fix_file_writes _ _ _ _ Hf Hr Hw Hd).
Qed.

Lemma write_back_condition_witness :
  (written Examples.css_world_rewritten
   = written Examples.css_world ++ [Examples.css_file]
   ↔ modified Examples.css_result = true ∧ false = false
     ∧ error Examples.css_result = None)
  ∧ written (FixAllDuplicates.fix_file Examples.frontend_world
               Examples.frontend_file).2
    = written Examples.frontend_world ++ [Examples.frontend_file].
Proof.
  split.
  - refine (proj1 (proj1 write_back_condition Examples.repo REPLACEMENTS
                     Examples.css_world Examples.css_file false
                     Examples.css_result Examples.css_world_rewritten _)).
    vm_compute. reflexivity.
  - refine (proj2 write_back_condition Examples.frontend_world
              Examples.frontend_file
              {| data := Some (py "export const x = 1"); readable := true;
                 writable := true |} (py "export const x = 1")
              _ eq_refl eq_refl eq_refl).
    vm_compute. reflexivity.
Defined.

(** C6, as stated, fails for the dedup script: a file without any logger
    import, from which no line is removed, is written all the same. *)
Lemma fix_file_writes_unchanged_file :
  ¬ (∀ (w : World) (filepath : Path) (content : str),
       Fs.read_text w filepath = Ok content →
       Str.join_nl (dedupe (Str.split_nl content) false) = content →
       written (FixAllDuplicates.fix_file w filepath).2 = written w).
Proof.
  intros H.
  specialize (H Examples.frontend_world Examples.frontend_file
                (py "export const x = 1")).
  assert (written (FixAllDuplicates.fix_file Examples.frontend_world
                     Examples.frontend_file).2
          = [Examples.frontend_file]) as Hw by (vm_compute; reflexivity).
  rewrite Hw in H. discriminate H; vm_compute; reflexivity.
Qed.

End WriteBack.

(** ** Errors of single files *)
Section Errors.
Import CssVariableMigration.

(** The loop of [main] over files below the search directory: no call of
    [process_file] ends it, and each file is processed in the world the
    files before it have left. *)
Lemma process_all_processed project_root rules dry_run files :
  (∀ content, (apply_rules rules content []).1 ≠ Unmodelled) →
  Forall (λ f, ∃ rel, f = SEARCH_DIR project_root ++ rel) files →
  ∀ w m t rs, ∃ w' rs',
    process_all project_root rules dry_run files w m t rs
    = Ok (w', m + with_changes rs', t + all_changes rs', rs ++ rs')
    ∧ processed project_root rules dry_run w files rs' w'.
Proof.
  intros Hm Hu. induction Hu as [|f files [rel ->] _ IH]; intros w m t rs.
  - exists w, []. unfold with_changes, all_changes. simpl.
    rewrite app_nil_r, !Nat.add_0_r. split; [done|constructor].
  - destruct (process_file_total project_root rules w rel dry_run Hm)
      as (r & w1 & Hr).
    destruct (IH w1 (m + if has_changes r then 1 else 0)
                (t + length (changes r)) (rs ++ [r]))
      as (w' & rs' & Hall & Hp).
    exists w', (r :: rs').
    rewrite (process_all_step _ _ _ _ _ _ _ _ _ _ _ Hr), Hall.
    rewrite with_changes_cons, all_changes_cons.
    rewrite <- !(assoc_L (++)), !Nat.add_assoc. simpl.
    split; [done|]. by econstructor.
Qed.

(** What one call records, for rules that are literal and separated: the
    exception of a failed read, without any record; otherwise the
    records of the rule loop, the flag that tells whether the text has
    changed, which it has exactly when there is a record, and the
    exception of the write, which is attempted in apply mode for a file
    that has changed. *)
Lemma process_file_recorded project_root rules lits w0 f dry_run r w1 :
  literals rules = Some lits → separated lits = true →
  process_file project_root rules w0 f dry_run = Ok (r, w1) →
  match Fs.read_text w0 f with
  | Raise e =>
      error r = Some e ∧ changes r = [] ∧ modified r = false
      ∧ has_changes r = false
  | Ok original =>
      ∃ content,
        apply_rules rules original [] = (Ok content, changes r)
        ∧ modified r = bool_decide (content ≠ original)
        ∧ has_changes r = modified r
        ∧ error r
          = (if modified r && negb dry_run
             then match Fs.write_text w0 f content with
                  | Raise e => Some e
                  | _ => None
                  end
             else None)
  | Unmodelled => False
  end.
Proof.
  intros Hl Hs H.
  destruct (relative_to_Ok _ _ _ _ H) as [name Hrel]; [done|].
  destruct (Fs.read_text w0 f) as [original|e|] eqn:Hread.
  - rewrite (process_file_read _ _ _ _ _ _ _ _ Hl Hrel Hread) in H.
    cbv zeta in H. exists (rewrite lits original).
    rewrite (apply_rules_literals _ _ _ _ Hl). cbn [app].
    pose proof (records_nil_iff _ _ original Hl Hs) as Hiff.
    assert (∀ b, b = bool_decide (rewrite lits original ≠ original) →
                 (match records lits original with [] => false | _ => true end)
                 = b) as Hhas.
    { intros b ->. destruct (records lits original) eqn:E.
      - rewrite bool_decide_eq_false_2; [done|]. intros Hne. by apply Hne, Hiff.
      - rewrite bool_decide_eq_true_2; [done|]. intros Heq.
        by apply Hiff in Heq. }
    destruct (decide (rewrite lits original ≠ original)) as [Hne|Heq].
    + destruct dry_run.
      * injection H as <- <-. unfold has_changes. simpl.
        rewrite bool_decide_eq_true_2 by done.
        split; [done|]. split; [done|]. split; [|done].
        apply Hhas. by rewrite bool_decide_eq_true_2.
      * destruct (Fs.write_text w0 f _) as [w2|e|] eqn:Hw; [| |done];
          injection H as <- <-; unfold has_changes; simpl;
          rewrite bool_decide_eq_true_2 by done;
          (split; [done|]; split; [done|]; split; [|done]);
          apply Hhas; by rewrite bool_decide_eq_true_2.
    + injection H as <- <-. unfold has_changes. simpl.
      rewrite bool_decide_eq_false_2 by done.
      split; [done|]. split; [done|]. split; [|done].
      apply Hhas. by rewrite bool_decide_eq_false_2.
  - rewrite (process_file_unreadable _ _ _ _ _ _ _ Hrel Hread) in H.
    by injection H as <- <-.
  - by destruct (read_text_modelled _ _ Hread).
Qed.

Lemma main_processed project_root rules listing w dry_run :
  (∀ content, (apply_rules rules content []).1 ≠ Unmodelled) →
  let files := find_files (SEARCH_DIR project_root) listing FILE_EXTENSIONS in
  ∃ summary results w',
    main project_root rules listing w dry_run = Ok (summary, results, w')
    ∧ files_scanned summary = length files
    ∧ modified_files summary = with_changes results
    ∧ total_changes summary = all_changes results
    ∧ processed project_root rules dry_run w files results w'.
Proof.
  intros Hm files.
  destruct (process_all_processed project_root rules dry_run files Hm)
    with (w := w) (m := 0) (t := 0) (rs := @nil Result)
    as (w' & rs' & Hall & Hp).
  { apply Forall_forall. intros f Hf. by eapply find_files_under. }
  eexists _, rs', w'. unfold main. fold files. rewrite Hall. simpl.
  split; [done|]. done.
Qed.

(** C7 (amended).  Per-file error isolation in css-variable-migration.
    [main] always ends normally, with one result per file found: the
    files are processed one after the other, each by [process_file] in
    the world the files before it have left, whatever has failed before.
    In each call, a failure of the read is recorded in the result of the
    file, which then has no change record, is not modified and is not
    counted among the files modified; a failure of the write, which is
    attempted in apply mode for a file whose text has changed, is
    recorded in the result as well, but this result keeps its change
    records and its modified flag and is counted among the files
    modified, which are the results with a change record; and no error is
    recorded otherwise. *)
Theorem errors_recorded_per_file project_root listing w dry_run :
  let files := find_files (SEARCH_DIR project_root) listing FILE_EXTENSIONS in
  (∃ summary results w',
      main project_root REPLACEMENTS listing w dry_run
      = Ok (summary, results, w')
      ∧ files_scanned summary = length files
      ∧ modified_files summary = with_changes results
      ∧ total_changes summary = all_changes results
      ∧ processed project_root REPLACEMENTS dry_run w files results w')
  ∧ ∀ w0 f r w1,
      process_file project_root REPLACEMENTS w0 f dry_run = Ok (r, w1) →
      match Fs.read_text w0 f with
      | Raise e =>
          error r = Some e ∧ changes r = [] ∧ modified r = false
          ∧ has_changes r = false
      | Ok original =>
          ∃ content,
            apply_rules REPLACEMENTS original [] = (Ok content, changes r)
            ∧ modified r = bool_decide (content ≠ original)
            ∧ has_changes r = modified r
            ∧ error r
              = (if modified r && negb dry_run
                 then match Fs.write_text w0 f content with
                      | Raise e => Some e
                      | _ => None
                      end
                 else None)
      | Unmodelled => False
      end.
Proof.
  intros files. split.
  - apply main_processed, REPLACEMENTS_modelled.
  - intros w0 f r w1.
    apply (process_file_recorded project_root REPLACEMENTS REPLACEMENT_LITERALS);
      [apply literals_REPLACEMENTS|apply separated_REPLACEMENTS].
Qed.

Lemma errors_recorded_per_file_witness :
  (∃ summary results w',
      main Examples.repo REPLACEMENTS Examples.two_files_listing
        Examples.css_world_read_only false
      = Ok (summary, results, w')
      ∧ files_scanned summary
        = length (find_files (SEARCH_DIR Examples.repo)
                    Examples.two_files_listing FILE_EXTENSIONS)
      ∧ modified_files summary = with_changes results
      ∧ total_changes summary = all_changes results
      ∧ processed Examples.repo REPLACEMENTS false
          Examples.css_world_read_only
          (find_files (SEARCH_DIR Examples.repo)
             Examples.two_files_listing FILE_EXTENSIONS)
          results w')
  ∧ (error Examples.missing_result = Some FileNotFoundError
     ∧ changes Examples.missing_result = []
     ∧ modified Examples.missing_result = false
     ∧ has_changes Examples.missing_result = false)
  ∧ ∃ content,
      apply_rules REPLACEMENTS Examples.two_borders []
      = (Ok content, changes Examples.css_result_write_failed)
      ∧ modified Examples.css_result_write_failed
        = bool_decide (content ≠ Examples.two_borders)
      ∧ has_changes Examples.css_result_write_failed
        = modified Examples.css_result_write_failed
      ∧ error Examples.css_result_write_failed
        = (if modified Examples.css_result_write_failed && negb false
           then match Fs.write_text Examples.css_world_read_only
                        Examples.css_file content with
                | Raise e => Some e
                | _ => None
                end
           else None).
Proof.
  destruct (errors_recorded_per_file Examples.repo Examples.two_files_listing
              Examples.css_world_read_only false) as [Hmain Hcall].
  split; [exact Hmain|]. split.
  - assert (process_file Examples.repo REPLACEMENTS
              Examples.css_world_read_only Examples.missing_file false
            = Ok (Examples.missing_result, Examples.css_world_read_only))
      as Hgone by (vm_compute; reflexivity).
    apply Hcall in Hgone.
    assert (Fs.read_text Examples.css_world_read_only Examples.missing_file
            = Raise FileNotFoundError) as Hread by (vm_compute; reflexivity).
    rewrite Hread in Hgone. exact Hgone.
  - assert (process_file Examples.repo REPLACEMENTS
              Examples.css_world_read_only Examples.css_file false
            = Ok (Examples.css_result_write_failed,
                  Examples.css_world_read_only))
      as Hcss by (vm_compute; reflexivity).
    apply Hcall in Hcss.
    assert (Fs.read_text Examples.css_world_read_only Examples.css_file
            = Ok Examples.two_borders) as Hread by (vm_compute; reflexivity).
    rewrite Hread in Hcss. exact Hcss.
Defined.

(** C7, as stated, fails for a failed write: the file that may be read but
    not written has its two records and its [PermissionError], and is
    counted among the files modified. *)
Lemma write_failure_counted_as_modified :
  ¬ (∀ project_root listing w dry_run summary results w',
       main project_root REPLACEMENTS listing w dry_run
       = Ok (summary, results, w') →
       modified_files summary
       ≤ length (filter (λ r, error r = None) results)).
Proof.
  intros H.
  assert (main Examples.repo REPLACEMENTS Examples.css_listing
            Examples.css_world_read_only false
          = Ok ({| files_scanned := 1; modified_files := 1; total_changes := 2 |},
                [Examples.css_result_write_failed],
                Examples.css_world_read_only)) as Hm
    by (vm_compute; reflexivity).
  apply H in Hm. vm_compute in Hm. lia.
Qed.

Lemma literals_compile rules lits :
  literals rules = Some lits →
  Forall (λ rule, ∃ lit, Re.compile rule.1 = Re.Literal lit) rules.
Proof.
  intros H%mapM_Some.
  induction H as [|rule [q r] ?? H _ IH]; constructor; [|done].
  apply literal_rule_Some in H as (H & _). eauto.
Qed.

Lemma apply_rules_malformed good bad replacement rest lits msg content :
  literals good = Some lits → Re.compile bad = Re.Malformed msg →
  apply_rules (good ++ (bad, replacement) :: rest) content []
  = (Raise (re_error msg), records lits content).
Proof.
  intros Hl Hc. rewrite apply_rules_app, (apply_rules_literals _ _ _ _ Hl).
  cbn [apply_rules]. unfold Re.finditer, Re.with_pattern. by rewrite Hc.
Qed.

(** C8 (amended).  The script does not validate its patterns before the
    run.  Every pattern of REPLACEMENTS compiles, so with the table as it
    is no pattern error arises.  With a table in which a pattern is
    malformed, after rules that compile, the error is raised inside
    [process_file], after the file has been read: it is recorded as the
    error of every file that could be read, together with the records of
    the rules before it; nothing is written, and [main] ends normally,
    with all files scanned. *)
Theorem malformed_pattern_is_per_file_error
    project_root good bad replacement rest lits msg :
  literals good = Some lits → Re.compile bad = Re.Malformed msg →
  let rules := good ++ (bad, replacement) :: rest in
  Forall (λ rule, ∃ lit, Re.compile rule.1 = Re.Literal lit) REPLACEMENTS
  ∧ (∀ w rel content dry_run,
       Fs.read_text w (SEARCH_DIR project_root ++ rel) = Ok content →
       process_file project_root rules w (SEARCH_DIR project_root ++ rel) dry_run
       = Ok ({| file := [py "apps"; py "frontend"; py "src"] ++ rel;
                changes := records lits content;
                modified := false;
                error := Some (re_error msg) |}, w))
  ∧ (∀ listing w dry_run,
       listing_distinct listing = true →
       ∃ summary results,
         main project_root rules listing w dry_run = Ok (summary, results, w)
         ∧ files_scanned summary
           = length (find_files (SEARCH_DIR project_root) listing FILE_EXTENSIONS)
         ∧ Forall (λ r, error r ≠ None) results).
Proof.
  intros Hl Hc rules. split; [|split].
  - apply (literals_compile _ _ literals_REPLACEMENTS).
  - intros w rel content dry_run Hread. unfold process_file.
    rewrite relative_to_root. simpl. rewrite Hread.
    unfold rules. by rewrite (apply_rules_malformed _ _ _ _ _ _ _ Hl Hc).
  - intros listing w dry_run Hnd%(find_files_NoDup (SEARCH_DIR project_root)).
    assert (∀ content, (apply_rules rules content []).1 ≠ Unmodelled) as Hmod.
    { intros content. unfold rules.
      by rewrite (apply_rules_malformed _ _ _ _ _ _ _ Hl Hc). }
    destruct (main_spec project_root rules listing w dry_run Hmod Hnd)
      as (rs & w' & Hm & Hr & _ & Hleft).
    assert (Forall (λ r, error r ≠ None) rs) as Herr.
    { assert (Forall (λ f, ∃ rel, f = SEARCH_DIR project_root ++ rel)
                (find_files (SEARCH_DIR project_root) listing FILE_EXTENSIONS))
        as Hu.
      { apply Forall_forall. intros f Hf. by eapply find_files_under. }
      clear Hm Hleft Hnd. induction Hr as [|f r fs rs' (wf & Hf & _) _ IH];
        [constructor|].
      apply Forall_cons in Hu as [[rel ->] Hu]. constructor; [|by apply IH].
      unfold process_file in Hf. rewrite relative_to_root in Hf. simpl in Hf.
      destruct (Fs.read_text w _) as [content|e|] eqn:Hread.
      - unfold rules in Hf.
        rewrite (apply_rules_malformed _ _ _ _ _ _ _ Hl Hc) in Hf.
        by injection Hf as <- <-.
      - by injection Hf as <- <-.
      - done. }
    assert (w' = w) as ->.
    { apply Hleft. eapply Forall_impl; [exact Herr|].
      intros r Hr'. right. by right. }
    eexists _, rs. split; [exact Hm|]. done.
Qed.

Lemma malformed_pattern_is_per_file_error_witness :
  process_file Examples.repo Examples.malformed_rules Examples.css_world
    Examples.css_file false
  = Ok (Examples.css_result_bad_pattern, Examples.css_world).
Proof.
  refine (proj1 (proj2 (malformed_pattern_is_per_file_error Examples.repo
                          [(py "var\(--muted\)", py "var(--color-muted)")]
                          (py "var\(--border)") (py "var(--color-border)") []
                          [(py "var(--muted)", py "var(--color-muted)")]
                          "unbalanced parenthesis" _ _))
            Examples.css_world [py "x.css"] Examples.two_borders false _);
    vm_compute; reflexivity.
Defined.

(** C8, as stated, fails: with a malformed pattern in the table the run
    does not abort; [main] ends normally and the [re.error] is the recorded
    error of the file. *)
Lemma malformed_pattern_does_not_abort :
  ¬ (∀ project_root rules listing w dry_run,
       (∃ rule msg, rule ∈ rules ∧ Re.compile rule.1 = Re.Malformed msg) →
       ∀ summary results w',
         main project_root rules listing w dry_run
         = Ok (summary, results, w') →
         Forall (λ r, ∀ msg, error r ≠ Some (re_error msg)) results).
Proof.
  intros H.
  assert (main Examples.repo Examples.malformed_rules Examples.css_listing
            Examples.css_world false
          = Ok ({| files_scanned := 1; modified_files := 0; total_changes := 0 |},
                [Examples.css_result_bad_pattern], Examples.css_world)) as Hm
    by (vm_compute; reflexivity).
  apply H in Hm.
  - apply Forall_cons in Hm as [Hm _]. by apply (Hm "unbalanced parenthesis").
  - exists (py "var\(--border)", py "var(--color-border)"),
      "unbalanced parenthesis".
    split; [|vm_compute; reflexivity]. right. left.
Qed.

End Errors.

(** ** The order in which files are visited *)
Section Order.
Import CssVariableMigration.

#[local] Instance path_le_total : Total Fs.path_le.
Proof.
  intros p q. unfold Fs.path_le, Fs.path_lt.
  destruct (trichotomy lexico p q) as [?|[?|?]]; auto.
Qed.

#[local] Instance path_le_trans : Transitive Fs.path_le.
Proof.
  intros p q r [->|H1] [->|H2]; unfold Fs.path_le; auto.
  right. unfold Fs.path_lt in *. by etrans.
Qed.

#[local] Instance path_le_antisymm : AntiSymm (=) Fs.path_le.
Proof.
  intros p q [->|H1] [?|H2]; try done.
  destruct (irreflexivity lexico p). unfold Fs.path_lt in *. by etrans.
Qed.

Lemma sorted_Sorted paths : StronglySorted Fs.path_le (Fs.sorted paths).
Proof. apply StronglySorted_merge_sort; apply _. Qed.

(** Sorting forgets the order of its input. *)
Lemma sorted_unique paths paths' :
  paths ≡ₚ paths' → Fs.sorted paths = Fs.sorted paths'.
Proof.
  intros H. apply (Sorted_unique Fs.path_le).
  - apply Sorted_merge_sort, _.
  - apply Sorted_merge_sort, _.
  - by rewrite !sorted_Permutation.
Qed.

Lemma flat_map_pointwise {A B} (f g : A → list B) l :
  (∀ x, f x ≡ₚ g x) → flat_map f l ≡ₚ flat_map g l.
Proof.
  intros Hfg. induction l as [|x l IH]; simpl; [done|]. by rewrite IH, Hfg.
Qed.

Lemma flat_map_reorder {A B} (f : A → list B) l l' :
  l ≡ₚ l' → flat_map f l ≡ₚ flat_map f l'.
Proof.
  intros H. induction H as [|x l l' _ IH|x y l|l l' l'' _ IH1 _ IH2]; simpl.
  - done.
  - by rewrite IH.
  - rewrite !(assoc_L (++)). by rewrite (comm (++) (f y)).
  - by etrans.
Qed.

Lemma flat_map_Permutation {A B} (f g : A → list B) l l' :
  (∀ x, f x ≡ₚ g x) → l ≡ₚ l' → flat_map f l ≡ₚ flat_map g l'.
Proof.
  intros Hfg H. etrans; [by apply flat_map_reorder|].
  by apply flat_map_pointwise.
Qed.

Lemma rglob_Permutation directory listing listing' ext :
  listing ≡ₚ listing' →
  rglob directory listing ext ≡ₚ rglob directory listing' ext.
Proof.
  intros H. unfold rglob, matching. apply Permutation_app.
  - apply Permutation_map. by rewrite H.
  - by apply flat_map_Permutation.
Qed.

Lemma visited_files top names :
  FixOrphaned.visited top (map FileEnt names)
  = map (λ n, top ++ [n]) (filter (λ n, Str.endswith n (py ".ts") = true) names).
Proof.
  unfold FixOrphaned.visited, FixOrphaned.walk. simpl.
  assert (flat_map (FixOrphaned.walk_below top) (map FileEnt names) = []) as ->.
  { induction names as [|n names IH]; simpl; done. }
  simpl. rewrite app_nil_r. f_equal. f_equal.
  unfold FixOrphaned.filenames.
  induction names as [|n names IH]; simpl; [done|].
  by rewrite IH.
Qed.

(** C9 (amended).  [find_files] of css-variable-migration returns the
    candidates sorted in path order (component by component, components by
    code point), and the result does not depend on the order in which the
    directory tree and the extension set are enumerated, so two runs over
    an unchanged tree visit the files in the same order.  The walk of
    fix_orphaned visits the files of a directory in the order the
    directory lists them. *)
Theorem find_files_sorted_and_order_independent directory listing extensions :
  StronglySorted Fs.path_le (find_files directory listing extensions)
  ∧ find_files directory listing extensions
    ≡ₚ concat (map (rglob directory listing) extensions)
  ∧ (∀ listing' extensions',
       concat (map (rglob directory listing') extensions')
       ≡ₚ concat (map (rglob directory listing) extensions) →
       find_files directory listing' extensions'
       = find_files directory listing extensions)
  ∧ (∀ listing' extensions',
       listing' ≡ₚ listing → extensions' ≡ₚ extensions →
       find_files directory listing' extensions'
       = find_files directory listing extensions)
  ∧ (∀ top names,
       FixOrphaned.visited top (map FileEnt names)
       = map (λ n, top ++ [n])
             (filter (λ n, Str.endswith n (py ".ts") = true) names)).
Proof.
  split; [apply sorted_Sorted|]. split; [apply sorted_Permutation|].
  split; [|split].
  - intros listing' extensions' H. by apply sorted_unique.
  - intros listing' extensions' Hl He. apply sorted_unique.
    rewrite <- !flat_map_concat_map. apply flat_map_Permutation; [|done].
    intros ext. by apply rglob_Permutation.
  - apply visited_files.
Qed.

Lemma find_files_sorted_and_order_independent_witness :
  find_files [py "src"] (reverse Examples.unsorted_listing) [py ".css"; py ".ts"]
  = find_files [py "src"] Examples.unsorted_listing [py ".ts"; py ".css"].
Proof.
  apply (proj1 (proj2 (proj2 (proj2
           (find_files_sorted_and_order_independent [py "src"]
              Examples.unsorted_listing [py ".ts"; py ".css"]))))).
  - apply Permutation_swap.
  - apply Permutation_swap.
Defined.

(** C9, as stated, fails for fix_orphaned: the files of a directory that
    lists [b.ts] before [a.ts] are visited in that order. *)
Lemma walk_order_not_sorted :
  ¬ (∀ top listing, Sorted Fs.path_le (FixOrphaned.visited top listing)).
Proof.
  intros H. specialize (H [py "src"] Examples.unsorted_listing).
  assert (bool_decide (Sorted Fs.path_le
                         (FixOrphaned.visited [py "src"]
                            Examples.unsorted_listing)) = true) as Hb
    by (by apply bool_decide_eq_true_2).
  vm_compute in Hb. discriminate.
Qed.

End Order.

(** ** Lines *)
Section Lines.
Implicit Types (s l : str) (ls : list str).

Lemma split_nl_nonempty s : Str.split_nl s ≠ [].
Proof.
  destruct s as [|c s]; [done|]. simpl.
  destruct (decide (c = NL)); [done|]. by destruct (Str.split_nl s).
Qed.

Lemma split_nl_cons_other c s :
  c ≠ NL →
  Str.split_nl (c :: s)
  = (c :: hd [] (Str.split_nl s)) :: tail (Str.split_nl s).
Proof.
  intros Hc. simpl. rewrite decide_False by done.
  pose proof (split_nl_nonempty s). by destruct (Str.split_nl s).
Qed.

Lemma split_nl_line l : NL ∉ l → Str.split_nl l = [l].
Proof.
  induction l as [|c l IH]; [done|]. intros [Hc Hl]%not_elem_of_cons.
  rewrite split_nl_cons_other by done. by rewrite IH.
Qed.

Lemma split_nl_app l s :
  NL ∉ l → Str.split_nl (l ++ NL :: s) = l :: Str.split_nl s.
Proof.
  induction l as [|c l IH].
  - intros _. cbn [app Str.split_nl]. by rewrite decide_True.
  - intros [Hc Hl]%not_elem_of_cons. simpl app.
    rewrite split_nl_cons_other by done. by rewrite IH.
Qed.

(** Splitting what was joined gives the lines back. *)
Lemma split_join ls :
  ls ≠ [] → Forall (λ l, NL ∉ l) ls → Str.split_nl (Str.join_nl ls) = ls.
Proof.
  induction ls as [|l [|l' ls] IH]; [done| |].
  - intros _ [Hl _]%Forall_cons. simpl. by apply split_nl_line.
  - intros _ [Hl Hls]%Forall_cons.
    change (Str.join_nl (l :: l' :: ls)) with (l ++ NL :: Str.join_nl (l' :: ls)).
    rewrite split_nl_app by done. by rewrite IH.
Qed.

(** Joining what was split gives the text back. *)
Lemma join_split s : Str.join_nl (Str.split_nl s) = s.
Proof.
  induction s as [|c s IH]; [done|].
  destruct (decide (c = NL)) as [->|Hc].
  - cbn [Str.split_nl]. rewrite decide_True by done.
    pose proof (split_nl_nonempty s).
    destruct (Str.split_nl s) as [|l ls] eqn:E; [done|].
    change (Str.join_nl ([] :: l :: ls)) with (NL :: Str.join_nl (l :: ls)).
    by rewrite IH.
  - rewrite split_nl_cons_other by done.
    pose proof (split_nl_nonempty s).
    destruct (Str.split_nl s) as [|l ls] eqn:E; [done|]. simpl hd. simpl tail.
    rewrite <- IH. by destruct ls.
Qed.

Lemma split_nl_lines s : Forall (λ l, NL ∉ l) (Str.split_nl s).
Proof.
  induction s as [|c s IH].
  - constructor; [apply not_elem_of_nil|constructor].
  - destruct (decide (c = NL)) as [->|Hc].
    + cbn [Str.split_nl]. rewrite decide_True by done.
      constructor; [apply not_elem_of_nil|done].
    + rewrite split_nl_cons_other by done.
      pose proof (split_nl_nonempty s).
      destruct (Str.split_nl s) as [|l ls]; [done|].
      apply Forall_cons in IH as [Hl Hls]. simpl.
      constructor; [|done]. by apply not_elem_of_cons.
Qed.

(** The loop of the dedup scripts deletes lines and does nothing else. *)
Lemma dedupe_sublist ls seen : dedupe ls seen `sublist_of` ls.
Proof.
  revert seen. induction ls as [|l ls IH]; intros seen; simpl; [done|].
  destruct (Str.contains LOGGER_IMPORT l); simpl.
  - destruct seen; [by apply sublist_cons|by apply sublist_skip].
  - by apply sublist_skip.
Qed.

Lemma dedupe_keeps_first_line l ls :
  dedupe (l :: ls) false ≠ [].
Proof. simpl. by destruct (Str.contains LOGGER_IMPORT l). Qed.

Lemma dedupe_seen ls :
  dedupe ls true = filter (λ l, Str.contains LOGGER_IMPORT l = false) ls.
Proof.
  induction ls as [|l ls IH]; [done|]. simpl. rewrite filter_cons.
  destruct (Str.contains LOGGER_IMPORT l); simpl.
  - done.
  - by rewrite IH.
Qed.

(** The first line with the import is kept as it is, where it is; the
    later ones are the lines deleted. *)
Lemma dedupe_first_import ls1 l ls2 :
  Forall (λ l', Str.contains LOGGER_IMPORT l' = false) ls1 →
  Str.contains LOGGER_IMPORT l = true →
  dedupe (ls1 ++ l :: ls2) false
  = ls1 ++ l :: filter (λ l', Str.contains LOGGER_IMPORT l' = false) ls2.
Proof.
  intros H Hl. induction H as [|l' ls1 Hl' _ IH]; simpl.
  - by rewrite Hl, dedupe_seen.
  - by rewrite Hl', IH.
Qed.

(** What [fix_file] writes: its lines are lines of the text read, in
    their order; when none is deleted the text is the one read. *)
Lemma fix_file_lines content :
  let new_content := Str.join_nl (dedupe (Str.split_nl content) false) in
  Str.split_nl new_content = dedupe (Str.split_nl content) false
  ∧ Str.split_nl new_content `sublist_of` Str.split_nl content
  ∧ (dedupe (Str.split_nl content) false = Str.split_nl content →
     new_content = content).
Proof.
  intros new_content.
  assert (Str.split_nl new_content = dedupe (Str.split_nl content) false) as H.
  { apply split_join.
    - pose proof (split_nl_nonempty content).
      destruct (Str.split_nl content); [done|]. apply dedupe_keeps_first_line.
    - apply Forall_forall. intros l Hl.
      apply (proj1 (Forall_forall _ _) (split_nl_lines content)).
      eapply elem_of_sublist; [exact Hl|apply dedupe_sublist]. }
  split; [done|]. split.
  - rewrite H. apply dedupe_sublist.
  - intros Heq. unfold new_content. rewrite Heq. apply join_split.
Qed.

(** C10 fails on the code: after a call line, the loop of
    fix_orphaned_syntax appends the first line that is no orphaned
    property and leaves the inner loop without advancing, so that the
    outer loop appends the same line again.  For a file of two lines, the
    call and [foo], the file written has three lines, [foo] twice, while
    the count returned is 0; its lines are no subsequence of the lines
    read. *)
Theorem orphan_pass_repeats_kept_line :
  FixOrphaned.outer (Str.split_nl Examples.call_then_line)
  = (map py ["handleErrorEnhanced(e)"; "foo"; "foo"], 0)
  ∧ (FixOrphaned.fix_orphaned_syntax Examples.call_world
       Examples.backend_file).1 = 0
  ∧ Fs.read_text (FixOrphaned.fix_orphaned_syntax Examples.call_world
                    Examples.backend_file).2 Examples.backend_file
    = Ok (Examples.text_of ["handleErrorEnhanced(e)"; "foo"; "foo"])
  ∧ ¬ Str.split_nl (Examples.text_of ["handleErrorEnhanced(e)"; "foo"; "foo"])
      `sublist_of` Str.split_nl Examples.call_then_line.
Proof.
  split; [by vm_compute|]. split; [by vm_compute|]. split; [by vm_compute|].
  intros H%sublist_length. vm_compute in H. lia.
Qed.

End Lines.

(** * Further properties *)

(** ** Change records and the modified flag *)
Section RecordsAndFlag.
Import CssVariableMigration.
Implicit Types (rules lits : list (str * str)) (content : str).

Lemma Forall2_right {A B} (P : A → B → Prop) (Q : B → Prop) l k :
  Forall2 P l k → (∀ x y, P x y → Q y) → Forall Q k.
Proof. intros H HPQ. induction H; constructor; eauto. Qed.

Lemma has_changes_true r : has_changes r = true ↔ changes r ≠ [].
Proof. unfold has_changes. by destruct (changes r). Qed.

Lemma process_file_flag project_root rules lits w file_path dry_run r w' :
  literals rules = Some lits → separated lits = true →
  process_file project_root rules w file_path dry_run = Ok (r, w') →
  modified r = true ↔ changes r ≠ [].
Proof.
  intros Hl Hs H.
  destruct (relative_to_Ok _ _ _ _ H) as [name Hrel]; [done|].
  destruct (Fs.read_text w file_path) as [content|e|] eqn:Hread.
  - rewrite (process_file_read _ _ _ _ _ _ _ _ Hl Hrel Hread) in H.
    cbv zeta in H.
    pose proof (records_nil_iff _ _ content Hl Hs) as Hiff.
    destruct (decide (rewrite lits content ≠ content)) as [Hne|Heq].
    + assert (modified r = true ∧ changes r = records lits content) as [-> ->].
      { destruct dry_run; [by injection H as <- <-|].
        destruct (Fs.write_text w file_path _); [| |done];
          by injection H as <- <-. }
      split; [|done]. intros _ Hnil. by apply Hne, Hiff.
    + injection H as <- <-. simpl. apply dec_stable in Heq.
      split; [done|]. intros Hnil. by destruct Hnil; apply Hiff.
  - rewrite (process_file_unreadable _ _ _ _ _ _ _ Hrel Hread) in H.
    by injection H as <- <-.
  - by destruct (read_text_modelled _ _ Hread).
Qed.

Lemma with_changes_modified (rs : list Result) :
  Forall (λ r, modified r = true ↔ changes r ≠ []) rs →
  with_changes rs = length (filter (λ r, modified r = true) rs).
Proof.
  induction 1 as [|r rs Hr _ IH]; [done|].
  rewrite with_changes_cons, filter_cons, IH.
  rewrite <- has_changes_true in Hr.
  destruct (has_changes r) eqn:E.
  - rewrite decide_True by by apply Hr. done.
  - rewrite decide_False; [done|]. rewrite Hr. done.
Qed.

Lemma main_flag project_root rules lits listing w dry_run summary results w' :
  literals rules = Some lits → separated lits = true →
  listing_distinct listing = true →
  main project_root rules listing w dry_run = Ok (summary, results, w') →
  Forall (λ r, modified r = true ↔ changes r ≠ []) results
  ∧ modified_files summary
    = length (filter (λ r, modified r = true) results).
Proof.
  intros Hl Hs Hnd%(find_files_NoDup (SEARCH_DIR project_root)) Hmain.
  destruct (main_spec project_root rules listing w dry_run
              (λ c, literals_modelled _ _ c Hl) Hnd)
    as (rs & w2 & Hm & Hr & _ & _).
  rewrite Hm in Hmain. injection Hmain as <- <- <-. simpl.
  assert (Forall (λ r, modified r = true ↔ changes r ≠ []) rs) as Hall.
  { apply (Forall2_right _ _ _ _ Hr). intros f r (wf & Hf & _).
    by eapply process_file_flag. }
  split; [done|]. by apply with_changes_modified.
Qed.

Lemma modified_flags_of_records
    project_root listing w dry_run summary results w' :
  listing_distinct listing = true →
  main project_root REPLACEMENTS listing w dry_run
  = Ok (summary, results, w') →
  Forall (λ r, modified r = true ↔ changes r ≠ []) results
  ∧ modified_files summary
    = length (filter (λ r, modified r = true) results).
Proof.
  apply (main_flag project_root REPLACEMENTS REPLACEMENT_LITERALS);
    [apply literals_REPLACEMENTS|apply separated_REPLACEMENTS].
Qed.

(** X1.  Over the table of the script, [process_file] sets [modified]
    exactly when it has recorded a change, so that the number printed as
    files modified, which [main] counts by the records, is the number of
    results whose [modified] flag is set. *)
Theorem modified_files_counts_modified_flags
    project_root listing w dry_run summary results w' :
  listing_distinct listing = true →
  main project_root REPLACEMENTS listing w dry_run
  = Ok (summary, results, w') →
  Forall (λ r, modified r = true ↔ changes r ≠ []) results
  ∧ modified_files summary
    = length (filter (λ r, modified r = true) results).
Proof. apply modified_flags_of_records. Qed.

Lemma modified_files_counts_modified_flags_witness :
  Forall (λ r, modified r = true ↔ changes r ≠ [])
    [Examples.css_result_write_failed]
  ∧ 1 = length (filter (λ r, modified r = true)
                  [Examples.css_result_write_failed]).
Proof.
  refine (modified_files_counts_modified_flags Examples.repo
            Examples.css_listing Examples.css_world_read_only false
            {| files_scanned := 1; modified_files := 1; total_changes := 2 |}
            [Examples.css_result_write_failed] Examples.css_world_read_only
            _ _); vm_compute; reflexivity.
Defined.

End RecordsAndFlag.

(** ** What a run leaves in a file *)
Section AfterRun.
Import CssVariableMigration.
Implicit Types (rules lits : list (str * str)) (content : str).

(** The text a file holds after [process_file] has ended without error. *)
Lemma process_file_stored project_root rules lits w file_path dry_run r w' content :
  literals rules = Some lits →
  process_file project_root rules w file_path dry_run = Ok (r, w') →
  Fs.read_text w file_path = Ok content →
  changes r = records lits content
  ∧ (error r = None → dry_run = false →
     Fs.read_text w' file_path = Ok (rewrite lits content)).
Proof.
  intros Hl H Hread.
  destruct (relative_to_Ok _ _ _ _ H) as [name Hrel]; [done|].
  rewrite (process_file_read _ _ _ _ _ _ _ _ Hl Hrel Hread) in H.
  cbv zeta in H.
  destruct (decide (rewrite lits content ≠ content)) as [Hne|Heq].
  - destruct dry_run; [by injection H as <- <-|].
    destruct (Fs.write_text w file_path (rewrite lits content))
      as [w1|e|] eqn:Hw; [| |done].
    + injection H as <- <-. split; [done|]. intros _ _.
      by eapply read_after_write.
    + by injection H as <- <-.
  - injection H as <- <-. split; [done|]. intros _ _.
    apply dec_stable in Heq. by rewrite Heq.
Qed.

Lemma finditer_absent rules lits text :
  literals rules = Some lits →
  Forall (λ l, Str.contains l.1 text = false) lits →
  Forall (λ rule, Re.finditer rule.1 text = Ok []) rules.
Proof.
  intros H%mapM_Some.
  induction H as [|rule [q r] rules lits H _ IH]; intros Habs; [constructor|].
  apply Forall_cons in Habs as [Hq Habs]. constructor; [|by apply IH].
  apply literal_rule_Some in H as (Hc & Hne & _).
  unfold Re.finditer, Re.with_pattern. rewrite Hc. by rewrite scan_absent.
Qed.

Lemma process_file_clean project_root rules lits w file_path r w' :
  literals rules = Some lits → separated lits = true →
  process_file project_root rules w file_path false = Ok (r, w') →
  error r = None →
  ∃ text, Fs.read_text w' file_path = Ok text
          ∧ Forall (λ rule, Re.finditer rule.1 text = Ok []) rules.
Proof.
  intros Hl Hs H He.
  destruct (relative_to_Ok _ _ _ _ H) as [name Hrel]; [done|].
  destruct (Fs.read_text w file_path) as [content|e|] eqn:Hread.
  - destruct (process_file_stored _ _ _ _ _ _ _ _ _ Hl H Hread) as [_ Hst].
    exists (rewrite lits content). split; [by apply Hst|].
    apply (finditer_absent _ _ _ Hl).
    apply rewrite_removes; [by eapply literals_nonempty|by apply separated_spec].
  - rewrite (process_file_unreadable _ _ _ _ _ _ _ Hrel Hread) in H.
    by injection H as <- <-.
  - by destruct (read_text_modelled _ _ Hread).
Qed.

(** X2.  After [process_file] has ended in apply mode without error, the
    file holds a text in which no pattern of the table matches any more:
    none of the old variable forms is left. *)
Theorem no_old_variable_left project_root w file_path r w' :
  process_file project_root REPLACEMENTS w file_path false = Ok (r, w') →
  error r = None →
  ∃ text, Fs.read_text w' file_path = Ok text
          ∧ Forall (λ rule, Re.finditer rule.1 text = Ok []) REPLACEMENTS.
Proof.
  apply (process_file_clean project_root REPLACEMENTS REPLACEMENT_LITERALS);
    [apply literals_REPLACEMENTS|apply separated_REPLACEMENTS].
Qed.

Lemma no_old_variable_left_witness :
  ∃ text, Fs.read_text Examples.css_world_rewritten Examples.css_file = Ok text
          ∧ Forall (λ rule, Re.finditer rule.1 text = Ok []) REPLACEMENTS.
Proof.
  refine (no_old_variable_left Examples.repo Examples.css_world
            Examples.css_file Examples.css_result
            Examples.css_world_rewritten _ eq_refl).
  vm_compute. reflexivity.
Defined.

Lemma contains_prefix p q s :
  Str.startswith q p = true →
  Str.contains q s = true → Str.contains p s = true.
Proof.
  intros [t ->]%startswith_prefix (a & b & ->)%contains_occurrence.
  apply contains_occurrence. exists a, (t ++ b). by rewrite <- (assoc_L (++)).
Qed.

Lemma process_file_untouched project_root rules lits pre w file_path content
    dry_run r w' :
  literals rules = Some lits →
  Forall (λ l, Str.startswith l.1 pre = true) lits →
  Fs.read_text w file_path = Ok content →
  Str.contains pre content = false →
  process_file project_root rules w file_path dry_run = Ok (r, w') →
  changes r = [] ∧ modified r = false ∧ error r = None ∧ w' = w.
Proof.
  intros Hl Hpre Hread Hc H.
  destruct (relative_to_Ok _ _ _ _ H) as [name Hrel]; [done|].
  rewrite (process_file_read _ _ _ _ _ _ _ _ Hl Hrel Hread) in H.
  cbv zeta in H.
  destruct (rewrite_fixed lits content) as [Hrw Hrec].
  - by eapply literals_nonempty.
  - eapply Forall_impl; [exact Hpre|]. intros [q r'] Hq. simpl in *.
    destruct (Str.contains q content) eqn:E; [|done].
    by rewrite (contains_prefix _ _ _ Hq E) in Hc.
  - rewrite Hrw, Hrec in H. rewrite decide_False in H by (intros ?; done).
    by injection H as <- <-.
Qed.

Lemma REPLACEMENTS_prefix :
  Forall (λ l : str * str, Str.startswith l.1 (py "var(--") = true)
    REPLACEMENT_LITERALS.
Proof.
  apply Forall_forall. intros l Hl.
  assert (forallb (λ l : str * str, Str.startswith l.1 (py "var(--"))
            REPLACEMENT_LITERALS = true) as H by (vm_compute; reflexivity).
  rewrite forallb_forall in H. apply H. by apply list_elem_of_In.
Qed.

(** X3.  A file whose text does not contain [var(--] is left alone by
    [process_file] in either mode: no record, [modified = False], no error,
    and the world is as before. *)
Theorem file_without_variables_untouched
    project_root w file_path content dry_run r w' :
  Fs.read_text w file_path = Ok content →
  Str.contains (py "var(--") content = false →
  process_file project_root REPLACEMENTS w file_path dry_run = Ok (r, w') →
  changes r = [] ∧ modified r = false ∧ error r = None ∧ w' = w.
Proof.
  apply (process_file_untouched project_root REPLACEMENTS REPLACEMENT_LITERALS);
    [apply literals_REPLACEMENTS|apply REPLACEMENTS_prefix].
Qed.

Lemma file_without_variables_untouched_witness :
  changes MoreExamples.plain_css_result = []
  ∧ modified MoreExamples.plain_css_result = false
  ∧ error MoreExamples.plain_css_result = None
  ∧ MoreExamples.plain_css_world = MoreExamples.plain_css_world.
Proof.
  refine (file_without_variables_untouched Examples.repo
            MoreExamples.plain_css_world Examples.css_file
            MoreExamples.plain_css false MoreExamples.plain_css_result
            MoreExamples.plain_css_world _ _ _); vm_compute; reflexivity.
Defined.

End AfterRun.

(** ** The records of a file *)
Section RecordsValid.
Import CssVariableMigration.
Implicit Types (rules lits : list (str * str)) (content : str).

Lemma count_nl_take k s : Str.count_nl (take k s) ≤ Str.count_nl s.
Proof.
  revert k. induction s as [|c s IH]; intros [|k]; simpl; try lia.
  specialize (IH k). lia.
Qed.

Lemma length_split_nl s : length (Str.split_nl s) = Str.count_nl s + 1.
Proof.
  induction s as [|c s IH]; [done|].
  destruct (decide (c = NL)) as [->|Hc].
  - cbn [Str.split_nl Str.count_nl]. rewrite !decide_True by done.
    simpl. by rewrite IH.
  - rewrite split_nl_cons_other by done. cbn [Str.count_nl].
    rewrite decide_False by done. simpl. rewrite <- IH.
    pose proof (split_nl_nonempty s). by destruct (Str.split_nl s).
Qed.

Lemma records_valid lits content :
  Forall (λ l, l.1 ≠ [] ∧ (NL ∉ l.1) ∧ (NL ∉ l.2)) lits →
  Forall (λ c, 1 ≤ line c ≤ Str.count_nl content + 1
               ∧ (old c, new c) ∈ lits) (records lits content).
Proof.
  intros H. revert content.
  induction H as [|[q r] lits (Hq & Hnq & Hnr) _ IH]; intros content;
    [constructor|].
  simpl. apply Forall_app. split.
  - apply Forall_forall. intros c Hc.
    apply list_elem_of_In, in_map_iff in Hc as (m & <- & Hm). simpl.
    pose proof (count_nl_take (Re.start m) content).
    split; [lia|].
    rewrite (proj1 (Forall_forall _ _) (scan_group q 0 0 content Hq) m)
      by by apply list_elem_of_In.
    left.
  - specialize (IH (Re.subst q r 0 content)).
    rewrite subst_count_nl, drop_0 in IH by done.
    eapply Forall_impl; [exact IH|]. intros c [Hl Hin]. split; [done|by right].
Qed.

Lemma literal_in_table rules lits q r :
  literals rules = Some lits → (q, r) ∈ lits →
  ∃ pattern, (pattern, r) ∈ rules ∧ Re.compile pattern = Re.Literal q.
Proof.
  intros H%mapM_Some Hin.
  induction H as [|[pattern r'] l rules lits H _ IH]; [by apply elem_of_nil in Hin|].
  apply elem_of_cons in Hin as [<-|Hin].
  - apply literal_rule_Some in H as (Hc & _ & -> & _).
    exists pattern. split; [left|done].
  - destruct (IH Hin) as (p & Hp & Hc). exists p. split; [by right|done].
Qed.

Lemma process_file_records project_root rules lits w file_path dry_run r w'
    content :
  literals rules = Some lits →
  Forall (λ l, l.1 ≠ [] ∧ (NL ∉ l.1) ∧ (NL ∉ l.2)) lits →
  Forall (λ l, l.1 ≠ l.2) lits →
  process_file project_root rules w file_path dry_run = Ok (r, w') →
  Fs.read_text w file_path = Ok content →
  Forall (λ c, 1 ≤ line c ≤ length (Str.split_nl content)
               ∧ old c ≠ new c
               ∧ ∃ pattern, (pattern, new c) ∈ rules
                            ∧ Re.compile pattern = Re.Literal (old c))
    (changes r).
Proof.
  intros Hl Hone Hdiff H Hread.
  destruct (process_file_stored _ _ _ _ _ _ _ _ _ Hl H Hread) as [-> _].
  eapply Forall_impl; [apply records_valid, Hone|].
  intros c [Hline Hin]. rewrite length_split_nl. split; [done|]. split.
  - by apply (proj1 (Forall_forall _ _) Hdiff _ Hin).
  - by eapply literal_in_table.
Qed.

Lemma REPLACEMENTS_change :
  Forall (λ l : str * str, l.1 ≠ l.2) REPLACEMENT_LITERALS.
Proof.
  apply Forall_forall. intros l Hl.
  assert (forallb (λ l : str * str, bool_decide (l.1 ≠ l.2))
            REPLACEMENT_LITERALS = true) as H by (vm_compute; reflexivity).
  rewrite forallb_forall in H. apply list_elem_of_In in Hl.
  apply H in Hl. by apply bool_decide_eq_true in Hl.
Qed.

(** X4.  Every change record of [process_file] names a line of the file
    as it was read (between 1 and the number of its lines), an old text
    that is the literal of a pattern of the table, and as new text the
    replacement of that pattern, which differs from the old text. *)
Theorem change_records_well_formed
    project_root w file_path dry_run r w' content :
  process_file project_root REPLACEMENTS w file_path dry_run = Ok (r, w') →
  Fs.read_text w file_path = Ok content →
  Forall (λ c, 1 ≤ line c ≤ length (Str.split_nl content)
               ∧ old c ≠ new c
               ∧ ∃ pattern, (pattern, new c) ∈ REPLACEMENTS
                            ∧ Re.compile pattern = Re.Literal (old c))
    (changes r).
Proof.
  apply (process_file_records project_root REPLACEMENTS REPLACEMENT_LITERALS);
    [apply literals_REPLACEMENTS|apply REPLACEMENTS_one_line
    |apply REPLACEMENTS_change].
Qed.

Lemma change_records_well_formed_witness :
  Forall (λ c, 1 ≤ line c ≤ length (Str.split_nl Examples.two_borders)
               ∧ old c ≠ new c
               ∧ ∃ pattern, (pattern, new c) ∈ REPLACEMENTS
                            ∧ Re.compile pattern = Re.Literal (old c))
    (changes Examples.css_result).
Proof.
  refine (change_records_well_formed Examples.repo Examples.css_world
            Examples.css_file false Examples.css_result
            Examples.css_world_rewritten Examples.two_borders _ _);
    vm_compute; reflexivity.
Defined.

End RecordsValid.

(** ** What a run never does *)
Section Frame.
Import CssVariableMigration.

Lemma same_kind_refl a : same_kind a a.
Proof. by destruct a as [[|f]|]. Qed.

Lemma same_kind_trans a b c : same_kind a b → same_kind b c → same_kind a c.
Proof.
  destruct a as [[|f]|], b as [[|g]|], c as [[|h]|]; simpl; try done.
  intros [-> ->] [-> ->]. done.
Qed.

(** A write that follows a read of the same path keeps what is there a
    file with the same permissions. *)
Lemma write_after_read_kind w w' path s s0 :
  Fs.read_text w path = Ok s0 → Fs.write_text w path s = Ok w' →
  same_kind (store w !! path) (store w' !! path).
Proof.
  unfold Fs.read_text, Fs.write_text.
  destruct (store w !! path) as [[|f]|] eqn:E; try done.
  intros _. destruct (writable f) eqn:Hw; [|done]. intros [= <-]. simpl.
  by rewrite lookup_insert_eq.
Qed.

Lemma process_file_kind project_root rules w file_path dry_run r w' :
  process_file project_root rules w file_path dry_run = Ok (r, w') →
  (∀ p, same_kind (store w !! p) (store w' !! p))
  ∧ (w' = w ∨ written w' = written w ++ [file_path]).
Proof.
  intros H. pose proof (process_file_frame _ _ _ _ _ _ _ H) as Hframe.
  revert H. unfold process_file.
  destruct (Fs.relative_to _ _) as [name|e|]; simpl; [|done..].
  destruct (Fs.read_text w file_path) as [original|e|] eqn:Hread; [| |done].
  - destruct (apply_rules rules original []) as [[content|e|] chs]; [| |done].
    + destruct (decide (content ≠ original)).
      * destruct dry_run.
        -- intros [= <- <-]. split; [intros; apply same_kind_refl|by left].
        -- destruct (Fs.write_text w file_path content) as [w1|e|] eqn:Hw;
             [| |done].
           ++ intros [= <- <-]. split.
              ** intros p. destruct (decide (p = file_path)) as [->|Hne].
                 --- by eapply write_after_read_kind.
                 --- rewrite Hframe by done. apply same_kind_refl.
              ** right. by apply write_text_store in Hw as [Hw _].
           ++ intros [= <- <-]. split; [intros; apply same_kind_refl|by left].
      * intros [= <- <-]. split; [intros; apply same_kind_refl|by left].
    + intros [= <- <-]. split; [intros; apply same_kind_refl|by left].
  - intros [= <- <-]. split; [intros; apply same_kind_refl|by left].
Qed.

(** The loop of [main], whatever the rules and the files: the counters
    are those of the results added, one per file, and the world changes
    only where a listed file was written. *)
Lemma process_all_inv project_root rules dry_run files :
  ∀ w m t rs w' m' t' rs',
    process_all project_root rules dry_run files w m t rs
    = Ok (w', m', t', rs') →
    (∃ new, rs' = rs ++ new ∧ length new = length files
            ∧ m' = m + with_changes new ∧ t' = t + all_changes new)
    ∧ (∀ p, same_kind (store w !! p) (store w' !! p))
    ∧ (∀ p, p ∉ files → store w' !! p = store w !! p)
    ∧ (∃ ws, written w' = written w ++ ws ∧ ∀ p, p ∈ ws → p ∈ files).
Proof.
  induction files as [|f files IH]; intros w m t rs w' m' t' rs' H.
  - injection H as <- <- <- <-. split; [|split; [|split]].
    + exists []. unfold with_changes, all_changes. simpl.
      by rewrite app_nil_r, !Nat.add_0_r.
    + intros. apply same_kind_refl.
    + done.
    + exists []. by rewrite app_nil_r.
  - destruct (process_file project_root rules w f dry_run)
      as [[r w1]|e|] eqn:Hf;
      [|by cbn [process_all] in H; rewrite Hf in H..].
    rewrite (process_all_step _ _ _ _ _ _ _ _ _ _ _ Hf) in H.
    apply IH in H as ((new & -> & Hlen & -> & ->) & Hk & Hother & (ws & Hws & Hin)).
    pose proof (process_file_frame _ _ _ _ _ _ _ Hf) as Hframe.
    destruct (process_file_kind _ _ _ _ _ _ _ Hf) as [Hk1 Hw1].
    split; [|split; [|split]].
    + exists (r :: new). rewrite with_changes_cons, all_changes_cons.
      rewrite <- (assoc_L (++)). simpl.
      split; [done|]. split; [by rewrite Hlen|]. lia.
    + intros p. eapply same_kind_trans; [apply Hk1|apply Hk].
    + intros p Hp. rewrite Hother by (intros ?; apply Hp; by right).
      apply Hframe. intros ->. apply Hp. left.
    + destruct Hw1 as [->|Hw1].
      * exists ws. split; [done|]. intros p Hp. right. by apply Hin.
      * exists (f :: ws). rewrite Hws, Hw1, <- (assoc_L (++)).
        split; [done|]. intros p [->|Hp]%elem_of_cons; [left|right; by apply Hin].
Qed.

Lemma with_changes_le rs :
  with_changes rs ≤ length rs ∧ with_changes rs ≤ all_changes rs.
Proof.
  induction rs as [|r rs [IH1 IH2]]; [done|].
  rewrite with_changes_cons, all_changes_cons. simpl.
  unfold has_changes. destruct (changes r); simpl; lia.
Qed.

(** X5.  [main] never creates or removes anything and never changes a
    permission: at every path there is afterwards what there was before,
    a directory, a file with the same permissions, or nothing; what was
    not found by [find_files] is exactly as before, and only files found
    are ever written.  This holds for every rule table. *)
Theorem main_keeps_tree project_root rules listing w dry_run summary results w' :
  main project_root rules listing w dry_run = Ok (summary, results, w') →
  (∀ p, same_kind (store w !! p) (store w' !! p))
  ∧ (∀ p, p ∉ find_files (SEARCH_DIR project_root) listing FILE_EXTENSIONS →
          store w' !! p = store w !! p)
  ∧ (∃ ws, written w' = written w ++ ws
           ∧ ∀ p, p ∈ ws →
               p ∈ find_files (SEARCH_DIR project_root) listing FILE_EXTENSIONS).
Proof.
  unfold main.
  destruct (process_all _ _ _ _ _ _ _ _) as [[[[w1 m1] t1] rs1]|e|] eqn:H;
    [|done..].
  simpl. intros [= <- <- <-].
  by apply process_all_inv in H as (_ & Hk & Ho & Hw).
Qed.

Lemma main_keeps_tree_witness :
  (∀ p, same_kind (store Examples.css_world !! p)
          (store Examples.css_world_rewritten !! p))
  ∧ (∀ p, p ∉ find_files (SEARCH_DIR Examples.repo) Examples.css_listing
                FILE_EXTENSIONS →
          store Examples.css_world_rewritten !! p
          = store Examples.css_world !! p)
  ∧ (∃ ws, written Examples.css_world_rewritten
           = written Examples.css_world ++ ws
           ∧ ∀ p, p ∈ ws →
               p ∈ find_files (SEARCH_DIR Examples.repo) Examples.css_listing
                     FILE_EXTENSIONS).
Proof.
  refine (main_keeps_tree Examples.repo REPLACEMENTS Examples.css_listing
            Examples.css_world false
            {| files_scanned := 1; modified_files := 1; total_changes := 2 |}
            [Examples.css_result] Examples.css_world_rewritten _).
  vm_compute. reflexivity.
Defined.

Lemma summary_totals project_root rules listing w dry_run summary results w' :
  main project_root rules listing w dry_run = Ok (summary, results, w') →
  total_changes summary = all_changes results
  ∧ modified_files summary = with_changes results.
Proof.
  unfold main.
  destruct (process_all _ _ _ _ _ _ _ _) as [[[[w1 m1] t1] rs1]|e|] eqn:H;
    [|done..].
  simpl. intros [= <- <- <-]. simpl.
  by apply process_all_inv in H as ((new & -> & Hlen & -> & ->) & _).
Qed.

(** X6.  The summary of [main] is that of its results: one result per
    file scanned, the files modified are the results with a record, the
    total is the number of all records; hence the files modified are at
    most the files scanned and at most the total of changes. *)
Theorem summary_of_results project_root rules listing w dry_run summary results w' :
  main project_root rules listing w dry_run = Ok (summary, results, w') →
  files_scanned summary = length results
  ∧ files_scanned summary
    = length (find_files (SEARCH_DIR project_root) listing FILE_EXTENSIONS)
  ∧ modified_files summary = with_changes results
  ∧ total_changes summary = all_changes results
  ∧ modified_files summary ≤ files_scanned summary
  ∧ modified_files summary ≤ total_changes summary.
Proof.
  unfold main.
  destruct (process_all _ _ _ _ _ _ _ _) as [[[[w1 m1] t1] rs1]|e|] eqn:H;
    [|done..].
  simpl. intros [= <- <- <-]. simpl.
  apply process_all_inv in H as ((new & -> & Hlen & -> & ->) & _).
  simpl. destruct (with_changes_le new) as [H1 H2].
  repeat split; try done; lia.
Qed.

Lemma summary_of_results_witness :
  1 = length [Examples.css_result]
  ∧ 1 = length (find_files (SEARCH_DIR Examples.repo) Examples.css_listing
                  FILE_EXTENSIONS)
  ∧ 1 = with_changes [Examples.css_result]
  ∧ 2 = all_changes [Examples.css_result]
  ∧ 1 ≤ 1 ∧ 1 ≤ 2.
Proof.
  refine (summary_of_results Examples.repo REPLACEMENTS Examples.css_listing
            Examples.css_world false
            {| files_scanned := 1; modified_files := 1; total_changes := 2 |}
            [Examples.css_result] Examples.css_world_rewritten _).
  vm_compute. reflexivity.
Defined.

End Frame.

(** ** The grouped report *)
Section Report.
Import CssVariableMigration CssReport.
Implicit Types (d : list (str * nat)) (k key : str).

Lemma get_bump_same key d : get key (bump key d) = get key d + 1.
Proof.
  induction d as [|[k n] d IH]; simpl.
  - by rewrite decide_True.
  - destruct (decide (k = key)) as [->|Hne]; simpl.
    + by rewrite decide_True.
    + by rewrite decide_False.
Qed.

Lemma get_bump_other key k d : k ≠ key → get k (bump key d) = get k d.
Proof.
  intros Hne. induction d as [|[k' n] d IH]; simpl.
  - rewrite decide_False; [done|congruence].
  - destruct (decide (k' = key)) as [->|Hne']; simpl.
    + destruct (decide (key = k)); congruence.
    + by rewrite IH.
Qed.

Lemma bump_keys key d :
  map fst (bump key d)
  = if decide (key ∈ map fst d) then map fst d else map fst d ++ [key].
Proof.
  induction d as [|[k n] d IH]; [done|].
  cbn [bump map fst].
  destruct (decide (k = key)) as [->|Hne]; cbn [map fst].
  - rewrite decide_True; [done|]. left.
  - rewrite IH. destruct (decide (key ∈ map fst d)) as [Hin|Hnin].
    + rewrite decide_True; [done|]. by right.
    + rewrite decide_False; [done|].
      intros [?|?]%elem_of_cons; congruence.
Qed.

Lemma bump_NoDup key d : NoDup (map fst d) → NoDup (map fst (bump key d)).
Proof.
  intros H. rewrite bump_keys. case_decide; [done|].
  apply NoDup_app. split; [done|]. split.
  - intros x Hx ->%list_elem_of_singleton. done.
  - apply NoDup_singleton.
Qed.

Lemma bump_sum key d :
  sum_list (map snd (bump key d)) = sum_list (map snd d) + 1.
Proof.
  induction d as [|[k n] d IH]; simpl; [done|].
  destruct (decide (k = key)); simpl; lia.
Qed.

Lemma bump_positive key d :
  Forall (λ e, 0 < e.2) d → Forall (λ e, 0 < e.2) (bump key d).
Proof.
  induction 1 as [|[k n] d Hn Hd IH]; simpl.
  - constructor; [simpl; lia|constructor].
  - destruct (decide (k = key)); constructor; try done. simpl. lia.
Qed.

Lemma get_elem k n d : NoDup (map fst d) → (k, n) ∈ d → get k d = n.
Proof.
  induction d as [|[k' n'] d IH]; [by intros _ ?%elem_of_nil|].
  simpl. intros [Hk Hd]%NoDup_cons [[= -> ->]|Hin]%elem_of_cons.
  - by rewrite decide_True.
  - rewrite decide_False; [by apply IH|]. intros ->. apply Hk.
    apply list_elem_of_In, in_map_iff. exists (k, n).
    split; [done|by apply list_elem_of_In].
Qed.

Lemma change_summary_snoc cs c :
  change_summary (cs ++ [c]) = bump (change_key c) (change_summary cs).
Proof. unfold change_summary. by rewrite foldl_snoc. Qed.

(** X7.  The grouped report of a file lists each pair old -> new once,
    with a positive count that is the number of the file's records of
    that pair; the counts add up to the number of changes that the
    heading of the file gives. *)
Theorem change_summary_counts (cs : list Change) :
  NoDup (map fst (change_summary cs))
  ∧ sum_list (map snd (change_summary cs)) = length cs
  ∧ (∀ key, get key (change_summary cs)
            = length (filter (λ c, change_key c = key) cs))
  ∧ (∀ key n, (key, n) ∈ change_summary cs →
       0 < n ∧ n = length (filter (λ c, change_key c = key) cs)).
Proof.
  assert (NoDup (map fst (change_summary cs))
          ∧ sum_list (map snd (change_summary cs)) = length cs
          ∧ (∀ key, get key (change_summary cs)
                    = length (filter (λ c, change_key c = key) cs))
          ∧ Forall (λ e, 0 < e.2) (change_summary cs)) as (Hnd & Hsum & Hget & Hpos).
  { induction cs as [|c cs IH] using rev_ind.
    - split; [constructor|]. split; [done|]. split; [done|constructor].
    - destruct IH as (Hnd & Hsum & Hget & Hpos).
      rewrite change_summary_snoc. split; [by apply bump_NoDup|].
      split; [by rewrite bump_sum, Hsum, length_app; simpl|].
      split; [|by apply bump_positive].
      intros key. rewrite filter_app, length_app, filter_cons, filter_nil.
      destruct (decide (change_key c = key)) as [<-|Hne].
      + by rewrite get_bump_same, Hget.
      + rewrite get_bump_other by done. rewrite Hget. simpl. lia. }
  split; [done|]. split; [done|]. split; [done|].
  intros key n Hin. split.
  - by apply (proj1 (Forall_forall _ _) Hpos (key, n)).
  - rewrite <- Hget. symmetry. by apply get_elem.
Qed.

Lemma all_changes_zero (rs : list Result) :
  all_changes rs = 0 ↔ Forall (λ r, changes r = []) rs.
Proof.
  induction rs as [|r rs IH]; [by split; [constructor|]|].
  rewrite all_changes_cons, Forall_cons, <- IH.
  destruct (changes r) as [|c l]; simpl.
  - split; [by intros ?|by intros [_ ?]].
  - split; [lia|by intros [? _]].
Qed.

(** X8.  Over the table of the script, the sentence that closes the
    report depends on the mode and on the modified flags only: [No changes
    needed] is chosen exactly when no result is flagged as modified;
    otherwise a dry run asks to run without [--dry-run] and an applying
    run says that all changes were applied, also for a file whose write
    failed. *)
Theorem closing_message_of_flags
    project_root listing w dry_run summary results w' :
  listing_distinct listing = true →
  main project_root REPLACEMENTS listing w dry_run
  = Ok (summary, results, w') →
  closing_message dry_run (total_changes summary)
  = if forallb (λ r, negb (modified r)) results then NoChangesNeeded
    else if dry_run then RunWithoutDryRun else AllChangesApplied.
Proof.
  intros Hl Hm.
  destruct (modified_flags_of_records _ _ _ _ _ _ _ Hl Hm) as [Hflag _].
  destruct (summary_totals _ _ _ _ _ _ _ _ Hm) as [Htot _].
  rewrite Htot. unfold closing_message.
  destruct (forallb (λ r, negb (modified r)) results) eqn:E.
  - assert (all_changes results = 0) as ->.
    { apply all_changes_zero. rewrite forallb_forall in E.
      apply Forall_forall. intros r Hr.
      pose proof (proj1 (Forall_forall _ _) Hflag r Hr) as Hiff.
      simpl in Hiff. apply list_elem_of_In, E in Hr.
      destruct (changes r); [done|]. destruct (modified r); [done|].
      by destruct (proj2 Hiff). }
    rewrite bool_decide_eq_false_2 by lia. by rewrite andb_false_r.
  - assert (0 < all_changes results) as Hpos.
    { destruct (decide (all_changes results = 0)) as [Hz|]; [|lia].
      apply all_changes_zero in Hz.
      assert (forallb (λ r, negb (modified r)) results = true) as E'; [|congruence].
      apply forallb_forall. intros r Hr%list_elem_of_In.
      pose proof (proj1 (Forall_forall _ _) Hflag r Hr) as Hiff.
      pose proof (proj1 (Forall_forall _ _) Hz r Hr) as Hnil.
      simpl in Hiff, Hnil.
      destruct (modified r); [|done]. by destruct (proj1 Hiff). }
    rewrite bool_decide_eq_true_2 by done. by destruct dry_run.
Qed.

Lemma closing_message_of_flags_witness :
  closing_message false 2 = AllChangesApplied.
Proof.
  refine (closing_message_of_flags Examples.repo Examples.css_listing
            Examples.css_world_read_only false
            {| files_scanned := 1; modified_files := 1; total_changes := 2 |}
            [Examples.css_result_write_failed] Examples.css_world_read_only
            _ _); vm_compute; reflexivity.
Defined.

End Report.

(** ** The loops of fix_orphaned *)
Section OrphanLoops.
Import FixOrphaned.
Implicit Types (lines : list str) (res : list str * nat).

Lemma outer_cons line rest :
  outer (line :: rest)
  = if is_call line then keep line (inner_loop rest)
    else keep line (outer rest).
Proof. reflexivity. Qed.

Lemma inner_loop_cons line_i after :
  inner_loop (line_i :: after)
  = if is_orphan (Str.strip line_i) then
      skipped (if Str.endswith (Str.strip line_i) (py "})")
               then outer after else inner_loop after)
    else keep line_i (outer (line_i :: after)).
Proof. reflexivity. Qed.

Lemma keeps_lines_keep line rest res :
  keeps_lines rest res → keeps_lines (line :: rest) (keep line res).
Proof.
  intros (Hin & Hsub & Hlen & Hn). unfold keep. split; [|split; [|split]]; simpl.
  - intros l [->|Hl]%elem_of_cons; [left|right; by apply Hin].
  - rewrite filter_cons. case_decide; [by apply sublist_skip|by apply sublist_cons].
  - lia.
  - lia.
Qed.

Lemma keeps_lines_again line rest res :
  keeps_lines (line :: rest) res → keeps_lines (line :: rest) (keep line res).
Proof.
  intros (Hin & Hsub & Hlen & Hn). unfold keep. split; [|split; [|split]]; simpl.
  - intros l [->|Hl]%elem_of_cons; [left|by apply Hin].
  - by apply sublist_cons.
  - simpl in Hlen. lia.
  - done.
Qed.

Lemma keeps_lines_skipped line rest res :
  is_orphan (Str.strip line) = true →
  keeps_lines rest res → keeps_lines (line :: rest) (skipped res).
Proof.
  intros Ho (Hin & Hsub & Hlen & Hn). unfold skipped.
  split; [|split; [|split]]; simpl.
  - intros l Hl. right. by apply Hin.
  - rewrite filter_cons. rewrite decide_False; [done|]. by rewrite Ho.
  - lia.
  - lia.
Qed.

Lemma loops_keep_lines lines :
  keeps_lines lines (outer lines) ∧ keeps_lines lines (inner_loop lines).
Proof.
  induction lines as [|line rest [IHo IHi]].
  - split; (split; [done|]; split; [done|]; split; simpl; lia).
  - assert (keeps_lines (line :: rest) (outer (line :: rest))) as Ho.
    { rewrite outer_cons. destruct (is_call line); by apply keeps_lines_keep. }
    split; [done|]. rewrite inner_loop_cons.
    destruct (is_orphan (Str.strip line)) eqn:E.
    + apply keeps_lines_skipped; [done|].
      by destruct (Str.endswith (Str.strip line) (py "})")).
    + by apply keeps_lines_again.
Qed.

(** X9.  The loop of fix_orphaned_syntax never removes a line that is no
    orphaned property and never invents one: every line appended is a
    line of the input, the lines of the input that do not have the shape
    of an orphaned property are all appended, in their order, the first
    line is kept as the first line, and every line that is missing from
    the output is counted: the input is no longer than the output plus
    the count. *)
Theorem orphan_loop_keeps_other_lines lines :
  let '(new_lines, changes) := outer lines in
  (∀ l, l ∈ new_lines → l ∈ lines)
  ∧ filter (λ l, is_orphan (Str.strip l) = false) lines `sublist_of` new_lines
  ∧ head new_lines = head lines
  ∧ length lines ≤ length new_lines + changes
  ∧ changes ≤ length lines.
Proof.
  destruct (loops_keep_lines lines) as [(Hin & Hsub & Hlen & Hn) _].
  destruct (outer lines) as [new_lines changes] eqn:E. simpl in *.
  split; [done|]. split; [done|]. split; [|done].
  destruct lines as [|line rest]; [by injection E as <- <-|].
  rewrite outer_cons in E. unfold keep in E.
  destruct (is_call line); by injection E as <- <-.
Qed.

Lemma outer_no_call lines :
  Forall (λ l, is_call l = false) lines → outer lines = (lines, 0).
Proof.
  induction 1 as [|line rest Hl _ IH]; [done|].
  by rewrite outer_cons, Hl, IH.
Qed.

Lemma split_nl_head s : ∃ t, s = hd [] (Str.split_nl s) ++ t.
Proof.
  induction s as [|c s [t IH]]; [by exists []|].
  destruct (decide (c = NL)) as [->|Hc].
  - cbn [Str.split_nl]. rewrite decide_True by done. by exists (NL :: s).
  - rewrite split_nl_cons_other by done. simpl. exists t. by rewrite <- IH.
Qed.

Lemma elem_of_split_nl l s :
  l ∈ Str.split_nl s → ∃ a b, s = a ++ l ++ b.
Proof.
  revert l. induction s as [|c s IH]; intros l.
  - intros ->%list_elem_of_singleton. by exists [], [].
  - destruct (decide (c = NL)) as [->|Hc].
    + cbn [Str.split_nl]. rewrite decide_True by done.
      intros [->|Hl]%elem_of_cons.
      * by exists [], (NL :: s).
      * destruct (IH _ Hl) as (a & b & ->). by exists (NL :: a), b.
    + rewrite split_nl_cons_other by done.
      pose proof (split_nl_nonempty s).
      destruct (Str.split_nl s) as [|l0 ls] eqn:E; [done|]. simpl.
      intros [->|Hl]%elem_of_cons.
      * destruct (split_nl_head s) as [t Hs]. rewrite E in Hs. simpl in Hs.
        exists [], t. simpl. by rewrite Hs at 1.
      * destruct (IH l) as (a & b & ->); [by right|]. by exists (c :: a), b.
Qed.

Lemma contains_in_line p l s :
  l ∈ Str.split_nl s → Str.contains p l = true → Str.contains p s = true.
Proof.
  intros (a & b & ->)%elem_of_split_nl (a' & b' & ->)%contains_occurrence.
  apply contains_occurrence. exists (a ++ a'), (b' ++ b).
  by rewrite <- !(assoc_L (++)).
Qed.

(** X10.  A file whose text does not contain [handleErrorEnhanced(] is
    left alone by fix_orphaned_syntax: nothing is written and 0 is
    returned. *)
Theorem file_without_call_untouched w file_path content :
  Fs.read_text w file_path = Ok content →
  Str.contains (py "handleErrorEnhanced(") content = false →
  fix_orphaned_syntax w file_path = (0, w).
Proof.
  intros Hread Hc. unfold fix_orphaned_syntax. rewrite Hread.
  rewrite outer_no_call.
  - rewrite join_split. by rewrite decide_False by (intros ?; done).
  - apply Forall_forall. intros l Hl. unfold is_call.
    destruct (Str.contains (py "handleErrorEnhanced(") l) eqn:E; [|done].
    by rewrite (contains_in_line _ _ _ Hl E) in Hc.
Qed.

Lemma file_without_call_untouched_witness :
  fix_orphaned_syntax MoreExamples.plain_css_world Examples.css_file
  = (0, MoreExamples.plain_css_world).
Proof.
  refine (file_without_call_untouched MoreExamples.plain_css_world
            Examples.css_file MoreExamples.plain_css _ _);
    vm_compute; reflexivity.
Defined.

(** What fix_orphaned_syntax can have done. *)
Lemma fix_orphaned_syntax_cases w file_path n w' :
  fix_orphaned_syntax w file_path = (n, w') →
  (n = 0 ∧ w' = w)
  ∨ (∃ content,
       Fs.read_text w file_path = Ok content
       ∧ Fs.write_text w file_path
           (Str.join_nl (outer (Str.split_nl content)).1) = Ok w'
       ∧ n = (outer (Str.split_nl content)).2).
Proof.
  unfold fix_orphaned_syntax.
  destruct (Fs.read_text w file_path) as [content|e|] eqn:Hread;
    [|intros [= <- <-]; left; split; reflexivity..].
  destruct (outer (Str.split_nl content)) as [new_lines changes] eqn:Ho. simpl.
  destruct (decide _); [|intros [= <- <-]; left; split; reflexivity].
  destruct (Fs.write_text w file_path (Str.join_nl new_lines)) as [w1|e|] eqn:Hw;
    [|intros [= <- <-]; left; split; reflexivity..].
  intros [= <- <-]. right. exists content. by rewrite Ho.
Qed.

(** X11.  fix_orphaned_syntax returns a positive count only when it has
    written the file; when the file cannot be read, or cannot be
    written, it returns 0 and leaves the world as it is; it never touches
    another path, and where it writes there was a file, which keeps its
    permissions. *)
Theorem fix_orphaned_syntax_effects w file_path n w' :
  fix_orphaned_syntax w file_path = (n, w') →
  (0 < n → written w' = written w ++ [file_path])
  ∧ (w' = w ∨ written w' = written w ++ [file_path])
  ∧ (∀ e, Fs.read_text w file_path = Raise e → n = 0 ∧ w' = w)
  ∧ (∀ content e,
       Fs.read_text w file_path = Ok content →
       Fs.write_text w file_path
         (Str.join_nl (outer (Str.split_nl content)).1) = Raise e →
       n = 0 ∧ w' = w)
  ∧ (∀ p, same_kind (store w !! p) (store w' !! p))
  ∧ (∀ p, p ≠ file_path → store w' !! p = store w !! p).
Proof.
  intros H. destruct (fix_orphaned_syntax_cases _ _ _ _ H)
    as [[-> ->]|(content & Hread & Hw & ->)].
  - split; [lia|]. split; [by left|]. split; [done|]. split; [done|].
    split; [intros; apply same_kind_refl|done].
  - pose proof (write_text_store _ _ _ _ Hw) as [Hlog Hother].
    split; [done|]. split; [by right|]. split; [congruence|].
    split; [congruence|]. split; [|done].
    intros p. destruct (decide (p = file_path)) as [->|Hne].
    + by eapply write_after_read_kind.
    + rewrite Hother by done. apply same_kind_refl.
Qed.

Lemma fix_orphaned_syntax_effects_witness :
  written (fix_orphaned_syntax Examples.orphan_world Examples.backend_file).2
  = written Examples.orphan_world ++ [Examples.backend_file].
Proof.
  refine (proj1 (fix_orphaned_syntax_effects Examples.orphan_world
                   Examples.backend_file 1
                   (fix_orphaned_syntax Examples.orphan_world
                      Examples.backend_file).2 _) _).
  - vm_compute. reflexivity.
  - lia.
Defined.

End OrphanLoops.

(** ** The entries found in a tree *)
Section Trees.
Import CssVariableMigration.

Lemma at_path_inv listing rel d :
  at_path listing rel d
  ↔ (d ∈ listing ∧ rel = [Fs.name_of d])
    ∨ (∃ n sub rel',
         DirEnt n sub ∈ listing ∧ at_path sub rel' d ∧ rel = n :: rel').
Proof.
  split.
  - intros H. inversion H as [l d' Hd|l n sub rel' d' Hd Hat]; subst.
    + by left.
    + right. by exists n, sub, rel'.
  - intros [[H ->]|(n & sub & rel' & H1 & H2 & ->)].
    + by apply at_here.
    + by eapply at_below.
Qed.

Lemma at_path_nonempty listing rel d : at_path listing rel d → rel ≠ [].
Proof. by intros [[_ ->]|(n & sub & rel' & _ & _ & ->)]%at_path_inv. Qed.

(** What [rglob] finds in a listing, given what it finds below each of
    its entries. *)
Lemma rglob_listing ext listing :
  Forall (λ d, ∀ directory p,
            p ∈ rglob_below directory ext d
            ↔ ∃ n sub rel d',
                d = DirEnt n sub ∧ at_path sub rel d'
                ∧ Str.endswith (Fs.name_of d') ext = true
                ∧ p = directory ++ n :: rel) listing →
  ∀ directory p,
    p ∈ matching directory listing ext
        ++ flat_map (rglob_below directory ext) listing
    ↔ ∃ rel d, at_path listing rel d
               ∧ Str.endswith (Fs.name_of d) ext = true
               ∧ p = directory ++ rel.
Proof.
  intros IH directory p. rewrite Forall_forall in IH.
  rewrite elem_of_app, matching_elem, in_flat_map_elem. split.
  - intros [(d & Hd & He & ->)|(d & Hd & Hp)].
    + exists [Fs.name_of d], d. split; [by apply at_here|done].
    + apply (IH d Hd) in Hp as (n & sub & rel & d' & -> & Hat & He & ->).
      exists (n :: rel), d'. split; [by eapply at_below|done].
  - intros (rel & d & Hat & He & ->).
    apply at_path_inv in Hat as [[Hd ->]|(n & sub & rel' & Hd & Hat & ->)].
    + left. by exists d.
    + right. exists (DirEnt n sub). split; [done|].
      apply (IH _ Hd). by exists n, sub, rel', d.
Qed.

Lemma rglob_below_exactly ext d :
  ∀ directory p,
    p ∈ rglob_below directory ext d
    ↔ ∃ n sub rel d',
        d = DirEnt n sub ∧ at_path sub rel d'
        ∧ Str.endswith (Fs.name_of d') ext = true
        ∧ p = directory ++ n :: rel.
Proof.
  induction d as [n|n sub IH] using dirent_induction; intros directory p.
  - simpl. split; [by intros ?%elem_of_nil|].
    by intros (? & ? & ? & ? & ? & _).
  - simpl. rewrite (rglob_listing ext sub IH). split.
    + intros (rel & d & Hat & He & ->). exists n, sub, rel, d.
      by rewrite <- (assoc_L (++)).
    + intros (n' & sub' & rel & d' & [= <- <-] & Hat & He & ->).
      exists rel, d'. by rewrite <- (assoc_L (++)).
Qed.

Lemma rglob_exactly directory listing ext p :
  p ∈ rglob directory listing ext
  ↔ ∃ rel d, at_path listing rel d
             ∧ Str.endswith (Fs.name_of d) ext = true
             ∧ p = directory ++ rel.
Proof.
  apply rglob_listing, Forall_forall. intros d _. apply rglob_below_exactly.
Qed.

(** The paths [find_files] returns, for extensions that are matched as
    endings of the name. *)
Lemma find_files_elem directory listing extensions p :
  p ∈ find_files directory listing extensions
  ↔ ∃ rel d ext,
      at_path listing rel d ∧ ext ∈ extensions
      ∧ Str.endswith (Fs.name_of d) ext = true
      ∧ p = directory ++ rel.
Proof.
  unfold find_files. rewrite sorted_Permutation.
  rewrite list_elem_of_In, in_concat. split.
  - intros (l & Hl & Hp). apply in_map_iff in Hl as (ext & <- & Hext).
    apply list_elem_of_In, rglob_exactly in Hp as (rel & d & Hat & He & ->).
    exists rel, d, ext. by rewrite list_elem_of_In.
  - intros (rel & d & ext & Hat & Hext & He & ->).
    exists (rglob directory listing ext). split.
    + apply in_map_iff. exists ext. by rewrite <- list_elem_of_In.
    + apply list_elem_of_In, rglob_exactly. by exists rel, d.
Qed.

(** X12.  [find_files] of css-variable-migration, called as the script
    calls it, with FILE_EXTENSIONS, finds exactly the entries of the tree
    below the directory whose name ends with [.tsx], [.ts] or [.css]:
    every path it returns leads, from the directory, to such an entry,
    and every such entry is returned, at any depth.  The entry may be a
    directory as well as a file. *)
Theorem find_files_exactly directory listing p :
  p ∈ find_files directory listing FILE_EXTENSIONS
  ↔ ∃ rel d,
      at_path listing rel d
      ∧ (Str.endswith (Fs.name_of d) (py ".tsx") = true
         ∨ Str.endswith (Fs.name_of d) (py ".ts") = true
         ∨ Str.endswith (Fs.name_of d) (py ".css") = true)
      ∧ p = directory ++ rel.
Proof.
  rewrite find_files_elem. unfold FILE_EXTENSIONS. split.
  - intros (rel & d & ext & Hat & Hext & He & ->). exists rel, d.
    split; [done|]. split; [|done].
    apply elem_of_cons in Hext as [->|Hext]; [by left|].
    apply elem_of_cons in Hext as [->|Hext]; [by right; left|].
    apply list_elem_of_singleton in Hext as ->. by right; right.
  - intros (rel & d & Hat & [He|[He|He]] & ->).
    + exists rel, d, (py ".tsx"). split; [done|]. split; [left|done].
    + exists rel, d, (py ".ts"). split; [done|].
      split; [right; left|done].
    + exists rel, d, (py ".css"). split; [done|].
      split; [right; right; left|done].
Qed.

(** The files named in one triple of the walk. *)
Lemma elem_of_ts_files root listing p :
  p ∈ map (λ f, root ++ [f])
        (filter (λ f, Str.endswith f (py ".ts") = true)
           (FixOrphaned.filenames listing))
  ↔ ∃ name, FileEnt name ∈ listing
            ∧ Str.endswith name (py ".ts") = true
            ∧ p = root ++ [name].
Proof.
  rewrite list_elem_of_fmap. unfold FixOrphaned.filenames. split.
  - intros (f & -> & Hf). apply list_elem_of_filter in Hf as [He Hf].
    apply list_elem_of_fmap in Hf as (d & -> & Hd).
    apply list_elem_of_filter in Hd as [Hdir Hd].
    destruct d as [name|]; [|done]. by exists name.
  - intros (name & Hd & He & ->). exists name. split; [done|].
    apply list_elem_of_filter. split; [done|].
    apply list_elem_of_fmap. exists (FileEnt name). split; [done|].
    by apply list_elem_of_filter.
Qed.

Lemma walk_below_dir root n sub :
  FixOrphaned.walk_below root (DirEnt n sub) = FixOrphaned.walk (root ++ [n]) sub.
Proof. reflexivity. Qed.

Lemma visited_step root listing p :
  p ∈ FixOrphaned.visited root listing
  ↔ (∃ name, FileEnt name ∈ listing
             ∧ Str.endswith name (py ".ts") = true
             ∧ p = root ++ [name])
    ∨ (∃ n sub, DirEnt n sub ∈ listing
                ∧ p ∈ FixOrphaned.visited (root ++ [n]) sub).
Proof.
  unfold FixOrphaned.visited at 1, FixOrphaned.walk.
  cbn [flat_map]. rewrite elem_of_app, elem_of_ts_files.
  apply or_iff_compat_l. rewrite in_flat_map_elem. split.
  - intros (t & Ht & Hp). apply in_flat_map_elem in Ht as (d & Hd & Ht).
    destruct d as [name|n sub]; [by apply elem_of_nil in Ht|].
    exists n, sub. split; [done|]. rewrite walk_below_dir in Ht.
    unfold FixOrphaned.visited. apply in_flat_map_elem. by exists t.
  - intros (n & sub & Hd & Hp). unfold FixOrphaned.visited in Hp.
    apply in_flat_map_elem in Hp as (t & Ht & Hp). exists t. split; [|done].
    apply in_flat_map_elem. exists (DirEnt n sub). by rewrite walk_below_dir.
Qed.

Lemma visited_dir d :
  match d with
  | FileEnt _ => True
  | DirEnt _ listing =>
      ∀ root p,
        p ∈ FixOrphaned.visited root listing
        ↔ ∃ rel name, at_path listing rel (FileEnt name)
                      ∧ Str.endswith name (py ".ts") = true
                      ∧ p = root ++ rel
  end.
Proof.
  induction d as [n|n0 listing IH] using dirent_induction; [done|].
  rewrite Forall_forall in IH. intros root p. rewrite visited_step. split.
  - intros [(name & Hd & He & ->)|(n & sub & Hd & Hp)].
    + exists [name], name. split; [|done]. by apply (at_here _ (FileEnt name)).
    + apply (IH _ Hd) in Hp as (rel & name & Hat & He & ->).
      exists (n :: rel), name. split; [by eapply at_below|].
      by rewrite <- (assoc_L (++)).
  - intros (rel & name & Hat & He & ->).
    apply at_path_inv in Hat as [[Hd ->]|(n & sub & rel' & Hd & Hat & ->)].
    + left. by exists name.
    + right. exists n, sub. split; [done|]. apply (IH _ Hd).
      exists rel', name. by rewrite <- (assoc_L (++)).
Qed.

(** X13.  [main] of fix_orphaned hands to fix_orphaned_syntax exactly the
    entries of the tree below [src] that are no directories and whose
    name ends with [.ts], at any depth: a directory is never handed over,
    whatever its name. *)
Theorem visited_exactly top listing p :
  p ∈ FixOrphaned.visited top listing
  ↔ ∃ rel name, at_path listing rel (FileEnt name)
                ∧ Str.endswith name (py ".ts") = true
                ∧ p = top ++ rel.
Proof. apply (visited_dir (DirEnt [] listing)). Qed.

End Trees.

(** ** [main] of fix_orphaned *)
Section OrphanMain.
Import FixOrphaned.

Lemma fix_orphaned_syntax_frame w file_path n w' :
  fix_orphaned_syntax w file_path = (n, w') →
  ((n = 0 ∧ w' = w) ∨ written w' = written w ++ [file_path])
  ∧ (∀ p, same_kind (store w !! p) (store w' !! p))
  ∧ (∀ p, p ≠ file_path → store w' !! p = store w !! p).
Proof.
  intros [[-> ->]|(content & Hread & Hw & ->)]%fix_orphaned_syntax_cases.
  - split; [by left|]. split; [intros; apply same_kind_refl|done].
  - pose proof (write_text_store _ _ _ _ Hw) as [Hlog Hother].
    split; [by right|]. split; [|done].
    intros p. destruct (decide (p = file_path)) as [->|Hne].
    + by eapply write_after_read_kind.
    + rewrite Hother by done. apply same_kind_refl.
Qed.

Lemma process_spec files :
  ∀ w t t' w',
    process files w t = (t', w') →
    total_files t' = total_files t + length files
    ∧ (∃ dc dn ws,
         files_changed t' = files_changed t + dc
         ∧ total_changes t' = total_changes t + dn
         ∧ dc ≤ dn ∧ (dc = 0 → dn = 0) ∧ dc ≤ length ws
         ∧ written w' = written w ++ ws ∧ ws `sublist_of` files)
    ∧ (∀ p, same_kind (store w !! p) (store w' !! p))
    ∧ (∀ p, p ∉ files → store w' !! p = store w !! p).
Proof.
  induction files as [|file_path files IH]; intros w t t' w'.
  - intros [= <- <-]. split; [simpl; lia|]. split.
    + exists 0, 0, []. rewrite app_nil_r. repeat split; try done; lia.
    + split; [intros; apply same_kind_refl|done].
  - cbn [process].
    destruct (fix_orphaned_syntax w file_path) as [changes w1] eqn:E.
    intros H. apply IH in H as (Hn & (dc & dn & ws & Hc & Ht & Hle & Hz & Hws & Hlog & Hsub) & Hk & Hf).
    apply fix_orphaned_syntax_frame in E as (Hw & Hk1 & Hf1).
    simpl in Hn, Hc, Ht. split; [simpl; lia|]. split; [|split].
    + destruct Hw as [[-> ->]|Hw].
      * rewrite decide_False in Hc, Ht by lia.
        exists dc, dn, ws. repeat split; try done; try lia.
        by apply sublist_cons.
      * destruct (decide (0 < changes)).
        -- exists (1 + dc), (changes + dn), (file_path :: ws).
           repeat split; try lia; simpl; try lia.
           ++ by rewrite Hlog, Hw, <- (assoc_L (++)).
           ++ by apply sublist_skip.
        -- exists dc, dn, (file_path :: ws).
           repeat split; try lia; simpl; try lia; try done.
           ++ by rewrite Hlog, Hw, <- (assoc_L (++)).
           ++ by apply sublist_skip.
    + intros p. eapply same_kind_trans; [apply Hk1|apply Hk].
    + intros p [Hne Hp]%not_elem_of_cons. rewrite Hf by done. by apply Hf1.
Qed.

(** X14.  The totals [main] of fix_orphaned prints: every [.ts] file of
    the walk is counted as processed, whatever happened to it; a file is
    counted as changed only when it was written, so that the files
    changed are no more than the files written and no more than the
    files processed; the blocks removed are at least the files changed,
    and are 0 exactly when no file is counted as changed.  When the loop
    ends, the files written are visited files, in the order of the
    walk, every path keeps its kind and its permissions, and a path that
    is not visited keeps its content.  The script then runs
    [npx tsc --noEmit] through [os.system], exactly when a file has been
    counted as changed; what this command does is left open. *)
Theorem orphan_main_totals system listing w t w'' :
  main system (Some listing) w = Some (t, w'') →
  total_files t = length (visited [py "src"] listing)
  ∧ files_changed t ≤ total_files t
  ∧ files_changed t ≤ total_changes t
  ∧ (files_changed t = 0 ↔ total_changes t = 0)
  ∧ ∃ w',
      w'' = (if decide (0 < files_changed t)
             then system (py "npx tsc --noEmit") w' else w')
      ∧ (∃ ws, written w' = written w ++ ws
               ∧ ws `sublist_of` visited [py "src"] listing
               ∧ files_changed t ≤ length ws)
      ∧ (∀ p, same_kind (store w !! p) (store w' !! p))
      ∧ (∀ p, p ∉ visited [py "src"] listing → store w' !! p = store w !! p).
Proof.
  unfold main.
  destruct (process (visited [py "src"] listing) w _) as [t1 w1] eqn:H.
  intros [= <- <-].
  apply process_spec in H
    as (Hn & (dc & dn & ws & Hc & Ht & Hle & Hz & Hws & Hlog & Hsub) & Hk & Hf).
  cbn [total_files files_changed total_changes] in Hn, Hc, Ht.
  rewrite Nat.add_0_l in Hn, Hc, Ht. pose proof (sublist_length _ _ Hsub).
  split; [done|]. split; [lia|]. split; [lia|]. split; [lia|].
  exists w1. split; [done|]. split; [|done].
  exists ws. split; [done|]. split; [done|lia].
Qed.

Lemma orphan_main_totals_witness :
  total_files MoreExamples2.backend_totals
  = length (visited [py "src"] MoreExamples2.backend_listing).
Proof.
  refine (proj1 (orphan_main_totals (λ _ w, w) MoreExamples2.backend_listing
                   Examples.orphan_world MoreExamples2.backend_totals
                   MoreExamples2.orphan_world_fixed _)).
  vm_compute. reflexivity.
Defined.

End OrphanMain.

(** ** The loop that removes the repeated imports *)
Section Dedupe.
Implicit Types (ls lines : list str) (content : str).

Lemma filter_import_seen ls :
  filter (λ l, Str.contains LOGGER_IMPORT l = true)
    (filter (λ l, Str.contains LOGGER_IMPORT l = false) ls) = [].
Proof.
  induction ls as [|l ls IH]; [done|]. rewrite filter_cons.
  destruct (decide (Str.contains LOGGER_IMPORT l = false)) as [E|E]; [|done].
  rewrite filter_cons, decide_False by congruence. done.
Qed.

Lemma filter_other_seen ls :
  filter (λ l, Str.contains LOGGER_IMPORT l = false)
    (filter (λ l, Str.contains LOGGER_IMPORT l = false) ls)
  = filter (λ l, Str.contains LOGGER_IMPORT l = false) ls.
Proof.
  induction ls as [|l ls IH]; [done|]. rewrite filter_cons.
  destruct (decide (Str.contains LOGGER_IMPORT l = false)) as [E|E]; [|done].
  rewrite filter_cons, decide_True by done. by rewrite IH.
Qed.

Lemma filter_split_length ls :
  length ls
  = length (filter (λ l, Str.contains LOGGER_IMPORT l = true) ls)
    + length (filter (λ l, Str.contains LOGGER_IMPORT l = false) ls).
Proof.
  induction ls as [|l ls IH]; [done|]. rewrite !filter_cons.
  destruct (Str.contains LOGGER_IMPORT l); simpl; lia.
Qed.

Lemma dedupe_cons_import l ls :
  Str.contains LOGGER_IMPORT l = true →
  dedupe (l :: ls) false
  = l :: filter (λ l, Str.contains LOGGER_IMPORT l = false) ls.
Proof. intros E. cbn [dedupe]. rewrite E. cbn [andb]. by rewrite dedupe_seen. Qed.

Lemma dedupe_cons_other l ls seen :
  Str.contains LOGGER_IMPORT l = false →
  dedupe (l :: ls) seen = l :: dedupe ls seen.
Proof. intros E. cbn [dedupe]. by rewrite E. Qed.

Lemma dedupe_idempotent ls :
  dedupe (dedupe ls false) false = dedupe ls false.
Proof.
  induction ls as [|l ls IH]; [done|].
  destruct (Str.contains LOGGER_IMPORT l) eqn:E.
  - rewrite !dedupe_cons_import by done. by rewrite filter_other_seen.
  - rewrite !dedupe_cons_other by done. by rewrite IH.
Qed.

(** X15.  The loop of the two dedup scripts leaves of the lines with the
    logger import the first one and no other, keeps every other line,
    in order, and so deletes as many lines as there are lines with the
    import after the first; run on its own output it deletes nothing. *)
Theorem dedupe_leaves_first_import lines :
  filter (λ l, Str.contains LOGGER_IMPORT l = true) (dedupe lines false)
  = take 1 (filter (λ l, Str.contains LOGGER_IMPORT l = true) lines)
  ∧ filter (λ l, Str.contains LOGGER_IMPORT l = false) (dedupe lines false)
    = filter (λ l, Str.contains LOGGER_IMPORT l = false) lines
  ∧ length (dedupe lines false)
    = length lines
      - (length (filter (λ l, Str.contains LOGGER_IMPORT l = true) lines) - 1)
  ∧ dedupe (dedupe lines false) false = dedupe lines false.
Proof.
  split; [|split; [|split; [|apply dedupe_idempotent]]].
  - induction lines as [|l ls IH]; [done|].
    destruct (Str.contains LOGGER_IMPORT l) eqn:E.
    + rewrite dedupe_cons_import by done.
      rewrite !(filter_cons _ l), !decide_True by done.
      cbn [take]. by rewrite take_0, filter_import_seen.
    + rewrite dedupe_cons_other by done.
      by rewrite !(filter_cons _ l), !decide_False by congruence.
  - induction lines as [|l ls IH]; [done|].
    destruct (Str.contains LOGGER_IMPORT l) eqn:E.
    + rewrite dedupe_cons_import by done.
      rewrite !(filter_cons _ l), !decide_False by congruence.
      by rewrite filter_other_seen.
    + rewrite dedupe_cons_other by done.
      rewrite !(filter_cons _ l), !decide_True by done. by rewrite IH.
  - induction lines as [|l ls IH]; [done|].
    pose proof (filter_split_length ls).
    destruct (Str.contains LOGGER_IMPORT l) eqn:E.
    + rewrite dedupe_cons_import by done.
      rewrite !(filter_cons _ l), !decide_True by done. simpl. lia.
    + rewrite dedupe_cons_other by done.
      rewrite !(filter_cons _ l), !decide_False by congruence.
      simpl. rewrite IH. lia.
Qed.

Lemma deduped_idempotent content : deduped (deduped content) = deduped content.
Proof.
  unfold deduped. destruct (fix_file_lines content) as [-> _].
  by rewrite dedupe_idempotent.
Qed.

End Dedupe.

(** ** [fix_file] and the scripts around it *)
Section FixFile.
Implicit Types (w : World) (path filepath p : Path) (content s : str).

Lemma read_text_Ok w path content :
  Fs.read_text w path = Ok content
  ↔ ∃ f, store w !! path = Some (File f) ∧ readable f = true
         ∧ data f = Some content.
Proof.
  unfold Fs.read_text. split.
  - destruct (store w !! path) as [[|f]|]; [done| |done].
    destruct (readable f) eqn:Hr; [|done].
    destruct (data f) eqn:Hd; [|done]. intros [= ->]. by exists f.
  - intros (f & -> & -> & ->). done.
Qed.

Lemma fixable_spec w path :
  fixable w path = true
  ↔ ∃ f content, store w !! path = Some (File f) ∧ readable f = true
                 ∧ writable f = true ∧ data f = Some content.
Proof.
  unfold fixable. split.
  - destruct (store w !! path) as [[|f]|]; [done| |done].
    intros [[Hr Hw]%andb_true_iff [c Hd]%bool_decide_eq_true]%andb_true_iff.
    by exists f, c.
  - intros (f & c & -> & -> & -> & ->). done.
Qed.

(** [fix_file] returns [True] for the fixable paths and no other, and
    leaves the world as it is when it returns [False]. *)
Lemma fix_file_fixable w filepath :
  (FixAllDuplicates.fix_file w filepath).1 = fixable w filepath
  ∧ (fixable w filepath = false →
     (FixAllDuplicates.fix_file w filepath).2 = w).
Proof.
  unfold FixAllDuplicates.fix_file, fixable, Fs.read_text, Fs.write_text.
  destruct (store w !! filepath) as [[|f]|]; [done| |done].
  destruct (readable f), (writable f), (data f) as [s|]; simpl;
    split; try done; case_bool_decide as Hs; try done;
    by destruct Hs.
Qed.

Lemma fix_file_step w filepath :
  fixable w filepath = true →
  ∃ content,
    Fs.read_text w filepath = Ok content
    ∧ FixAllDuplicates.fix_file w filepath
      = (true,
         {| store := <[filepath := File {| data := Some (deduped content);
                                           readable := true;
                                           writable := true |}]> (store w);
            written := written w ++ [filepath] |}).
Proof.
  intros (f & content & Hf & Hr & Hw & Hd)%fixable_spec. exists content.
  split; [by eapply read_text_readable|]. by eapply fix_file_writes.
Qed.

Lemma fixable_insert w filepath s log p :
  fixable w filepath = true →
  fixable {| store := <[filepath := File {| data := Some s; readable := true;
                                            writable := true |}]> (store w);
             written := log |} p
  = fixable w p.
Proof.
  intros Hf. unfold fixable at 1. simpl.
  destruct (decide (p = filepath)) as [->|Hne].
  - by rewrite lookup_insert_eq, Hf.
  - by rewrite lookup_insert_ne.
Qed.

Lemma read_text_insert w filepath s log p :
  Fs.read_text {| store := <[filepath := File {| data := Some s;
                                                 readable := true;
                                                 writable := true |}]> (store w);
                  written := log |} p
  = if decide (p = filepath) then Ok s else Fs.read_text w p.
Proof.
  unfold Fs.read_text at 1. simpl. destruct (decide (p = filepath)) as [->|Hne].
  - by rewrite lookup_insert_eq.
  - by rewrite lookup_insert_ne.
Qed.

(** X16.  What [fix_file] of fix-all-duplicates does to a file: it
    returns [True] exactly for a path at which there is a file it can
    read and write; then the file holds the text read without the
    repeated imports, no other path has changed, and a second run on the
    file writes the very same text again; when it returns [False] the
    world is as before. *)
Theorem fix_file_outcome w filepath fixed w' :
  FixAllDuplicates.fix_file w filepath = (fixed, w') →
  fixed = fixable w filepath
  ∧ (fixed = false → w' = w)
  ∧ (fixed = true →
     ∃ content,
       Fs.read_text w filepath = Ok content
       ∧ Fs.read_text w' filepath = Ok (deduped content)
       ∧ written w' = written w ++ [filepath]
       ∧ (∀ p, p ≠ filepath → store w' !! p = store w !! p)
       ∧ ∃ w'', FixAllDuplicates.fix_file w' filepath = (true, w'')
                ∧ store w'' = store w').
Proof.
  intros H. destruct (fix_file_fixable w filepath) as [H1 H2].
  rewrite H in H1, H2. simpl in H1, H2. split; [done|]. split.
  - intros ->. symmetry in H1. by apply H2.
  - intros ->. symmetry in H1.
    destruct (fix_file_step _ _ H1) as (content & Hread & Hfix).
    rewrite Hfix in H. injection H as <-. exists content.
    split; [done|]. split; [by rewrite read_text_insert, decide_True|].
    split; [done|]. split; [by intros p Hne; simpl; rewrite lookup_insert_ne|].
    set (w1 := {| store := _; written := _ |}).
    assert (fixable w1 filepath = true) as Hfx
      by (unfold w1; by rewrite fixable_insert).
    destruct (fix_file_step _ _ Hfx) as (content' & Hread' & Hfix').
    unfold w1 in Hread'. rewrite read_text_insert, decide_True in Hread' by done.
    injection Hread' as <-. eexists. split; [exact Hfix'|]. simpl.
    by rewrite deduped_idempotent, insert_insert_eq.
Qed.

Lemma fix_file_outcome_witness :
  true = fixable MoreExamples3.twice_world MoreExamples3.page.
Proof.
  refine (proj1 (fix_file_outcome MoreExamples3.twice_world MoreExamples3.page
                   true MoreExamples3.once_world _)).
  vm_compute. reflexivity.
Defined.

Lemma fixable_exists w p : fixable w p = true → path_exists w p = true.
Proof.
  intros (f & c & Hf & _)%fixable_spec. unfold path_exists.
  apply bool_decide_eq_true_2. by rewrite Hf.
Qed.

Lemma filter_fixable w1 w (files : list Path) :
  (∀ p, fixable w1 p = fixable w p) →
  filter (λ p, fixable w1 p = true) files
  = filter (λ p, fixable w p = true) files.
Proof.
  intros H. induction files as [|file rest IH]; [done|].
  rewrite !filter_cons, IH, H. done.
Qed.

Lemma same_kind_insert w filepath s :
  fixable w filepath = true →
  ∀ p, same_kind (store w !! p)
         (<[filepath := File {| data := Some s; readable := true;
                                writable := true |}]> (store w) !! p).
Proof.
  intros (f & c & Hf & Hr & Hw & _)%fixable_spec p.
  destruct (decide (p = filepath)) as [->|Hne].
  - by rewrite lookup_insert_eq, Hf.
  - rewrite lookup_insert_ne by done. apply same_kind_refl.
Qed.

(** The loop of fix-all-duplicates over any list of files. *)
Lemma fix_all_loop_spec (files : list Path) :
  ∀ w fixed_count n w',
    FixAllDuplicatesScript.loop files w fixed_count = (n, w') →
    n = fixed_count + length (filter (λ p, fixable w p = true) files)
    ∧ written w' = written w ++ filter (λ p, fixable w p = true) files
    ∧ (∀ p, fixable w' p = fixable w p)
    ∧ (∀ p, Fs.read_text w' p
            = if decide (p ∈ files ∧ fixable w p = true)
              then bind (Fs.read_text w p) (λ content, Ok (deduped content))
              else Fs.read_text w p)
    ∧ (∀ p, same_kind (store w !! p) (store w' !! p))
    ∧ (∀ p, p ∉ files → store w' !! p = store w !! p).
Proof.
  induction files as [|file rest IH]; intros w fixed_count n w'.
  - intros [= <- <-]. rewrite app_nil_r. split; [simpl; lia|].
    split; [done|]. split; [done|]. split.
    + intros p. rewrite decide_False; [done|]. by intros [?%elem_of_nil _].
    + split; [intros; apply same_kind_refl|done].
  - cbn [FixAllDuplicatesScript.loop]. rewrite filter_cons.
    destruct (fixable w file) eqn:Hf.
    + rewrite (fixable_exists _ _ Hf).
      destruct (fix_file_step _ _ Hf) as (content & Hread & ->).
      set (w1 := {| store := _; written := _ |}). intros H.
      apply IH in H as (Hn & Hlog & Hfix & Hr & Hk & Hst).
      assert (∀ p, fixable w1 p = fixable w p) as Hfix1
        by (intros p; unfold w1; by rewrite fixable_insert).
      rewrite (filter_fixable _ _ _ Hfix1) in Hn, Hlog.
      rewrite decide_True by done.
      split; [simpl; lia|]. split.
      { rewrite Hlog. unfold w1. simpl. by rewrite <- (assoc_L (++)). }
      split; [by intros p; rewrite Hfix, Hfix1|]. split; [|split].
      * intros p. rewrite Hr, Hfix1. unfold w1.
        rewrite read_text_insert.
        destruct (decide (p = file)) as [->|Hne].
        -- rewrite Hread, Hf. rewrite (decide_True (P := _ ∈ _ :: _ ∧ _))
             by (split; [left|done]).
           simpl. rewrite deduped_idempotent. by case_decide.
        -- destruct (decide (p ∈ rest ∧ fixable w p = true)) as [[? ?]|Hn'].
           ++ rewrite decide_True; [done|]. split; [by right|done].
           ++ rewrite decide_False; [done|].
              intros [[?|?]%elem_of_cons ?]; [done|]. by apply Hn'.
      * intros p. eapply same_kind_trans; [|apply Hk].
        unfold w1. simpl. by apply same_kind_insert.
      * intros p [Hne Hp]%not_elem_of_cons. rewrite Hst by done.
        unfold w1. simpl. by rewrite lookup_insert_ne.
    + rewrite decide_False by done.
      destruct (fix_file_fixable w file) as [H1 H2].
      destruct (FixAllDuplicates.fix_file w file) as [fixed w1].
      simpl in H1, H2. rewrite Hf in H1. subst fixed. rewrite (H2 Hf).
      assert (FixAllDuplicatesScript.loop rest w fixed_count = (n, w') →
              n = fixed_count + length (filter (λ p, fixable w p = true) rest)
              ∧ written w' = written w ++ filter (λ p, fixable w p = true) rest
              ∧ (∀ p, fixable w' p = fixable w p)
              ∧ (∀ p, Fs.read_text w' p
                      = if decide (p ∈ file :: rest ∧ fixable w p = true)
                        then bind (Fs.read_text w p)
                               (λ content, Ok (deduped content))
                        else Fs.read_text w p)
              ∧ (∀ p, same_kind (store w !! p) (store w' !! p))
              ∧ (∀ p, p ∉ file :: rest → store w' !! p = store w !! p))
        as Hgoal; [|by destruct (path_exists w file)].
      intros H. apply IH in H as (Hn & Hlog & Hfix & Hr & Hk & Hst).
      split; [done|]. split; [done|]. split; [done|]. split; [|split].
      * intros p. rewrite Hr.
        destruct (decide (p ∈ rest ∧ fixable w p = true)) as [[? ?]|Hn'].
        -- rewrite decide_True; [done|]. split; [by right|done].
        -- rewrite decide_False; [done|].
           intros [[->|?]%elem_of_cons ?]; [congruence|]. by apply Hn'.
      * done.
      * intros p [Hne Hp]%not_elem_of_cons. by apply Hst.
Qed.

(** X17.  The loop of fix-all-duplicates over the files found:
    [fixed_count] is the number of paths of the list, a path counted as
    often as it is listed, at which there is a file the script can read
    and write, and these are written in the order of the list; at the
    end each of them holds its text without the repeated imports, every
    other file holds its text, every path has kept its kind and its
    permissions, and a path that is not in the list has not changed. *)
Theorem fix_all_duplicates_loop (files : list Path) w n w' :
  FixAllDuplicatesScript.loop files w 0 = (n, w') →
  n = length (filter (λ p, fixable w p = true) files)
  ∧ written w' = written w ++ filter (λ p, fixable w p = true) files
  ∧ (∀ p content,
       Fs.read_text w p = Ok content →
       Fs.read_text w' p
       = Ok (if decide (p ∈ files ∧ fixable w p = true)
             then deduped content else content))
  ∧ (∀ p, same_kind (store w !! p) (store w' !! p))
  ∧ (∀ p, p ∉ files → store w' !! p = store w !! p).
Proof.
  intros (Hn & Hlog & _ & Hr & Hk & Hst)%fix_all_loop_spec.
  split; [done|]. split; [done|]. split; [|done].
  intros p content Hread. rewrite Hr, Hread. by case_decide.
Qed.

Lemma fix_all_duplicates_loop_witness :
  1 = length (filter (λ p, fixable MoreExamples3.twice_world p = true)
                [MoreExamples3.page]).
Proof.
  refine (proj1 (fix_all_duplicates_loop [MoreExamples3.page]
                   MoreExamples3.twice_world 1 MoreExamples3.once_world _)).
  vm_compute. reflexivity.
Defined.

Lemma fix_duplicates_fixable w p :
  fixable w p = true →
  FixDuplicates.fix_file w p = Ok (FixAllDuplicates.fix_file w p).2.
Proof.
  intros Hf. destruct (fix_file_step _ _ Hf) as (content & Hread & ->).
  apply fixable_spec in Hf as (f & c & Hf & Hr & Hw & Hd).
  unfold FixDuplicates.fix_file. rewrite Hread. simpl.
  rewrite (write_text_writable _ _ _ _ Hf Hw). by rewrite Hr.
Qed.

Lemma fix_duplicates_raises w p :
  fixable w p = false → path_exists w p = true →
  ∃ e, FixDuplicates.fix_file w p = Raise e ∧ e ≠ FileNotFoundError.
Proof.
  unfold fixable, path_exists, FixDuplicates.fix_file, Fs.read_text,
    Fs.write_text.
  intros Hf [x Hx]%bool_decide_eq_true. rewrite Hx in Hf |- *.
  destruct x as [|f]; [by eexists|].
  destruct (readable f); [|by eexists]. destruct (data f); [|by eexists].
  simpl in *. destruct (writable f); [done|by eexists].
Qed.

Lemma path_exists_insert w filepath s log p :
  fixable w filepath = true →
  path_exists {| store := <[filepath := File {| data := Some s;
                                                readable := true;
                                                writable := true |}]> (store w);
                 written := log |} p
  = path_exists w p.
Proof.
  intros Hf%fixable_exists. unfold path_exists in *. simpl.
  destruct (decide (p = filepath)) as [->|Hne].
  - rewrite lookup_insert_eq, Hf. by apply bool_decide_eq_true_2.
  - by rewrite lookup_insert_ne.
Qed.

Lemma filter_exists w1 w (files : list Path) :
  (∀ p, path_exists w1 p = path_exists w p) →
  filter (λ p, path_exists w1 p = true) files
  = filter (λ p, path_exists w p = true) files.
Proof.
  intros H. induction files as [|file rest IH]; [done|].
  rewrite !filter_cons, IH, H. done.
Qed.

Lemma fix_duplicates_loop_spec (files : list Path) :
  ∀ w fixed_count,
    match FixDuplicatesScript.loop files w with
    | Ok w' =>
        Forall (λ p, path_exists w p = true → fixable w p = true) files
        ∧ FixAllDuplicatesScript.loop files w fixed_count
          = (fixed_count
             + length (filter (λ p, path_exists w p = true) files), w')
    | Raise e =>
        e ≠ FileNotFoundError
        ∧ ∃ before file after w1,
            files = before ++ file :: after
            ∧ Forall (λ p, path_exists w p = true → fixable w p = true) before
            ∧ path_exists w file = true ∧ fixable w file = false
            ∧ FixDuplicatesScript.loop before w = Ok w1
            ∧ FixDuplicates.fix_file w1 file = Raise e
            ∧ (∀ p, p ∉ before → store w1 !! p = store w !! p)
    | Unmodelled => False
    end.
Proof.
  induction files as [|file rest IH]; intros w fixed_count.
  - simpl. split; [done|]. f_equal. lia.
  - cbn [FixDuplicatesScript.loop FixAllDuplicatesScript.loop].
    rewrite filter_cons.
    destruct (path_exists w file) eqn:He.
    + rewrite decide_True by done. destruct (fixable w file) eqn:Hf.
      * rewrite (fix_duplicates_fixable _ _ Hf).
        destruct (fix_file_step _ _ Hf) as (content & Hread & ->).
        cbn [bind snd]. set (w1 := {| store := _; written := _ |}).
        assert (∀ p, fixable w1 p = fixable w p) as Hfix1
          by (intros p; unfold w1; by rewrite fixable_insert).
        assert (∀ p, path_exists w1 p = path_exists w p) as Hex1
          by (intros p; unfold w1; by rewrite path_exists_insert).
        specialize (IH w1 (fixed_count + 1)).
        destruct (FixDuplicatesScript.loop rest w1) as [w'|e|] eqn:Hl;
          [| |done].
        -- destruct IH as [Hall ->]. split.
           ++ constructor; [done|]. eapply Forall_impl; [exact Hall|].
              intros p Hp. rewrite <- Hfix1, <- Hex1. exact Hp.
           ++ rewrite (filter_exists _ _ _ Hex1). f_equal. simpl. lia.
        -- destruct IH as (Hne & before & file' & after & w2 & -> & Hall
                           & He' & Hf' & Hloop & Hraise & Hst).
           split; [done|]. exists (file :: before), file', after, w2.
           split; [done|]. split.
           { constructor; [done|]. eapply Forall_impl; [exact Hall|].
             intros p Hp. rewrite <- Hfix1, <- Hex1. exact Hp. }
           rewrite Hex1 in He'. rewrite Hfix1 in Hf'.
           split; [done|]. split; [done|]. split.
           { cbn [FixDuplicatesScript.loop]. rewrite He.
             rewrite (fix_duplicates_fixable _ _ Hf).
             destruct (fix_file_step _ _ Hf) as (content' & Hread' & ->).
             cbn [bind snd]. rewrite Hread in Hread'.
             injection Hread' as <-. exact Hloop. }
           split; [done|].
           intros p [Hp1 Hp2]%not_elem_of_cons. rewrite Hst by done.
           unfold w1. simpl. by rewrite lookup_insert_ne.
      * destruct (fix_duplicates_raises _ _ Hf He) as (e & Hr & Hne).
        rewrite Hr. cbn [bind]. split; [done|]. exists [], file, rest, w.
        split; [done|]. split; [constructor|]. split; [done|].
        split; [done|]. split; [done|]. split; [done|done].
    + rewrite decide_False by congruence. specialize (IH w fixed_count).
      destruct (FixDuplicatesScript.loop rest w) as [w'|e|] eqn:Hl; [| |done].
      * destruct IH as [Hall ->]. split; [|done].
        constructor; [congruence|done].
      * destruct IH as (Hne & before & file' & after & w2 & -> & Hall
                        & He' & Hf' & Hloop & Hraise & Hst).
        split; [done|]. exists (file :: before), file', after, w2.
        split; [done|]. split; [constructor; [congruence|done]|].
        split; [done|]. split; [done|]. split.
        { cbn [FixDuplicatesScript.loop]. by rewrite He. }
        split; [done|]. intros p [Hp1 Hp2]%not_elem_of_cons. by apply Hst.
Qed.

(** X18.  The script of fix-duplicates: a path at which there is nothing
    is passed over and never ends the script.  When the script reaches
    its end, every path of the list at which there is something was a
    file it could read and write, and it leaves the world that the loop
    of fix-all-duplicates leaves for the same list, which counts these
    paths.  Otherwise it ends with the exception of the first path at
    which there is something else; the files before that path have been
    treated, and no other path has changed. *)
Theorem fix_duplicates_loop (files : list Path) w :
  match FixDuplicatesScript.loop files w with
  | Ok w' =>
      Forall (λ p, path_exists w p = true → fixable w p = true) files
      ∧ FixAllDuplicatesScript.loop files w 0
        = (length (filter (λ p, path_exists w p = true) files), w')
  | Raise e =>
      e ≠ FileNotFoundError
      ∧ ∃ before file after w1,
          files = before ++ file :: after
          ∧ Forall (λ p, path_exists w p = true → fixable w p = true) before
          ∧ path_exists w file = true ∧ fixable w file = false
          ∧ FixDuplicatesScript.loop before w = Ok w1
          ∧ FixDuplicates.fix_file w1 file = Raise e
          ∧ (∀ p, p ∉ before → store w1 !! p = store w !! p)
  | Unmodelled => False
  end.
Proof. apply (fix_duplicates_loop_spec files w 0). Qed.

End FixFile.

(** ** The files fix-all-duplicates finds *)
Section GlobLemmas.
Import CssVariableMigration.
Implicit Types (dirname p rel : Path) (listing : list dirent) (ext : str).

Lemma glob1_elem dirname listing ext p :
  p ∈ Glob.glob1 dirname listing ext
  ↔ ∃ d, d ∈ listing ∧ Glob.ishidden (Fs.name_of d) = false
         ∧ Str.endswith (Fs.name_of d) ext = true
         ∧ p = dirname ++ [Fs.name_of d].
Proof.
  unfold Glob.glob1. rewrite list_elem_of_fmap. split.
  - intros (d & -> & [[Hh He] Hd]%list_elem_of_filter). by exists d.
  - intros (d & Hd & Hh & He & ->). exists d. split; [done|].
    by apply list_elem_of_filter.
Qed.

Lemma glob_listing ext listing :
  Forall (λ d, ∀ dirname p,
            p ∈ Glob.glob_below dirname ext d
            ↔ ∃ n sub rel d',
                d = DirEnt n sub ∧ at_path sub rel d'
                ∧ Str.endswith (Fs.name_of d') ext = true
                ∧ Forall (λ x, Glob.ishidden x = false) (n :: rel)
                ∧ p = dirname ++ n :: rel) listing →
  ∀ dirname p,
    p ∈ Glob.glob1 dirname listing ext
        ++ flat_map (Glob.glob_below dirname ext) listing
    ↔ ∃ rel d, at_path listing rel d
               ∧ Str.endswith (Fs.name_of d) ext = true
               ∧ Forall (λ x, Glob.ishidden x = false) rel
               ∧ p = dirname ++ rel.
Proof.
  intros IH dirname p. rewrite Forall_forall in IH.
  rewrite elem_of_app, glob1_elem, in_flat_map_elem. split.
  - intros [(d & Hd & Hh & He & ->)|(d & Hd & Hp)].
    + exists [Fs.name_of d], d. split; [by apply at_here|]. split; [done|].
      split; [by repeat constructor|done].
    + apply (IH d Hd) in Hp as (n & sub & rel & d' & -> & Hat & He & Hh & ->).
      exists (n :: rel), d'. split; [by eapply at_below|done].
  - intros (rel & d & Hat & He & Hh & ->).
    apply at_path_inv in Hat as [[Hd ->]|(n & sub & rel' & Hd & Hat & ->)].
    + left. exists d. by apply Forall_cons in Hh as [Hh _].
    + right. exists (DirEnt n sub). split; [done|].
      apply (IH _ Hd). by exists n, sub, rel', d.
Qed.

Lemma glob_below_exactly ext d :
  ∀ dirname p,
    p ∈ Glob.glob_below dirname ext d
    ↔ ∃ n sub rel d',
        d = DirEnt n sub ∧ at_path sub rel d'
        ∧ Str.endswith (Fs.name_of d') ext = true
        ∧ Forall (λ x, Glob.ishidden x = false) (n :: rel)
        ∧ p = dirname ++ n :: rel.
Proof.
  induction d as [n|n sub IH] using dirent_induction; intros dirname p.
  - simpl. split; [by intros ?%elem_of_nil|].
    by intros (? & ? & ? & ? & ? & _).
  - cbn [Glob.glob_below]. destruct (Glob.ishidden n) eqn:Hn.
    + split; [by intros ?%elem_of_nil|].
      intros (n' & sub' & rel & d' & [= <- <-] & _ & _ & [Hh _]%Forall_cons & _).
      congruence.
    + rewrite (glob_listing ext sub IH). split.
      * intros (rel & d & Hat & He & Hh & ->). exists n, sub, rel, d.
        split; [done|]. split; [done|]. split; [done|].
        split; [by constructor|]. by rewrite <- (assoc_L (++)).
      * intros (n' & sub' & rel & d' & [= <- <-] & Hat & He
                & [_ Hh]%Forall_cons & ->).
        exists rel, d'. by rewrite <- (assoc_L (++)).
Qed.

Lemma glob_exactly dirname listing ext p :
  p ∈ Glob.glob dirname listing ext
  ↔ ∃ rel d, at_path listing rel d
             ∧ Str.endswith (Fs.name_of d) ext = true
             ∧ Forall (λ x, Glob.ishidden x = false) rel
             ∧ p = dirname ++ rel.
Proof.
  apply glob_listing, Forall_forall. intros d _. apply glob_below_exactly.
Qed.

Lemma flat_map_sublist {A B} (f g : A → list B) (l : list A) :
  Forall (λ x, f x `sublist_of` g x) l →
  flat_map f l `sublist_of` flat_map g l.
Proof.
  induction 1 as [|x l Hx _ IH]; simpl; [done|]. by apply sublist_app.
Qed.

Lemma glob1_sublist dirname listing ext :
  Glob.glob1 dirname listing ext `sublist_of` matching dirname listing ext.
Proof.
  unfold Glob.glob1, matching. apply fmap_sublist.
  induction listing as [|d listing IH]; [done|]. rewrite !filter_cons.
  destruct (decide (Str.endswith (Fs.name_of d) ext = true)) as [He|He].
  - case_decide; [by apply sublist_skip|by apply sublist_cons].
  - rewrite decide_False; [done|]. by intros [_ ?].
Qed.

Lemma glob_below_sublist ext d :
  ∀ dirname,
    Glob.glob_below dirname ext d `sublist_of` rglob_below dirname ext d.
Proof.
  induction d as [n|n sub IH] using dirent_induction; intros dirname; [done|].
  cbn [Glob.glob_below rglob_below].
  destruct (Glob.ishidden n); [apply sublist_nil_l|].
  apply sublist_app; [apply glob1_sublist|]. apply flat_map_sublist.
  eapply Forall_impl; [exact IH|]. intros d Hd. apply Hd.
Qed.

(** The glob finds what [rglob] finds, in the same order, without the
    hidden entries. *)
Lemma glob_sublist dirname listing ext :
  Glob.glob dirname listing ext `sublist_of` rglob dirname listing ext.
Proof.
  unfold Glob.glob, rglob. apply sublist_app; [apply glob1_sublist|].
  apply flat_map_sublist, Forall_forall. intros d _. apply glob_below_sublist.
Qed.

(** X19.  The files fix-all-duplicates sets out to fix are exactly the
    entries of the tree below [src], directories included, whose name
    ends with [.ts] or [.tsx] and that can be reached through names that
    do not start with a dot: a hidden file, and whatever lies in a
    hidden directory, is never touched.  When no directory lists a name
    twice, no path is found twice, so that [fixed_count] counts files. *)
Theorem files_to_fix_exactly listing :
  (∀ p, p ∈ FixAllDuplicatesScript.files_to_fix listing
        ↔ ∃ rel d,
            at_path listing rel d
            ∧ (Str.endswith (Fs.name_of d) (py ".ts") = true
               ∨ Str.endswith (Fs.name_of d) (py ".tsx") = true)
            ∧ Forall (λ n, Glob.ishidden n = false) rel
            ∧ p = [py "src"] ++ rel)
  ∧ (listing_distinct listing = true →
     NoDup (FixAllDuplicatesScript.files_to_fix listing)).
Proof.
  unfold FixAllDuplicatesScript.files_to_fix. cbn [flat_map].
  rewrite app_nil_r. split.
  - intros p. rewrite elem_of_app, !glob_exactly. split.
    + intros [(rel & d & Hat & He & Hh & ->)|(rel & d & Hat & He & Hh & ->)];
        exists rel, d; eauto.
    + intros (rel & d & Hat & [He|He] & Hh & ->); [left|right]; by exists rel, d.
  - intros Hl. apply NoDup_app. split; [|split].
    + eapply sublist_NoDup; [by apply rglob_NoDup|apply glob_sublist].
    + intros p Hts Htsx.
      eapply (rglob_disjoint [py "src"] listing (py ".tsx") (py ".ts")).
      * intros name. apply extensions_exclusive.
      * eapply elem_of_sublist; [exact Htsx|apply glob_sublist].
      * eapply elem_of_sublist; [exact Hts|apply glob_sublist].
    + eapply sublist_NoDup; [by apply rglob_NoDup|apply glob_sublist].
Qed.

Lemma files_to_fix_exactly_witness :
  NoDup (FixAllDuplicatesScript.files_to_fix MoreExamples3.hidden_listing).
Proof.
  refine (proj2 (files_to_fix_exactly MoreExamples3.hidden_listing) _).
  vm_compute. reflexivity.
Defined.

End GlobLemmas.

(** ** cleanup-api-contracts *)
Section SourceToTypes.
Import CleanupApiContracts.
Implicit Types (d : list (str * list str)) (source new_type k x : str).
Implicit Types (mappings : list (str * (str * str))).

Lemma add_type_keys source new_type d :
  map fst (add_type source new_type d)
  = if decide (source ∈ map fst d) then map fst d else map fst d ++ [source].
Proof.
  induction d as [|[k types] d IH]; [done|]. cbn [add_type].
  destruct (decide (k = source)) as [->|Hne].
  - cbn [map fst]. rewrite decide_True; [done|]. left.
  - cbn [map fst]. rewrite IH. destruct (decide (source ∈ map fst d)) as [Hin|Hin].
    + rewrite decide_True; [done|]. by right.
    + rewrite decide_False; [done|]. by intros [?|?]%elem_of_cons.
Qed.

Lemma add_type_NoDup source new_type d :
  NoDup (map fst d) → NoDup (map fst (add_type source new_type d)).
Proof.
  intros Hd. rewrite add_type_keys. case_decide as Hin; [done|].
  apply NoDup_app. split; [done|]. split; [|apply NoDup_singleton].
  by intros x Hx ->%list_elem_of_singleton.
Qed.

Lemma add_type_types source new_type d :
  Forall (λ entry, NoDup entry.2 ∧ entry.2 ≠ []) d →
  Forall (λ entry, NoDup entry.2 ∧ entry.2 ≠ []) (add_type source new_type d).
Proof.
  induction 1 as [|[k types] d [Hnd Hne] Hd IH].
  - constructor; [|constructor]. simpl. split; [apply NoDup_singleton|done].
  - cbn [add_type]. destruct (decide (k = source)) as [->|Hk].
    + constructor; [|done]. simpl in *. case_decide as Hin; [done|]. split.
      * apply NoDup_app. split; [done|]. split; [|apply NoDup_singleton].
        by intros x Hx ->%list_elem_of_singleton.
      * by destruct types.
    + by constructor.
Qed.

Lemma add_type_elem source new_type d k x :
  (∃ types, (k, types) ∈ add_type source new_type d ∧ x ∈ types)
  ↔ (∃ types, (k, types) ∈ d ∧ x ∈ types) ∨ (k = source ∧ x = new_type).
Proof.
  induction d as [|[k0 types0] d IH].
  - cbn [add_type]. split.
    + intros (types & [= -> ->]%list_elem_of_singleton
              & ->%list_elem_of_singleton). by right.
    + intros [(types & ?%elem_of_nil & _)|[-> ->]]; [done|].
      exists [new_type]. split; [left|left].
  - cbn [add_type]. destruct (decide (k0 = source)) as [->|Hk]; split.
    + intros (types & [Heq|Hin]%elem_of_cons & Hx).
      * injection Heq as -> ->. case_decide as Ht.
        -- left. exists types0. split; [left|done].
        -- apply elem_of_app in Hx as [Hx| ->%list_elem_of_singleton].
           ++ left. exists types0. split; [left|done].
           ++ by right.
      * left. exists types. split; [by right|done].
    + intros [(types & [Heq|Hin]%elem_of_cons & Hx)|[-> ->]].
      * injection Heq as -> ->. eexists. split; [left|].
        case_decide; [done|]. apply elem_of_app. by left.
      * exists types. split; [by right|done].
      * eexists. split; [left|]. case_decide; [done|].
        apply elem_of_app. right. left.
    + intros (types & [Heq|Hin]%elem_of_cons & Hx).
      * injection Heq as -> ->. left. exists types0. split; [left|done].
      * destruct (proj1 IH) as [(types' & Hin' & Hx')|[-> ->]];
          [by exists types| |].
        -- left. exists types'. split; [by right|done].
        -- by right.
    + intros [(types & [Heq|Hin]%elem_of_cons & Hx)|[-> ->]].
      * injection Heq as -> ->. exists types0. split; [left|done].
      * destruct (proj2 IH) as (types' & Hin' & Hx'); [left; by exists types|].
        exists types'. split; [by right|done].
      * destruct (proj2 IH) as (types' & Hin' & Hx'); [by right|].
        exists types'. split; [by right|done].
Qed.

Lemma source_to_types_snoc mappings old_type new_type source :
  source_to_types (mappings ++ [(old_type, (new_type, source))])
  = add_type source new_type (source_to_types mappings).
Proof. unfold source_to_types. by rewrite foldl_snoc. Qed.

(** X20.  The grouping [main] of cleanup-api-contracts prints, for any
    table of mappings: each import source is listed once, with the new
    types of the mappings that name it and no other, each of them once,
    and no source is listed without a type. *)
Theorem source_to_types_groups mappings :
  NoDup (map fst (source_to_types mappings))
  ∧ Forall (λ entry, NoDup entry.2 ∧ entry.2 ≠ []) (source_to_types mappings)
  ∧ (∀ source new_type,
       (∃ types, (source, types) ∈ source_to_types mappings ∧ new_type ∈ types)
       ↔ ∃ old_type, (old_type, (new_type, source)) ∈ mappings).
Proof.
  induction mappings as [|[old_type [new_type source]] mappings IH] using rev_ind.
  - split; [constructor|]. split; [constructor|]. intros source new_type. split.
    + by intros (types & ?%elem_of_nil & _).
    + by intros (old_type & ?%elem_of_nil).
  - destruct IH as (Hnd & Hty & Hel). rewrite source_to_types_snoc.
    split; [by apply add_type_NoDup|]. split; [by apply add_type_types|].
    intros source' new_type'. rewrite add_type_elem, Hel. split.
    + intros [(old & Hin)|[-> ->]].
      * exists old. apply elem_of_app. by left.
      * exists old_type. apply elem_of_app. right. left.
    + intros (old & [Hin|[= -> -> ->]%list_elem_of_singleton]%elem_of_app).
      * left. by exists old.
      * by right.
Qed.

End SourceToTypes.

(** ** The commands of cleanup-api-contracts *)
Section Commands.
Import CleanupApiContracts.
Context {Machine : Type}.
Variable subprocess_run : Machine → str → outcome (Machine * (Z * str * str)).
Implicit Types (s : State Machine) (cmd f source : str) (cmds : list str).
Implicit Types (files_to_update : gmap str (gset str)).
Implicit Types (mappings : list (str * (str * str))).

Lemma find_files_with_type_commands s type_name s' files :
  find_files_with_type subprocess_run s type_name = Ok (s', files) →
  commands s' = commands s ++ [rg_command type_name]
  ∧ Forall (λ f, f ≠ [] ∧ (NL ∉ f)
                 ∧ Str.endswith f (py "api-contracts.ts") = false) files.
Proof.
  unfold find_files_with_type.
  destruct (run subprocess_run s (rg_command type_name))
    as [[s1 [[code stdout] stderr]]|e|] eqn:Hrun; [|done..].
  cbn [bind]. intros [= <- <-]. split.
  - unfold run in Hrun.
    destruct (subprocess_run (machine s) _) as [[m r]|e|]; [|done..].
    by injection Hrun as <- _.
  - apply Forall_forall. intros f [[Hne He] Hf]%list_elem_of_filter.
    split; [done|]. split; [|done].
    pose proof (split_nl_lines (Str.strip stdout)) as Hl.
    rewrite Forall_forall in Hl. by apply Hl.
Qed.

(** The loop over the files found: one replacement for each file that is
    not skipped, in order, and one note for each of them. *)
Lemma replace_all_exactly old_type new_type source files :
  ∀ s files_to_update s' files_to_update',
    replace_all subprocess_run files old_type new_type source s files_to_update
    = Ok (s', files_to_update') →
    let kept :=
      filter (λ f, Str.contains (py "api-contracts.ts") f = false) files in
    commands s' = commands s ++ map (sd_command old_type new_type) kept
    ∧ files_to_update' = foldl (λ d f, note f source d) files_to_update kept.
Proof.
  induction files as [|f files IH]; intros s files_to_update s' files_to_update'.
  - intros [= <- <-]. simpl. by rewrite app_nil_r.
  - cbn [replace_all]. rewrite filter_cons.
    destruct (Str.contains (py "api-contracts.ts") f) eqn:Hapi.
    + rewrite decide_False by done. apply IH.
    + rewrite decide_True by done. unfold replace_in_file, run.
      destruct (subprocess_run (machine s) _) as [[m r]|e|]; [|done..].
      cbn [bind]. intros H. apply IH in H as [Hc ->]. cbn zeta in Hc.
      rewrite Hc. cbn [commands map foldl]. by rewrite <- (assoc_L (++)).
Qed.

Lemma noted_source_note files_to_update f0 source0 f source :
  noted_source (note f0 source0 files_to_update) f source
  ↔ noted_source files_to_update f source ∨ (f = f0 ∧ source = source0).
Proof.
  unfold noted_source, note. destruct (decide (f = f0)) as [->|Hne].
  - rewrite lookup_insert_eq. split.
    + intros (sources & [= <-] & [Hs| ->%elem_of_singleton]%elem_of_union);
        [left|by right].
      destruct (files_to_update !! f0) as [sources|];
        [by exists sources|by apply elem_of_empty in Hs].
    + intros [(sources & Hl & Hs)|[_ ->]]; eexists; (split; [done|]).
      * rewrite Hl. simpl. set_solver.
      * set_solver.
  - rewrite lookup_insert_ne by done. split; [by left|].
    by intros [?|[? _]].
Qed.

Lemma noted_source_notes source0 files :
  ∀ files_to_update f source,
    noted_source (foldl (λ d f, note f source0 d) files_to_update files) f source
    ↔ noted_source files_to_update f source ∨ (f ∈ files ∧ source = source0).
Proof.
  induction files as [|f0 files IH]; intros files_to_update f source.
  - simpl. split; [by left|]. intros [?|[?%elem_of_nil _]]; done.
  - cbn [foldl]. rewrite IH, noted_source_note, elem_of_cons. split.
    + intros [[?|[-> ->]]|[? ->]]; [by left|right..]; (split; [|done]);
        [by left|by right].
    + intros [?|[[->|?] ->]]; [by left; left|by left; right|by right].
Qed.

Lemma note_nonempty files_to_update f0 source0 :
  (∀ f sources, files_to_update !! f = Some sources → sources ≠ ∅) →
  ∀ f sources, note f0 source0 files_to_update !! f = Some sources →
               sources ≠ ∅.
Proof.
  intros H f sources. unfold note. destruct (decide (f = f0)) as [->|Hne].
  - rewrite lookup_insert_eq. intros [= <-]. set_solver.
  - rewrite lookup_insert_ne by done. apply H.
Qed.

Lemma notes_nonempty source0 files :
  ∀ files_to_update,
    (∀ f sources, files_to_update !! f = Some sources → sources ≠ ∅) →
    ∀ f sources,
      foldl (λ d f, note f source0 d) files_to_update files !! f = Some sources →
      sources ≠ ∅.
Proof.
  induction files as [|f0 files IH]; intros files_to_update H; [done|].
  cbn [foldl]. by apply IH, note_nonempty.
Qed.

(** Step 1, pass by pass. *)
Lemma replace_types_exactly todo :
  ∀ s files_to_update s' files_to_update',
    replace_types subprocess_run todo s files_to_update
    = Ok (s', files_to_update') →
    (∀ f sources, files_to_update !! f = Some sources → sources ≠ ∅) →
    ∃ found : list (list str),
      length found = length todo
      ∧ commands s' = commands s ++ concat (zip_with pass_commands todo found)
      ∧ Forall (Forall (λ f, f ≠ [] ∧ (NL ∉ f)
                   ∧ Str.contains (py "api-contracts.ts") f = false)) found
      ∧ (∀ f source,
           noted_source files_to_update' f source
           ↔ noted_source files_to_update f source
             ∨ ∃ m files, (m, files) ∈ zip todo found
                          ∧ f ∈ files ∧ source = m.2.2)
      ∧ (∀ f sources, files_to_update' !! f = Some sources → sources ≠ ∅).
Proof.
  induction todo as [|[old_type [new_type source]] todo IH];
    intros s files_to_update s' files_to_update'.
  - intros [= <- <-] Hne. exists []. rewrite app_nil_r.
    split; [done|]. split; [done|]. split; [constructor|]. split; [|done].
    intros f src. split; [by left|].
    by intros [?|(? & ? & ?%elem_of_nil & _)].
  - cbn [replace_types].
    destruct (find_files_with_type subprocess_run s old_type)
      as [[s1 files]|e|] eqn:Hfind; [|done..].
    cbn [bind].
    destruct (replace_all subprocess_run files old_type new_type source s1
                files_to_update) as [[s2 files_to_update2]|e|] eqn:Hrep;
      [|done..].
    cbn [bind]. intros H Hne.
    apply find_files_with_type_commands in Hfind as [Hc1 Hfiles].
    apply replace_all_exactly in Hrep as [Hc2 ->]. cbn zeta in Hc2.
    set (kept := filter (λ f, Str.contains (py "api-contracts.ts") f = false)
                   files) in *.
    apply IH in H as (found & Hlen & Hc3 & Hgood & Hnoted & Hne3);
      [|by apply notes_nonempty].
    exists (kept :: found). split; [by simpl; rewrite Hlen|]. split; [|split; [|split]].
    + rewrite Hc3, Hc2, Hc1. cbn [zip_with concat pass_commands fst snd].
      by rewrite <- !(assoc_L (++)).
    + constructor; [|done]. apply Forall_forall.
      intros f [Hapi Hf]%list_elem_of_filter.
      destruct (proj1 (Forall_forall _ _) Hfiles f Hf) as (? & ? & _). done.
    + intros f src. rewrite Hnoted, noted_source_notes. cbn [zip_with].
      split.
      * intros [[?|[Hf ->]]|(m & fs & Hin & Hf & ->)]; [by left|right..].
        -- exists (old_type, (new_type, source)), kept.
           split; [left|done].
        -- exists m, fs. split; [by right|done].
      * intros [?|(m & fs & [Heq|Hin]%elem_of_cons & Hf & ->)].
        -- by left; left.
        -- injection Heq as -> ->. left; right. done.
        -- right. by exists m, fs.
    + done.
Qed.

Lemma startswith_rg type_name :
  Str.startswith (rg_command type_name) (py "rg ") = true.
Proof. reflexivity. Qed.

Lemma startswith_sd old new f :
  Str.startswith (sd_command old new f) (py "rg ") = false.
Proof. reflexivity. Qed.

(** The searches among the commands of the passes: one for each pass. *)
Lemma searches_of_passes todo :
  ∀ found : list (list str),
    length found = length todo →
    filter (λ cmd, Str.startswith cmd (py "rg ") = true)
      (concat (zip_with pass_commands todo found))
    = map rg_command (map fst todo).
Proof.
  induction todo as [|m todo IH]; intros [|files found] Hlen; try done.
  change (concat (zip_with pass_commands (m :: todo) (files :: found)))
    with ((rg_command m.1 :: map (sd_command m.1 m.2.1) files)
          ++ concat (zip_with pass_commands todo found)).
  rewrite filter_app, filter_cons.
  rewrite decide_True by apply startswith_rg.
  rewrite IH by (simpl in Hlen; lia). cbn [app map]. f_equal.
  replace (filter _ (map (sd_command m.1 m.2.1) files)) with (@nil str); [done|].
  clear Hlen. induction files as [|f files IHf]; [done|].
  cbn [map]. rewrite filter_cons.
  rewrite decide_False; [done|]. by rewrite startswith_sd.
Qed.

Lemma main_exactly s s' files_to_update types :
  main subprocess_run s = Ok (s', files_to_update, types) →
  ∃ found : list (list str),
    length found = length TYPE_MAPPINGS
    ∧ commands s'
      = commands s ++ concat (zip_with pass_commands TYPE_MAPPINGS found)
    ∧ filter (λ cmd, Str.startswith cmd (py "rg ") = true)
        (concat (zip_with pass_commands TYPE_MAPPINGS found))
      = map rg_command (map fst TYPE_MAPPINGS)
    ∧ Forall (Forall (λ f, f ≠ [] ∧ (NL ∉ f)
                 ∧ Str.contains (py "api-contracts.ts") f = false)) found
    ∧ (∀ f source,
         noted_source files_to_update f source
         ↔ ∃ m files, (m, files) ∈ zip TYPE_MAPPINGS found
                      ∧ f ∈ files ∧ source = m.2.2)
    ∧ (∀ f sources, files_to_update !! f = Some sources → sources ≠ ∅)
    ∧ types = source_to_types TYPE_MAPPINGS.
Proof.
  unfold main.
  destruct (replace_types subprocess_run TYPE_MAPPINGS s ∅)
    as [[s1 files_to_update1]|e|] eqn:H; [|done..].
  cbn [bind]. intros [= <- <- <-].
  apply replace_types_exactly in H
    as (found & Hlen & Hc & Hgood & Hnoted & Hne);
    [|intros f sources Hl; by rewrite lookup_empty in Hl].
  exists found. split; [done|]. split; [done|].
  split; [by apply searches_of_passes|]. split; [done|].
  split; [|done]. intros f source. rewrite Hnoted. split; [|by right].
  intros [(sources & Hl & _)|?]; [|done]. by rewrite lookup_empty in Hl.
Qed.

(** X21.  The commands [main] of cleanup-api-contracts runs, on any
    machine, when no call raises, are exactly these: for each entry of
    the table, in the order of the table, the search for the old type
    and then, for each file found that is kept, in order, the
    replacement of the old type by its new type in that file, and no
    other command; so each old type is searched once.  A file that is
    kept has a name that is not empty, holds no line break and no
    [api-contracts.ts].  A source is noted for a file in
    [files_to_update] exactly when the file was kept in the pass of an
    entry with that source, no file is noted with an empty set, and
    [source_to_types] is that of the table. *)
Theorem cleanup_main_commands s s' files_to_update types :
  main subprocess_run s = Ok (s', files_to_update, types) →
  ∃ found : list (list str),
    length found = length TYPE_MAPPINGS
    ∧ commands s'
      = commands s ++ concat (zip_with pass_commands TYPE_MAPPINGS found)
    ∧ filter (λ cmd, Str.startswith cmd (py "rg ") = true)
        (concat (zip_with pass_commands TYPE_MAPPINGS found))
      = map rg_command (map fst TYPE_MAPPINGS)
    ∧ Forall (Forall (λ f, f ≠ [] ∧ (NL ∉ f)
                 ∧ Str.contains (py "api-contracts.ts") f = false)) found
    ∧ (∀ f source,
         noted_source files_to_update f source
         ↔ ∃ m files, (m, files) ∈ zip TYPE_MAPPINGS found
                      ∧ f ∈ files ∧ source = m.2.2)
    ∧ (∀ f sources, files_to_update !! f = Some sources → sources ≠ ∅)
    ∧ types = source_to_types TYPE_MAPPINGS.
Proof. apply main_exactly. Qed.

End Commands.

Lemma cleanup_main_commands_witness :
  ∃ found : list (list str),
    length found = length CleanupApiContracts.TYPE_MAPPINGS
    ∧ CleanupApiContracts.commands MoreExamples4.finish
      = CleanupApiContracts.commands MoreExamples4.start
        ++ concat (zip_with CleanupApiContracts.pass_commands
                     CleanupApiContracts.TYPE_MAPPINGS found)
    ∧ filter (λ cmd, Str.startswith cmd (py "rg ") = true)
        (concat (zip_with CleanupApiContracts.pass_commands
                   CleanupApiContracts.TYPE_MAPPINGS found))
      = map CleanupApiContracts.rg_command
          (map fst CleanupApiContracts.TYPE_MAPPINGS)
    ∧ Forall (Forall (λ f, f ≠ [] ∧ (NL ∉ f)
                 ∧ Str.contains (py "api-contracts.ts") f = false)) found
    ∧ (∀ f source,
         CleanupApiContracts.noted_source MoreExamples4.noted f source
         ↔ ∃ m files, (m, files) ∈ zip CleanupApiContracts.TYPE_MAPPINGS found
                      ∧ f ∈ files ∧ source = m.2.2)
    ∧ (∀ f sources, MoreExamples4.noted !! f = Some sources → sources ≠ ∅)
    ∧ CleanupApiContracts.source_to_types CleanupApiContracts.TYPE_MAPPINGS
      = CleanupApiContracts.source_to_types CleanupApiContracts.TYPE_MAPPINGS.
Proof.
  refine (cleanup_main_commands MoreExamples4.quiet MoreExamples4.start
            MoreExamples4.finish MoreExamples4.noted
            (CleanupApiContracts.source_to_types
               CleanupApiContracts.TYPE_MAPPINGS) _).
  vm_compute. reflexivity.
Defined.

(** ** A second run of css-variable-migration *)
Section SecondRun.
Import CssVariableMigration.
Variable project_root : Path.
Variables (rules lits : list (str * str)).
Hypothesis rules_literals : literals rules = Some lits.
Hypothesis rules_separated : separated lits = true.

(** [process_file] finds nothing to do at a path, in either mode. *)
Local Abbreviation settled w p :=
  (∀ dry_run, ∃ r2,
      process_file project_root rules w p dry_run = Ok (r2, w)
      ∧ changes r2 = [] ∧ modified r2 = false ∧ error r2 = None).

Lemma settled_local w w' p :
  store w !! p = store w' !! p → settled w p → settled w' p.
Proof using Type.
  intros Hst H dry_run. destruct (H dry_run) as (r2 & Hp & Hc & Hm & He).
  pose proof (process_file_local project_root rules w w' p dry_run Hst) as Hl.
  rewrite Hp in Hl. destruct Hl as (w2 & Hp' & _). exists r2.
  split; [|done].
  destruct (process_file_cases _ _ _ _ _ _ _ Hp')
    as [[-> _]|(c & _ & _ & ? & _)]; [done|congruence].
Qed.

Lemma process_all_settles files :
  ∀ w m t rs w1 m1 t1 rs1,
    process_all project_root rules false files w m t rs = Ok (w1, m1, t1, rs1) →
    Forall (λ r, error r = None) (drop (length rs) rs1) →
    Forall (λ p, settled w1 p) files.
Proof using rules_literals rules_separated.
  induction files as [|f files IH]; intros w m t rs w1 m1 t1 rs1; [constructor|].
  intros H Herr.
  destruct (process_file project_root rules w f false) as [[r wa]|e|] eqn:Hp;
    [|by cbn [process_all] in H; rewrite Hp in H..].
  rewrite (process_all_step _ _ _ _ _ _ _ _ _ _ _ Hp) in H.
  pose proof (process_all_inv _ _ _ _ _ _ _ _ _ _ _ _ H)
    as ((new & -> & _) & _ & Hframe & _).
  rewrite <- (assoc_L (++)), drop_app_length in Herr.
  apply Forall_cons in Herr as [Her Hnew].
  assert (Forall (λ p, settled w1 p) files) as Hrest.
  { eapply IH; [exact H|]. by rewrite drop_app_length. }
  constructor; [|done].
  destruct (decide (f ∈ files)) as [Hin|Hin].
  - by apply (proj1 (Forall_forall _ _) Hrest f).
  - apply (settled_local wa); [by rewrite Hframe|].
    intros dry_run.
    by apply (process_file_settled project_root rules lits rules_literals
                rules_separated w f r wa).
Qed.

Lemma process_all_again files w1 dry_run :
  Forall (λ p, settled w1 p) files →
  ∀ m t rs, ∃ rs2,
    process_all project_root rules dry_run files w1 m t rs
    = Ok (w1, m, t, rs ++ rs2)
    ∧ Forall (λ r, changes r = [] ∧ modified r = false ∧ error r = None) rs2.
Proof using Type.
  induction 1 as [|f files Hf _ IH]; intros m t rs.
  - exists []. by rewrite app_nil_r.
  - destruct (Hf dry_run) as (r2 & Hp & Hc & Hm & He).
    rewrite (process_all_step _ _ _ _ _ _ _ _ _ _ _ Hp).
    unfold has_changes. rewrite Hc. simpl. rewrite !Nat.add_0_r.
    destruct (IH m t (rs ++ [r2])) as (rs2 & -> & Hrs2).
    exists (r2 :: rs2). rewrite <- (assoc_L (++)). split; [done|].
    by constructor.
Qed.

Lemma main_again listing w sm rs w1 :
  main project_root rules listing w false = Ok (sm, rs, w1) →
  Forall (λ r, error r = None) rs →
  ∀ dry_run, ∃ rs2,
    main project_root rules listing w1 dry_run
    = Ok ({| files_scanned := files_scanned sm;
             modified_files := 0; total_changes := 0 |}, rs2, w1)
    ∧ Forall (λ r, changes r = [] ∧ modified r = false ∧ error r = None) rs2.
Proof using rules_literals rules_separated.
  unfold main. intros H Herr dry_run.
  destruct (process_all project_root rules false
              (find_files (SEARCH_DIR project_root) listing FILE_EXTENSIONS)
              w 0 0 []) as [[[[wa ma] ta] rsa]|e|] eqn:Hall; [|done..].
  cbn [bind] in H. injection H as <- <- <-.
  pose proof (process_all_settles _ _ _ _ _ _ _ _ _ Hall Herr) as Hs.
  destruct (process_all_again _ _ dry_run Hs 0 0 []) as (rs2 & -> & Hrs2).
  exists rs2. done.
Qed.

End SecondRun.

Section SecondRunOfTheScript.
Import CssVariableMigration.

(** X22.  A second run of css-variable-migration: after [main] has run
    in apply mode and no file has reported an error, a further run over
    the same tree, in either mode, scans the same number of files,
    reports no change for any of them, counts 0 modified files and 0
    changes, and leaves every file as it is. *)
Theorem second_run_reports_nothing project_root listing w sm rs w1 :
  main project_root REPLACEMENTS listing w false = Ok (sm, rs, w1) →
  Forall (λ r, error r = None) rs →
  ∀ dry_run, ∃ rs2,
    main project_root REPLACEMENTS listing w1 dry_run
    = Ok ({| files_scanned := files_scanned sm;
             modified_files := 0; total_changes := 0 |}, rs2, w1)
    ∧ Forall (λ r, changes r = [] ∧ modified r = false ∧ error r = None) rs2.
Proof.
  apply (main_again project_root REPLACEMENTS REPLACEMENT_LITERALS
           literals_REPLACEMENTS separated_REPLACEMENTS).
Qed.

Lemma second_run_reports_nothing_witness :
  ∃ rs2,
    main Examples.repo REPLACEMENTS Examples.css_listing
      Examples.css_world_rewritten true
    = Ok ({| files_scanned := 1; modified_files := 0; total_changes := 0 |},
          rs2, Examples.css_world_rewritten)
    ∧ Forall (λ r, changes r = [] ∧ modified r = false ∧ error r = None) rs2.
Proof.
  refine (second_run_reports_nothing Examples.repo Examples.css_listing
            Examples.css_world
            {| files_scanned := 1; modified_files := 1; total_changes := 2 |}
            [Examples.css_result] Examples.css_world_rewritten _ _ true).
  - vm_compute. reflexivity.
  - repeat constructor.
Defined.

End SecondRunOfTheScript.

(** ** The exception that leaves [process_file] *)
Section Escapes.
Import CssVariableMigration.

Lemma process_file_outside project_root rules w file_path dry_run :
  (∀ content, (apply_rules rules content []).1 ≠ Unmodelled) →
  match process_file project_root rules w file_path dry_run with
  | Ok (r, w') =>
      project_root `prefix_of` file_path
      ∧ Fs.is_absolute file_path = Fs.is_absolute project_root
      ∧ file_path = project_root ++ file r
  | Raise e =>
      e = ValueError
      ∧ ¬ (project_root `prefix_of` file_path
           ∧ Fs.is_absolute file_path = Fs.is_absolute project_root)
  | Unmodelled => False
  end.
Proof.
  intros Hm. unfold process_file. rewrite parent_SEARCH_DIR.
  unfold Fs.relative_to.
  destruct (decide (project_root `prefix_of` file_path)) as [Hp|Hp];
    [|rewrite (bool_decide_eq_false_2 _ Hp); cbn [andb bind];
      split; [done|]; by intros [? _]].
  rewrite (bool_decide_eq_true_2 _ Hp). cbn [andb].
  case_bool_decide as Ha; [|cbn [bind]; split; [done|]; by intros [_ ?]].
  cbn [bind].
  assert (file_path = project_root ++ drop (length project_root) file_path)
    as Hrel.
  { destruct Hp as [rel ->]. by rewrite drop_app_length. }
  destruct (Fs.read_text w file_path) as [original|e|] eqn:Hr.
  - specialize (Hm original).
    destruct (apply_rules rules original []) as [[content|e|] chs];
      [|done..].
    destruct (decide _); [|done]. destruct dry_run; [done|].
    destruct (Fs.write_text w file_path content) as [w'|e|] eqn:Hw; [done..|].
    by destruct (write_text_modelled _ _ _ Hw).
  - done.
  - by destruct (read_text_modelled _ _ Hr).
Qed.

(** X23.  The one exception that leaves [process_file]: the name of the
    result is computed before the [try], so a path that does not lie
    below the project root, three levels above the directory searched,
    or that is absolute where the project root is relative, ends the
    call with [ValueError], in either mode and before the file is looked
    at; for every other path [process_file] returns a result, whose name
    is the path relative to the project root. *)
Theorem process_file_raises_outside_root project_root w file_path dry_run :
  match process_file project_root REPLACEMENTS w file_path dry_run with
  | Ok (r, w') =>
      project_root `prefix_of` file_path
      ∧ Fs.is_absolute file_path = Fs.is_absolute project_root
      ∧ file_path = project_root ++ file r
  | Raise e =>
      e = ValueError
      ∧ ¬ (project_root `prefix_of` file_path
           ∧ Fs.is_absolute file_path = Fs.is_absolute project_root)
  | Unmodelled => False
  end.
Proof. apply process_file_outside. intros content. apply REPLACEMENTS_modelled. Qed.

End Escapes.

(** ** What fix-all-duplicates changes *)
Section ScriptChanges.
Implicit Types (w : World) (p : Path) (files : list Path).

Lemma fix_all_loop_unfixable files :
  ∀ w fixed_count n w',
    FixAllDuplicatesScript.loop files w fixed_count = (n, w') →
    ∀ p, fixable w p = false → store w' !! p = store w !! p.
Proof.
  induction files as [|file rest IH]; intros w fixed_count n w'.
  - by intros [= <- <-].
  - cbn [FixAllDuplicatesScript.loop]. destruct (fixable w file) eqn:Hf.
    + rewrite (fixable_exists _ _ Hf).
      destruct (fix_file_step _ _ Hf) as (content & Hread & ->).
      intros H p Hp. rewrite (IH _ _ _ _ H).
      * simpl. rewrite lookup_insert_ne; [done|]. congruence.
      * by rewrite fixable_insert.
    + destruct (fix_file_fixable w file) as [H1 H2].
      destruct (FixAllDuplicates.fix_file w file) as [fixed w1].
      simpl in H1, H2. rewrite Hf in H1. subst fixed. rewrite (H2 Hf).
      destruct (path_exists w file); apply IH.
Qed.

Lemma at_path_last listing rel d :
  at_path listing rel d → ∃ init, rel = init ++ [Fs.name_of d].
Proof.
  induction 1 as [listing d Hd|listing n sub rel d Hd _ [init ->]].
  - by exists [].
  - by exists (n :: init).
Qed.

(** X24.  What a run of fix-all-duplicates can change: a path at which
    the world differs after the script lies below [src], none of its
    names below [src] starts with a dot, its last name ends with [.ts]
    or [.tsx], and there was a file at it that the script could read and
    write.  The count printed is at most the number of paths found. *)
Theorem script_changes_only_visible_sources listing w n w' :
  FixAllDuplicatesScript.script listing w = (n, w') →
  n ≤ length (FixAllDuplicatesScript.files_to_fix listing)
  ∧ ∀ p, store w' !! p ≠ store w !! p →
      fixable w p = true
      ∧ ∃ init name,
          p = [py "src"] ++ init ++ [name]
          ∧ Forall (λ x, Glob.ishidden x = false) (init ++ [name])
          ∧ (Str.endswith name (py ".ts") = true
             ∨ Str.endswith name (py ".tsx") = true).
Proof.
  unfold FixAllDuplicatesScript.script. intros H.
  pose proof (fix_all_loop_unfixable _ _ _ _ _ H) as Hun.
  apply fix_all_loop_spec in H as (Hn & _ & _ & _ & _ & Hst).
  split.
  - rewrite Hn. simpl. apply length_filter.
  - intros p Hp. split.
    + destruct (fixable w p) eqn:Hf; [done|]. by destruct Hp; apply Hun.
    + destruct (decide (p ∈ FixAllDuplicatesScript.files_to_fix listing))
        as [Hin|Hin]; [|by destruct Hp; apply Hst].
      unfold FixAllDuplicatesScript.files_to_fix in Hin. cbn [flat_map] in Hin.
      rewrite app_nil_r in Hin.
      apply elem_of_app in Hin
        as [(rel & d & Hat & He & Hh & ->)%glob_exactly
           |(rel & d & Hat & He & Hh & ->)%glob_exactly];
        destruct (at_path_last _ _ _ Hat) as [init ->];
        exists init, (Fs.name_of d); eauto.
Qed.

Lemma script_changes_only_visible_sources_witness :
  1 ≤ length (FixAllDuplicatesScript.files_to_fix MoreExamples3.page_listing).
Proof.
  refine (proj1 (script_changes_only_visible_sources
                   MoreExamples3.page_listing MoreExamples3.twice_world
                   1 MoreExamples3.once_world _)).
  vm_compute. reflexivity.
Defined.

End ScriptChanges.

(** ** The block fix_orphaned is meant to remove *)
Section OrphanBlock.
Import FixOrphaned.
Implicit Types (pre block rest : list str) (call closing : str).

Lemma outer_before_call pre rest :
  Forall (λ l, is_call l = false) pre →
  outer (pre ++ rest) = (pre ++ (outer rest).1, (outer rest).2).
Proof.
  induction 1 as [|l pre Hl _ IH]; [cbn [app]; by destruct (outer rest)|].
  cbn [app]. by rewrite outer_cons, Hl, IH.
Qed.

Lemma inner_loop_block block closing rest :
  Forall (λ l, is_orphan (Str.strip l) = true
               ∧ Str.endswith (Str.strip l) (py "})") = false) block →
  is_orphan (Str.strip closing) = true →
  Str.endswith (Str.strip closing) (py "})") = true →
  inner_loop (block ++ closing :: rest)
  = ((outer rest).1, length block + 1 + (outer rest).2).
Proof.
  intros Hb Ho He. induction Hb as [|l block [Hl1 Hl2] _ IH].
  - cbn [app]. by rewrite inner_loop_cons, Ho, He.
  - cbn [app]. by rewrite inner_loop_cons, Hl1, Hl2, IH.
Qed.

(** X25.  The case fix_orphaned is written for: when the first call of
    [handleErrorEnhanced] that closes on its line is followed by lines
    that look like orphaned properties, up to one that ends with [})],
    the loop keeps everything up to the call, drops these lines, the
    closing one included, counts each of them, and goes on with the
    lines after the block as from the start. *)
Theorem orphan_block_removed pre call block closing rest :
  Forall (λ l, is_call l = false) pre →
  is_call call = true →
  Forall (λ l, is_orphan (Str.strip l) = true
               ∧ Str.endswith (Str.strip l) (py "})") = false) block →
  is_orphan (Str.strip closing) = true →
  Str.endswith (Str.strip closing) (py "})") = true →
  outer (pre ++ call :: block ++ closing :: rest)
  = (pre ++ call :: (outer rest).1, length block + 1 + (outer rest).2).
Proof.
  intros Hpre Hcall Hb Ho He. rewrite (outer_before_call _ _ Hpre).
  rewrite outer_cons, Hcall. by rewrite (inner_loop_block _ _ _ Hb Ho He).
Qed.

Lemma orphan_block_removed_witness :
  outer ([py "try {"] ++ py "handleErrorEnhanced(e)"
           :: [py "  a: 1,"] ++ py "  b: 2})" :: [py "}"])
  = ([py "try {"] ++ py "handleErrorEnhanced(e)" :: (outer [py "}"]).1,
     length [py "  a: 1,"] + 1 + (outer [py "}"]).2).
Proof.
  refine (orphan_block_removed [py "try {"] (py "handleErrorEnhanced(e)")
            [py "  a: 1,"] (py "  b: 2})") [py "}"] _ _ _ _ _).
  - repeat constructor.
  - vm_compute. reflexivity.
  - repeat constructor.
  - vm_compute. reflexivity.
  - vm_compute. reflexivity.
Defined.

End OrphanBlock.
